(** * Destructor lowering (lib/SILGen/SILGenDestructor.cpp)

    A shallow embedding of the destructor emitters of SILGen.  The emitters
    are code generators: they thread a builder (insertion point, fresh
    instruction numbers, fresh basic blocks) through a sequence of
    [B.create...] calls.  They are embedded as computations in a state and
    failure monad [SILGen]; the state is the function under construction, a
    failure is a tripped [assert] or a failed [cast<>].  The properties are
    stated on the instruction listing the emitters leave in that state. *)

From Stdlib Require Import List String Bool Arith PeanoNat Lia.
Import ListNotations.
Open Scope string_scope.
Open Scope list_scope.

Set Implicit Arguments.

(* ================================================================== *)
(** * AST side: declarations consumed by the emitters                  *)
(* ================================================================== *)

(** [ActorIsolation]: no requirement (unspecified or explicitly
    nonisolated), isolated to the actor instance, or isolated to a global
    actor. *)
Inductive ActorIsolation : Type :=
| Unspecified
| ActorInstance
| Nonisolated
| GlobalActor (actorName : string).

(** Canonical AST types.  Only the shape the emitters look at is kept:
    nominal class types, [Optional<T>], the builtin object pointer, and
    every other type as an opaque name together with what its type lowering
    says about triviality. *)
Inductive CanType : Type :=
| ClassType (name : string)
| OptionalType (object : CanType)
| NativeObjectType
| AnyObjectType
| EmptyTupleType
| WordType
| ExecutorType
| FunctionType (signature : string)
| OtherType (name : string) (trivial : bool).

(** [SILType]: an object type or the address of one. *)
Inductive SILType : Type :=
| ObjectTy (t : CanType)
| AddressTy (t : CanType).

Definition getAddressType (t : SILType) : SILType :=
  match t with ObjectTy c | AddressTy c => AddressTy c end.

Definition getObjectType (t : SILType) : SILType :=
  match t with ObjectTy c | AddressTy c => ObjectTy c end.

Definition isObject (t : SILType) : bool :=
  match t with ObjectTy _ => true | AddressTy _ => false end.

Definition getASTType (t : SILType) : CanType :=
  match t with ObjectTy c | AddressTy c => c end.

(** [Type::getOptionalObjectType]: the payload type of an [Optional]. *)
Definition getOptionalObjectType (t : CanType) : option CanType :=
  match t with OptionalType o => Some o | _ => None end.

(** A stored property. *)
Record VarDecl : Type := {
  getBaseIdentifier : string;
  getInterfaceType : CanType;
  varIsolation : ActorIsolation
}.

(** Substitution map of a bound generic superclass: only what
    [areAllParamsConcrete] answers is kept. *)
Record SubstitutionMap : Type := {
  areAllParamsConcrete : bool
}.

Record SuperclassRef : Type := {
  superclassName : string;
  getContextSubstitutionMap : option SubstitutionMap
}.

Record ClassDecl : Type := {
  className : string;
  getStoredProperties : list VarDecl;
  getSuperclass : option SuperclassRef;
  isNativeNSObjectSubclass : bool;
  isDistributedActor : bool;
  isRootDefaultActor : bool
}.

Definition hasSuperclass (cd : ClassDecl) : bool :=
  match getSuperclass cd with Some _ => true | None => false end.

Definition getDeclaredInterfaceType (cd : ClassDecl) : CanType :=
  ClassType (className cd).

Record EnumElementDecl : Type := {
  elementName : string;
  hasAssociatedValues : bool
}.

Record StructDecl : Type := {
  structName : string;
  structStoredProperties : list VarDecl
}.

Record EnumDecl : Type := {
  enumName : string;
  getAllElements : list EnumElementDecl
}.

Inductive NominalTypeDecl : Type :=
| NominalClass (cd : ClassDecl)
| NominalStruct (sd : StructDecl)
| NominalEnum (ed : EnumDecl).

Definition nominalStoredProperties (nom : NominalTypeDecl) : list VarDecl :=
  match nom with
  | NominalClass cd => getStoredProperties cd
  | NominalStruct sd => structStoredProperties sd
  | NominalEnum _ => []
  end.

Record DestructorDecl : Type := {
  getSelfNominalTypeDecl : NominalTypeDecl;
  isImplicit : bool;
  ddIsolation : ActorIsolation;
  requiresUnavailableDeclABICompatibilityStubs : bool;
  (** whether control can leave the typechecked body normally, that is,
      whether the epilog block is reachable after the body is lowered *)
  bodyFallsThrough : bool
}.

(** Modelled from the spec: the two well-known identifiers of the AST
    context ([C.Id_id], [C.Id_actorSystem]), the fixed pair of field names
    used for remote-proxy field selection; the identifier table is not in
    this file. *)
Definition Id_id : string := "id".
Definition Id_actorSystem : string := "actorSystem".

(* ------------------------------------------------------------------ *)
(** ** Decidable equality of declarations (pointer identity in the C++) *)

Definition ActorIsolation_eqb (a b : ActorIsolation) : bool :=
  match a, b with
  | Unspecified, Unspecified => true
  | ActorInstance, ActorInstance => true
  | Nonisolated, Nonisolated => true
  | GlobalActor x, GlobalActor y => String.eqb x y
  | _, _ => false
  end.

Fixpoint CanType_eqb (a b : CanType) : bool :=
  match a, b with
  | ClassType x, ClassType y => String.eqb x y
  | OptionalType x, OptionalType y => CanType_eqb x y
  | NativeObjectType, NativeObjectType => true
  | AnyObjectType, AnyObjectType => true
  | EmptyTupleType, EmptyTupleType => true
  | WordType, WordType => true
  | ExecutorType, ExecutorType => true
  | FunctionType x, FunctionType y => String.eqb x y
  | OtherType x t, OtherType y u => String.eqb x y && Bool.eqb t u
  | _, _ => false
  end.

Definition SILType_eqb (a b : SILType) : bool :=
  match a, b with
  | ObjectTy x, ObjectTy y => CanType_eqb x y
  | AddressTy x, AddressTy y => CanType_eqb x y
  | _, _ => false
  end.

Definition VarDecl_eqb (a b : VarDecl) : bool :=
  String.eqb (getBaseIdentifier a) (getBaseIdentifier b)
  && CanType_eqb (getInterfaceType a) (getInterfaceType b)
  && ActorIsolation_eqb (varIsolation a) (varIsolation b).

(* ================================================================== *)
(** * SIL side: values, instructions, the function under construction  *)
(* ================================================================== *)

Inductive OwnershipKind : Type :=
| OwnershipNone
| Unowned
| Owned
| Guaranteed.

Definition OwnershipKind_eqb (a b : OwnershipKind) : bool :=
  match a, b with
  | OwnershipNone, OwnershipNone | Unowned, Unowned
  | Owned, Owned | Guaranteed, Guaranteed => true
  | _, _ => false
  end.

Inductive SILDeclRefKind : Type :=
| Destroyer
| Deallocator
| IsolatedDeallocator
| Func.

(** [SILDeclRef]: the declaration (named by its owning type or function
    name) and the entry point kind. *)
Record SILDeclRef : Type := {
  declRefName : string;
  declRefKind : SILDeclRefKind
}.

Inductive SILAccessKind : Type := AccessInit | AccessRead | AccessModify | AccessDeinit.
Inductive SILAccessEnforcement : Type := EnforcementStatic | EnforcementDynamic.
Inductive LoadOwnershipQualifier : Type := LoadTake | LoadCopy | LoadTrivial.
Inductive StoreOwnershipQualifier : Type := StoreInit | StoreAssign | StoreTrivial.

(** Basic blocks are named by their creation number; [bb0] is the entry. *)
Definition SILBasicBlock : Type := nat.

(** A [SILValue] points at the node that defines it: a function argument
    or an instruction, from which the operands are reachable.  A node
    carries its creation number (its identity), its type and its ownership
    kind. *)
Inductive SILValue : Type :=
| SILFunctionArgument (index : nat) (ty : SILType) (ownership : OwnershipKind)
| SILInstResult (id : nat) (ty : SILType) (ownership : OwnershipKind)
                (inst : SILInstruction)

with SILInstruction : Type :=
(* casts and ownership *)
| UpcastInst (op : SILValue)
| UncheckedRefCastInst (op : SILValue)
| UncheckedOwnershipConversionInst (op : SILValue) (kind : OwnershipKind)
| BeginBorrowInst (op : SILValue) (lexical : bool)
| EndBorrowInst (op : SILValue)
| EndLifetimeInst (op : SILValue)
| DropDeinitInst (op : SILValue)
| DestroyValueInst (op : SILValue)
(* functions *)
| FunctionRefInst (ref : SILDeclRef)
| ApplyInst (callee : SILValue) (subs : option SubstitutionMap)
            (args : list SILValue)
| ConvertFunctionInst (op : SILValue)
| BuiltinInst (name : string) (args : list SILValue)
(* aggregates and literals *)
| TupleInst (elts : list SILValue)
| IntegerLiteralInst (value : nat)
| OptionalNoneInst
| InitExistentialRefInst (op : SILValue) (concrete : CanType)
| ExtractExecutorInst (op : SILValue)
| UncheckedEnumDataInst (op : SILValue) (element : string)
(* memory *)
| AllocStackInst
| DeallocStackInst (op : SILValue)
| DeallocRefInst (op : SILValue)
| RefElementAddrInst (base : SILValue) (field : VarDecl)
| StructElementAddrInst (base : SILValue) (field : VarDecl)
| UncheckedTakeEnumDataAddrInst (op : SILValue) (element : EnumElementDecl)
| BeginAccessInst (addr : SILValue) (kind : SILAccessKind)
                  (enforcement : SILAccessEnforcement)
                  (noNestedConflict fromBuiltin : bool)
| EndAccessInst (access : SILValue) (aborting : bool)
| LoadInst (addr : SILValue) (qual : LoadOwnershipQualifier)
| LoadBorrowInst (addr : SILValue)
| StoreInst (src dest : SILValue) (qual : StoreOwnershipQualifier)
| DestroyAddrInst (addr : SILValue)
| IsUniqueInst (addr : SILValue)
(* terminators *)
| ReturnInst (op : SILValue)
| BranchInst (dest : SILBasicBlock)
| CondBranchInst (cond : SILValue) (trueBB falseBB : SILBasicBlock)
| SwitchEnumAddrInst (subject : SILValue) (defaultBB : option SILBasicBlock)
                     (cases : list (EnumElementDecl * SILBasicBlock))
(* code emitted by collaborators that are not part of this file *)
| UserBodyStmt
| IncrementProfilerCounter
| UnavailableCodeReached
| LoadActorExecutor (isolation : ActorIsolation) (self : SILValue)
| PreconditionCheckExpectedExecutor (executor : SILValue)
| HopToExecutorInst (executor : SILValue)
| DistributedIfRemoteBranch (self : SILValue) (remoteBB localBB : SILBasicBlock)
| DistributedActorSystemResignIDCall (self : SILValue).

Definition getType (v : SILValue) : SILType :=
  match v with
  | SILFunctionArgument _ ty _ => ty
  | SILInstResult _ ty _ _ => ty
  end.

Definition getOwnershipKind (v : SILValue) : OwnershipKind :=
  match v with
  | SILFunctionArgument _ _ o => o
  | SILInstResult _ _ o _ => o
  end.

(** [isa<DropDeinitInst>(v)]. *)
Definition isaDropDeinitInst (v : SILValue) : bool :=
  match v with
  | SILInstResult _ _ _ (DropDeinitInst _) => true
  | _ => false
  end.

(** An instruction as it sits in the function: the block that holds it,
    its creation number, and the instruction. *)
Record Placed : Type := {
  placedBB : SILBasicBlock;
  placedId : nat;
  placedInst : SILInstruction
}.

Inductive ExpectedExecutorState : Type :=
| ExecutorUnset
| ExecutorUnnecessary
| ExecutorSet (v : SILValue).

(** The state of a [SILGenFunction]: the function [F] being filled in
    (its instructions in emission order), the builder [B] (insertion
    block), the cleanup stack, the counters for fresh nodes and blocks, and
    the few settings the emitters read. *)
Record SILGenFunction : Type := {
  selfConvention : OwnershipKind;   (* convention of the self parameter of F *)
  hasProfiler : bool;               (* F is instrumented for coverage *)
  ExpectedExecutor : ExpectedExecutorState;
  Cleanups : list SILInstruction;   (* pending cleanups, innermost first *)
  nextInst : nat;
  nextBlock : nat;
  insertionBB : option SILBasicBlock;
  body : list Placed
}.

(** A freshly created function: only the entry block [bb0] exists and the
    builder points at it. *)
Definition newFunction (conv : OwnershipKind) (prof : bool) : SILGenFunction :=
  {| selfConvention := conv; hasProfiler := prof;
     ExpectedExecutor := ExecutorUnset; Cleanups := [];
     nextInst := 0; nextBlock := 1; insertionBB := Some 0; body := [] |}.

(** The instructions of one block, in order. *)
Definition blockInsts (bb : SILBasicBlock) (l : list Placed) : list SILInstruction :=
  map placedInst (filter (fun p => Nat.eqb (placedBB p) bb) l).

(** The bare instruction listing. *)
Definition listing (l : list Placed) : list SILInstruction := map placedInst l.

(* ================================================================== *)
(** * The emission monad                                               *)
(* ================================================================== *)

(** A computation over the function under construction; [None] is a
    tripped assertion, a failed cast, or an insertion without an
    insertion point. *)
Definition SILGen (A : Type) : Type := SILGenFunction -> option (A * SILGenFunction).

Definition ret {A} (a : A) : SILGen A := fun s => Some (a, s).

Definition bind {A B} (m : SILGen A) (k : A -> SILGen B) : SILGen B :=
  fun s => match m s with
           | Some (a, s') => k a s'
           | None => None
           end.

Definition fail {A} : SILGen A := fun _ => None.

Declare Scope silgen_scope.
Delimit Scope silgen_scope with silgen.
Notation "x <- m ;; k" := (bind m (fun x => k))
  (at level 61, m at next level, right associativity) : silgen_scope.
Notation "m ;; k" := (bind m (fun _ => k))
  (at level 61, right associativity) : silgen_scope.
Open Scope silgen_scope.

Definition assert (b : bool) : SILGen unit :=
  if b then ret tt else fail.

Definition when (b : bool) (m : SILGen unit) : SILGen unit :=
  if b then m else ret tt.

(** [for (x : xs) body]. *)
Fixpoint forEach {A} (xs : list A) (f : A -> SILGen unit) : SILGen unit :=
  match xs with
  | [] => ret tt
  | x :: xs' => f x ;; forEach xs' f
  end.

Definition getState : SILGen SILGenFunction := fun s => Some (s, s).

(* ------------------------------------------------------------------ *)
(** ** Builder primitives *)

Definition withBody (s : SILGenFunction) (n : nat) (ip : option SILBasicBlock)
           (l : list Placed) : SILGenFunction :=
  {| selfConvention := selfConvention s; hasProfiler := hasProfiler s;
     ExpectedExecutor := ExpectedExecutor s; Cleanups := Cleanups s;
     nextInst := n; nextBlock := nextBlock s; insertionBB := ip; body := l |}.

(** Insert a value-producing instruction at the insertion point. *)
Definition insertValue (ty : SILType) (o : OwnershipKind) (i : SILInstruction)
  : SILGen SILValue :=
  fun s => match insertionBB s with
           | Some bb =>
               Some (SILInstResult (nextInst s) ty o i,
                     withBody s (S (nextInst s)) (Some bb)
                       (body s ++ [{| placedBB := bb; placedId := nextInst s;
                                      placedInst := i |}]))
           | None => None
           end.

(** Insert an instruction without result at the insertion point. *)
Definition insert (i : SILInstruction) : SILGen unit :=
  fun s => match insertionBB s with
           | Some bb =>
               Some (tt, withBody s (S (nextInst s)) (Some bb)
                           (body s ++ [{| placedBB := bb; placedId := nextInst s;
                                          placedInst := i |}]))
           | None => None
           end.

(** [SILBuilder::insertTerminator]: insert, then clear the insertion
    point. *)
Definition insertTerminator (i : SILInstruction) : SILGen unit :=
  fun s => match insertionBB s with
           | Some bb =>
               Some (tt, withBody s (S (nextInst s)) None
                           (body s ++ [{| placedBB := bb; placedId := nextInst s;
                                          placedInst := i |}]))
           | None => None
           end.

(** A second builder positioned in block [bb] ([SILBuilder builder(bb,
    bb->begin())] on an empty block): inserts there and leaves the
    insertion point of [B] alone. *)
Definition insertValueIn (bb : SILBasicBlock) (ty : SILType) (o : OwnershipKind)
           (i : SILInstruction) : SILGen SILValue :=
  fun s => Some (SILInstResult (nextInst s) ty o i,
                 withBody s (S (nextInst s)) (insertionBB s)
                   (body s ++ [{| placedBB := bb; placedId := nextInst s;
                                  placedInst := i |}])).

Definition insertIn (bb : SILBasicBlock) (i : SILInstruction) : SILGen unit :=
  fun s => Some (tt, withBody s (S (nextInst s)) (insertionBB s)
                       (body s ++ [{| placedBB := bb; placedId := nextInst s;
                                      placedInst := i |}])).

Definition createBasicBlock : SILGen SILBasicBlock :=
  fun s => Some (nextBlock s,
                 {| selfConvention := selfConvention s; hasProfiler := hasProfiler s;
                    ExpectedExecutor := ExpectedExecutor s;
                    Cleanups := Cleanups s;
                    nextInst := nextInst s; nextBlock := S (nextBlock s);
                    insertionBB := insertionBB s; body := body s |}).

(** [B.emitBlock(bb)] and [B.setInsertionPoint(bb)]: continue in [bb]. *)
Definition setInsertionPoint (bb : SILBasicBlock) : SILGen unit :=
  fun s => Some (tt, withBody s (nextInst s) (Some bb) (body s)).

Definition emitBlock (bb : SILBasicBlock) : SILGen unit := setInsertionPoint bb.

Definition getInsertionBB : SILGen SILBasicBlock :=
  fun s => match insertionBB s with
           | Some bb => Some (bb, s)
           | None => None
           end.

Definition setExpectedExecutor (e : ExpectedExecutorState) : SILGen unit :=
  fun s => Some (tt, {| selfConvention := selfConvention s;
                        hasProfiler := hasProfiler s;
                        ExpectedExecutor := e; Cleanups := Cleanups s;
                        nextInst := nextInst s; nextBlock := nextBlock s;
                        insertionBB := insertionBB s; body := body s |}).

Definition setCleanups (c : list SILInstruction) : SILGen unit :=
  fun s => Some (tt, {| selfConvention := selfConvention s;
                        hasProfiler := hasProfiler s;
                        ExpectedExecutor := ExpectedExecutor s; Cleanups := c;
                        nextInst := nextInst s; nextBlock := nextBlock s;
                        insertionBB := insertionBB s; body := body s |}).

Definition pushCleanup (i : SILInstruction) : SILGen unit :=
  fun s => setCleanups (i :: Cleanups s) s.

(** Emit pending cleanups, innermost first. *)
Fixpoint emitCleanups (cs : list SILInstruction) : SILGen unit :=
  match cs with
  | [] => ret tt
  | c :: cs' => insert c ;; emitCleanups cs'
  end.

(** A cleanup scope ([FullExpr], [Scope], [ArgumentScope]): the cleanups
    pushed inside it are emitted, innermost first, when the scope is
    popped; the cleanups of the enclosing scopes stay pending. *)
Definition inScope {A} (m : SILGen A) : SILGen A :=
  fun s =>
    let outer := Cleanups s in
    (setCleanups [] ;;
     a <- m ;;
     inner <- (fun s' => Some (Cleanups s', s')) ;;
     emitCleanups inner ;;
     setCleanups outer ;;
     ret a) s.

(* ------------------------------------------------------------------ *)
(** ** ManagedValue *)

Record ManagedValue : Type := {
  getValue : SILValue;
  hasCleanup : bool
}.

Definition forBorrowedRValue (v : SILValue) : ManagedValue :=
  {| getValue := v; hasCleanup := false |}.
Definition forUnownedObjectValue (v : SILValue) : ManagedValue :=
  {| getValue := v; hasCleanup := false |}.
Definition forBorrowedAddressRValue (v : SILValue) : ManagedValue :=
  {| getValue := v; hasCleanup := false |}.
Definition forUnmanagedOwnedValue (v : SILValue) : ManagedValue :=
  {| getValue := v; hasCleanup := false |}.
Definition forward (mv : ManagedValue) : SILValue := getValue mv.
Definition getUnmanagedValue (mv : ManagedValue) : SILValue := getValue mv.

(* ------------------------------------------------------------------ *)
(** ** Type lowering *)

(** Modelled from the spec: type lowering ([getTypeLowering], in
    TypeLowering.h) is not in this file.  A stored field carries its
    triviality, "whether destruction is a no-op": references are never
    trivial, an optional is as trivial as its payload, and any other type
    says so itself. *)
Fixpoint isTrivial (t : CanType) : bool :=
  match t with
  | ClassType _ => false
  | OptionalType o => isTrivial o
  | NativeObjectType => false
  | AnyObjectType => false
  | EmptyTupleType => true
  | WordType => true
  | ExecutorType => true
  | FunctionType _ => true
  | OtherType _ trivial => trivial
  end.

Definition getLoweredType (t : CanType) : SILType := ObjectTy t.
Definition getLoweredLoadableType (t : CanType) : SILType := ObjectTy t.
Definition getNativeObjectType : SILType := ObjectTy NativeObjectType.

(* ------------------------------------------------------------------ *)
(** ** [B.create...] *)

Definition addressOwnership (ty : SILType) (o : OwnershipKind) : OwnershipKind :=
  if isObject ty then o else OwnershipNone.

Definition createUpcast (v : SILValue) (ty : SILType) : SILGen SILValue :=
  insertValue ty (getOwnershipKind v) (UpcastInst v).

Definition createUncheckedRefCast (v : SILValue) (ty : SILType) : SILGen SILValue :=
  insertValue ty (getOwnershipKind v) (UncheckedRefCastInst v).

Definition createUncheckedOwnershipConversion (v : SILValue) (k : OwnershipKind)
  : SILGen SILValue :=
  insertValue (getType v) k (UncheckedOwnershipConversionInst v k).

Definition createBeginBorrow (v : SILValue) (lexical : bool) : SILGen SILValue :=
  insertValue (getType v) Guaranteed (BeginBorrowInst v lexical).

Definition createEndBorrow (v : SILValue) : SILGen unit := insert (EndBorrowInst v).
Definition createEndLifetime (v : SILValue) : SILGen unit := insert (EndLifetimeInst v).

Definition createDropDeinit (v : SILValue) : SILGen SILValue :=
  insertValue (getType v) (addressOwnership (getType v) Owned) (DropDeinitInst v).

Definition createDestroyValue (v : SILValue) : SILGen unit := insert (DestroyValueInst v).

Definition createFunctionRef (ref : SILDeclRef) : SILGen SILValue :=
  insertValue (ObjectTy (FunctionType (declRefName ref))) OwnershipNone
              (FunctionRefInst ref).

(** The result of a call follows the callee's convention: a destroying
    destructor returns the object as an owned native object pointer, every
    other callee here returns the empty tuple. *)
Definition applyResultType (callee : SILValue) : SILType * OwnershipKind :=
  match callee with
  | SILInstResult _ _ _ (FunctionRefInst {| declRefKind := Destroyer |}) =>
      (getNativeObjectType, Owned)
  | _ => (ObjectTy EmptyTupleType, OwnershipNone)
  end.

Definition createApply (callee : SILValue) (subs : option SubstitutionMap)
           (args : list SILValue) : SILGen SILValue :=
  insertValue (fst (applyResultType callee)) (snd (applyResultType callee))
              (ApplyInst callee subs args).

Definition createConvertFunction (v : SILValue) (ty : SILType) : SILGen SILValue :=
  insertValue ty (getOwnershipKind v) (ConvertFunctionInst v).

Definition createBuiltin (name : string) (resultTy : SILType) (args : list SILValue)
  : SILGen SILValue :=
  insertValue resultTy OwnershipNone (BuiltinInst name args).

Definition emitEmptyTuple : SILGen SILValue :=
  insertValue (ObjectTy EmptyTupleType) OwnershipNone (TupleInst []).

Definition createIntegerLiteral (ty : SILType) (n : nat) : SILGen SILValue :=
  insertValue ty OwnershipNone (IntegerLiteralInst n).

Definition createOptionalNone (ty : SILType) : SILGen SILValue :=
  insertValue ty OwnershipNone OptionalNoneInst.

Definition createInitExistentialRef (ty : SILType) (concrete : CanType) (v : SILValue)
  : SILGen SILValue :=
  insertValue ty (getOwnershipKind v) (InitExistentialRefInst v concrete).

Definition createExtractExecutor (v : SILValue) : SILGen SILValue :=
  insertValue (ObjectTy ExecutorType) OwnershipNone (ExtractExecutorInst v).

Definition createUncheckedEnumData (v : SILValue) (element : string) (ty : SILType)
  : SILGen SILValue :=
  insertValue ty (getOwnershipKind v) (UncheckedEnumDataInst v element).

Definition createAllocStack (ty : SILType) : SILGen SILValue :=
  insertValue (getAddressType ty) OwnershipNone AllocStackInst.

Definition createDeallocStack (v : SILValue) : SILGen unit := insert (DeallocStackInst v).
Definition createDeallocRef (v : SILValue) : SILGen unit := insert (DeallocRefInst v).

Definition createRefElementAddr (base : SILValue) (field : VarDecl) (ty : SILType)
  : SILGen SILValue :=
  insertValue ty OwnershipNone (RefElementAddrInst base field).

Definition createStructElementAddr (base : SILValue) (field : VarDecl) (ty : SILType)
  : SILGen SILValue :=
  insertValue ty OwnershipNone (StructElementAddrInst base field).

Definition createBeginAccess (addr : SILValue) (kind : SILAccessKind)
           (enforcement : SILAccessEnforcement) (noNestedConflict fromBuiltin : bool)
  : SILGen SILValue :=
  insertValue (getType addr) OwnershipNone
              (BeginAccessInst addr kind enforcement noNestedConflict fromBuiltin).

Definition createEndAccess (access : SILValue) (aborting : bool) : SILGen unit :=
  insert (EndAccessInst access aborting).

Definition createLoad (addr : SILValue) (qual : LoadOwnershipQualifier) : SILGen SILValue :=
  insertValue (getObjectType (getType addr)) Owned (LoadInst addr qual).

Definition createLoadBorrow (addr : SILValue) : SILGen SILValue :=
  insertValue (getObjectType (getType addr)) Guaranteed (LoadBorrowInst addr).

Definition createStore (src dest : SILValue) (qual : StoreOwnershipQualifier) : SILGen unit :=
  insert (StoreInst src dest qual).

Definition createDestroyAddr (addr : SILValue) : SILGen unit := insert (DestroyAddrInst addr).

Definition createIsUnique (addr : SILValue) : SILGen SILValue :=
  insertValue (ObjectTy (OtherType "Builtin.Int1" true)) OwnershipNone (IsUniqueInst addr).

Definition createReturn (v : SILValue) : SILGen unit := insertTerminator (ReturnInst v).
Definition createBranch (bb : SILBasicBlock) : SILGen unit := insertTerminator (BranchInst bb).

Definition createCondBranch (cond : SILValue) (trueBB falseBB : SILBasicBlock) : SILGen unit :=
  insertTerminator (CondBranchInst cond trueBB falseBB).

Definition createSwitchEnumAddr (subject : SILValue) (defaultBB : option SILBasicBlock)
           (cases : list (EnumElementDecl * SILBasicBlock)) : SILGen unit :=
  insertTerminator (SwitchEnumAddrInst subject defaultBB cases).

(* ------------------------------------------------------------------ *)
(** ** Collaborators outside this file *)

(** Modelled from the spec: [emitSelfDeclForDestructor] (the prolog) is
    not in this file.  It binds the self parameter with its given ownership
    kind: the first argument of the entry block, of the class type, with
    the convention of the function being emitted. *)
Definition emitSelfDeclForDestructor (selfTy : CanType) : SILGen SILValue :=
  fun s => Some (SILFunctionArgument 0 (ObjectTy selfTy) (selfConvention s), s).

(** Modelled from the spec: [emitManagedBeginBorrow] is not in this file.
    It opens "a borrowed (non-consuming) view" of the value and registers
    the end of the borrow as a cleanup of the enclosing scope. *)
Definition emitManagedBeginBorrow (v : SILValue) : SILGen ManagedValue :=
  b <- createBeginBorrow v false ;;
  pushCleanup (EndBorrowInst b) ;;
  ret {| getValue := b; hasCleanup := true |}.

(** [ManagedValue::ScopeKind]: the kind of scope that owns the cleanup of a
    managed value. *)
Inductive ScopeKind := Lexical | FormalAccess.

(** Modelled from the spec: [SILGenBuilder::borrowObjectRValue] is not in
    this file.  "Borrowing for inspection": a value that is already
    guaranteed, or has no ownership, is used as it is; any other value gets
    a borrow scope whose end is a cleanup.  The scope kind says which scope
    owns that cleanup; the model keeps one stack of cleanups, so both kinds
    register there, and the kind is no flag of the [begin_borrow]. *)
Definition borrowObjectRValue (v : SILValue) (kind : ScopeKind) : SILGen ManagedValue :=
  match getOwnershipKind v with
  | Guaranteed | OwnershipNone => ret (forBorrowedRValue v)
  | Owned | Unowned => emitManagedBeginBorrow v
  end.

(** [SILGenBuilder::createUncheckedRefCast] on a managed value. *)
Definition createUncheckedRefCastManaged (mv : ManagedValue) (ty : SILType)
  : SILGen ManagedValue :=
  c <- createUncheckedRefCast (getValue mv) ty ;;
  ret {| getValue := c; hasCleanup := hasCleanup mv |}.

(** Modelled from the spec: [emitSiblingMethodRef] is not in this file.
    It yields "a reference to the destroying form for this exact type
    (non-virtual -- destructors are not dynamically dispatched across
    subclasses in this model)": a direct function reference. *)
Definition emitSiblingMethodRef (self : SILValue) (constant : SILDeclRef)
           (subMap : option SubstitutionMap) : SILGen (ManagedValue * SILType) :=
  f <- createFunctionRef constant ;;
  ret ({| getValue := f; hasCleanup := false |}, getType f).

(** Modelled from the spec: [emitExecutor] is not in this file.  "Compute
    the required executor for this isolation and self value (may return
    none)": none without an isolation requirement, the executor of the
    actor instance or of the global actor otherwise. *)
Definition emitExecutor (ai : ActorIsolation) (self : ManagedValue)
  : SILGen (option SILValue) :=
  match ai with
  | Unspecified | Nonisolated => ret None
  | ActorInstance | GlobalActor _ =>
      e <- insertValue (ObjectTy ExecutorType) Guaranteed
                       (LoadActorExecutor ai (getValue self)) ;;
      ret (Some e)
  end.

(** Modelled from the spec: [emitPreconditionCheckExpectedExecutor] is not
    in this file.  "Assert current execution is already on this executor
    (fatal if false)": one runtime check, no hop. *)
Definition emitPreconditionCheckExpectedExecutor (executor : SILValue) : SILGen unit :=
  insert (PreconditionCheckExpectedExecutor executor).

(** Modelled from the spec: [emitApplyOfUnavailableCodeReached] is not in
    this file; it emits the call of the unavailable-code diagnostic. *)
Definition emitApplyOfUnavailableCodeReached : SILGen unit :=
  insert UnavailableCodeReached.

(** Modelled from the spec: the profiler hook is not in this file; it
    counts an execution of the body when the function is instrumented. *)
Definition emitProfilerIncrement : SILGen unit :=
  fun s => if hasProfiler s then insert IncrementProfilerCounter s else Some (tt, s).

(** Modelled from the spec: statement lowering ([prepareEpilog],
    [emitStmt], [emitEpilogBB]) is not in this file.  "Lower this
    user-written statement sequence into the current instruction stream,
    returning a possible fallthrough value and location": the lowered body
    is kept as one opaque entry of the listing, and the epilog continues
    after it when the body can fall through. *)
Definition prepareEpilog : SILGen unit := ret tt.

Definition emitStmt (dd : DestructorDecl) : SILGen unit := insert UserBodyStmt.

Definition emitEpilogBB (dd : DestructorDecl) : SILGen (option unit) :=
  if bodyFallsThrough dd then ret (Some tt)
  else (fun s => Some (None, withBody s (nextInst s) None (body s))).

(** Modelled from the spec: [emitDistributedIfRemoteBranch] is not in this
    file.  "Branch on a runtime predicate: is this instance a remote
    proxy?", to [remoteBB] if it is and to [localBB] if it is not. *)
Definition emitDistributedIfRemoteBranch (self : SILValue) (selfTy : CanType)
           (remoteBB localBB : SILBasicBlock) : SILGen unit :=
  insertTerminator (DistributedIfRemoteBranch self remoteBB localBB).

(** Modelled from the spec: [emitDistributedActorSystemResignIDCall] is
    not in this file; "a runtime hook to release the identity/registration
    state". *)
Definition emitDistributedActorSystemResignIDCall (cd : ClassDecl) (self : ManagedValue)
  : SILGen unit :=
  insert (DistributedActorSystemResignIDCall (getValue self)).

(** The two cases of [Optional]. *)
Definition OptionalSomeDecl : EnumElementDecl :=
  {| elementName := "some"; hasAssociatedValues := true |}.
Definition OptionalNoneDecl : EnumElementDecl :=
  {| elementName := "none"; hasAssociatedValues := false |}.

(** Modelled from the spec: [SwitchEnumBuilder] is not in this file.  With
    the two optional cases added and no handler it emits the loop test
    "while the working slot holds a present link": a multi-way branch on
    the tag found at the subject address. *)
Definition emitSwitchOnOptional (subject : ManagedValue) (someBB noneBB : SILBasicBlock)
  : SILGen unit :=
  createSwitchEnumAddr (getValue subject) None
                       [(OptionalSomeDecl, someBB); (OptionalNoneDecl, noneBB)].

Definition castClassDecl (nom : NominalTypeDecl) : SILGen ClassDecl :=
  match nom with NominalClass cd => ret cd | _ => fail end.

Definition castEnumDecl (nom : NominalTypeDecl) : SILGen EnumDecl :=
  match nom with NominalEnum ed => ret ed | _ => fail end.

(* ================================================================== *)
(** * The emitters of SILGenDestructor.cpp                             *)
(* ================================================================== *)

(** [destroyClassMember]: nothing for a trivial field; otherwise the
    address of the field, a static [deinit] access around one
    [destroy_addr]. *)
Definition destroyClassMember (selfValue : ManagedValue) (D : VarDecl) : SILGen unit :=
  let ti := getInterfaceType D in
  if negb (isTrivial ti) then
    addr <- createRefElementAddr (getValue selfValue) D
                                 (getAddressType (getLoweredType ti)) ;;
    addr <- createBeginAccess addr AccessDeinit EnforcementStatic false false ;;
    createDestroyAddr addr ;;
    createEndAccess addr false
  else ret tt.

(** [llvm::SmallSetVector::insert] and [contains]. *)
Definition setVectorContains (result : list VarDecl) (vd : VarDecl) : bool :=
  existsb (VarDecl_eqb vd) result.

Definition setVectorInsert (result : list VarDecl) (vd : VarDecl) : list VarDecl :=
  if setVectorContains result vd then result else result ++ [vd].

(** The test of the loop of [findRecursiveLinks]: the interface type of
    the property is an optional whose payload is the class itself. *)
Definition isRecursiveLink (cd : ClassDecl) (vd : VarDecl) : bool :=
  match getOptionalObjectType (getInterfaceType vd) with
  | Some Ty => CanType_eqb Ty (getDeclaredInterfaceType cd)
  | None => false
  end.

(** [findRecursiveLinks]: collect the stored properties whose type is
    [Optional<Self>]; with more than one, clear the set. *)
Definition findRecursiveLinks (cd : ClassDecl) (result : list VarDecl) : list VarDecl :=
  let result :=
    fold_left (fun result vd =>
                 if isRecursiveLink cd vd then setVectorInsert result vd else result)
              (getStoredProperties cd) result in
  if Nat.ltb 1 (List.length result) then [] else result.

(** [emitDestroyDefaultActor]. *)
Definition emitDestroyDefaultActor (selfValue : SILValue) : SILGen unit :=
  _ <- createBuiltin "destroyDefaultActor" (ObjectTy EmptyTupleType) [selfValue] ;;
  ret tt.

(** [emitRecursiveChainDestruction]. *)
Definition emitRecursiveChainDestruction (selfValue : ManagedValue) (cd : ClassDecl)
           (recursiveLink : VarDecl) : SILGen unit :=
  let selfTy := getDeclaredInterfaceType cd in
  let selfTyLowered := getLoweredType selfTy in
  cleanBB <- createBasicBlock ;;
  noneBB <- createBasicBlock ;;
  notUniqueBB <- createBasicBlock ;;
  uniqueBB <- createBasicBlock ;;
  someBB <- createBasicBlock ;;
  loopBB <- createBasicBlock ;;
  (* var iter = self.link
     self.link = nil *)
  let Ty := getLoweredType (getInterfaceType recursiveLink) in
  optionalNone <- createOptionalNone Ty ;;
  varAddr <- createRefElementAddr (getValue selfValue) recursiveLink
                                  (getAddressType Ty) ;;
  iterAddr <- createAllocStack Ty ;;
  addr <- createBeginAccess varAddr AccessModify EnforcementStatic true false ;;
  iter <- createLoad addr LoadTake ;;
  createStore optionalNone addr StoreInit ;;
  createEndAccess addr false ;;
  createStore iter iterAddr StoreInit ;;
  createBranch loopBB ;;
  (* while iter != nil { *)
  emitBlock loopBB ;;
  (let iterBorrow := forBorrowedAddressRValue iterAddr in
   emitSwitchOnOptional iterBorrow someBB noneBB) ;;
  (* if isKnownUniquelyReferenced(&iter) { *)
  emitBlock someBB ;;
  isUnique <- createIsUnique iterAddr ;;
  createCondBranch isUnique uniqueBB notUniqueBB ;;
  (* we have a uniquely referenced link, so we need to deinit *)
  emitBlock uniqueBB ;;
  (* let tail = iter.unsafelyUnwrapped.next
     iter = tail *)
  iterBorrow <- createLoadBorrow iterAddr ;;
  link <- createUncheckedEnumData iterBorrow (elementName OptionalSomeDecl)
                                  selfTyLowered ;;
  varAddr <- createRefElementAddr link recursiveLink (getAddressType Ty) ;;
  addr <- createBeginAccess varAddr AccessRead EnforcementStatic true false ;;
  iter <- createLoad addr LoadCopy ;;
  createEndAccess addr false ;;
  createEndBorrow iterBorrow ;;
  createStore iter iterAddr StoreAssign ;;
  createBranch loopBB ;;
  (* the next link in the chain is not unique, so we are done here *)
  emitBlock notUniqueBB ;;
  createBranch cleanBB ;;
  (* we reached the end of the chain *)
  emitBlock noneBB ;;
  createBranch cleanBB ;;
  emitBlock cleanBB ;;
  createDestroyAddr iterAddr ;;
  createDeallocStack iterAddr.

(** [emitClassMemberDestruction]. *)
Definition emitClassMemberDestruction (selfValue : ManagedValue) (cd : ClassDecl)
  : SILGen unit :=
  assert (OwnershipKind_eqb (getOwnershipKind (getValue selfValue)) Guaranteed) ;;
  let recursiveLinks := findRecursiveLinks cd [] in
  (* Destroy all members. *)
  forEach (getStoredProperties cd)
          (fun vd =>
             if setVectorContains recursiveLinks vd then ret tt
             else destroyClassMember selfValue vd) ;;
  match recursiveLinks with
  | [] => ret tt
  | link0 :: _ =>
      assert (Nat.eqb (List.length recursiveLinks) 1) ;;
      emitRecursiveChainDestruction selfValue cd link0
  end ;;
  when (isRootDefaultActor cd) (emitDestroyDefaultActor (getValue selfValue)).

(** [emitMoveOnlyMemberDestruction]. *)
Definition emitMoveOnlyMemberDestruction (selfValue : SILValue) (nom : NominalTypeDecl)
  : SILGen unit :=
  selfValue <- (if negb (isaDropDeinitInst selfValue)
                then createDropDeinit selfValue
                else ret selfValue) ;;
  if isObject (getType selfValue) then
    (* A destroy value that uses the result of a drop_deinit implicitly
       performs memberwise destruction. *)
    createDestroyValue selfValue
  else
    match nom with
    | NominalStruct structDecl =>
        forEach (nominalStoredProperties nom)
                (fun vd =>
                   let ti := getInterfaceType vd in
                   if isTrivial ti then ret tt
                   else
                     addr <- createStructElementAddr selfValue vd
                               (getAddressType (getLoweredType ti)) ;;
                     addr <- createBeginAccess addr AccessDeinit EnforcementStatic
                                               false false ;;
                     createDestroyAddr addr ;;
                     createEndAccess addr false)
    | _ =>
        origBlock <- getInsertionBB ;;
        enumDecl <- castEnumDecl nom ;;
        contBlock <- createBasicBlock ;;
        caseCleanups <-
          fold_left
            (fun (acc : SILGen (list (EnumElementDecl * SILBasicBlock))) enumElt =>
               caseCleanups <- acc ;;
               enumBlock <- createBasicBlock ;;
               (if hasAssociatedValues enumElt then
                  take <- insertValueIn enumBlock (getType selfValue) OwnershipNone
                            (UncheckedTakeEnumDataAddrInst selfValue enumElt) ;;
                  insertIn enumBlock (DestroyAddrInst take)
                else ret tt) ;;
               (* Branch to the continue trampoline block. *)
               insertIn enumBlock (BranchInst contBlock) ;;
               setInsertionPoint enumBlock ;;
               ret (caseCleanups ++ [(enumElt, enumBlock)]))
            (getAllElements enumDecl) (ret []) ;;
        setInsertionPoint origBlock ;;
        createSwitchEnumAddr selfValue None caseCleanups ;;
        setInsertionPoint contBlock
    end.

(** [emitDistributedRemoteActorDeinit]: the wrapper that puts the
    is-remote test around the local deinit of a distributed actor. *)
Definition emitDistributedRemoteActorDeinit (selfValue : SILValue) (dd : DestructorDecl)
           (isIsolated : bool) (emitLocalDeinit : SILGen unit) : SILGen unit :=
  cd <- castClassDecl (getSelfNominalTypeDecl dd) ;;
  if isIsolated || negb (isDistributedActor cd) then
    emitLocalDeinit ;;
    t <- emitEmptyTuple ;;
    createReturn t
  else
    remoteBB <- createBasicBlock ;;
    finishBB <- createBasicBlock ;;
    localBB <- createBasicBlock ;;
    let selfTy := getDeclaredInterfaceType cd in
    emitDistributedIfRemoteBranch selfValue selfTy remoteBB localBB ;;
    (* Emit remote BB *)
    emitBlock remoteBB ;;
    inScope (
      borrowedSelf <- emitManagedBeginBorrow selfValue ;;
      (* Note that we do NOT execute user-declared the deinit body. *)
      (* we are a remote instance,
         the only properties we can destroy are the id and system properties. *)
      forEach (getStoredProperties cd)
              (fun vd =>
                 if ActorIsolation_eqb (varIsolation vd) ActorInstance then ret tt
                 else
                   (* Just to double-check, we only want to destroy `id` and
                      `actorSystem` *)
                   if String.eqb (getBaseIdentifier vd) Id_id
                      || String.eqb (getBaseIdentifier vd) Id_actorSystem
                   then destroyClassMember borrowedSelf vd
                   else ret tt) ;;
      when (isRootDefaultActor cd) (emitDestroyDefaultActor (getValue borrowedSelf))
    ) ;;
    createDeallocRef selfValue ;;
    createBranch finishBB ;;
    (* Emit local BB *)
    emitBlock localBB ;;
    emitLocalDeinit ;;
    createBranch finishBB ;;
    (* Emit finish BB *)
    emitBlock finishBB ;;
    (* Return. *)
    t <- emitEmptyTuple ;;
    createReturn t.

(** [emitDestroyingDestructor]. *)
Definition emitDestroyingDestructor (dd : DestructorDecl) : SILGen unit :=
  when (requiresUnavailableDeclABICompatibilityStubs dd)
       emitApplyOfUnavailableCodeReached ;;
  cd <- castClassDecl (getSelfNominalTypeDecl dd) ;;
  selfValue <- emitSelfDeclForDestructor (getDeclaredInterfaceType cd) ;;
  let managedSelf :=
    if OwnershipKind_eqb (getOwnershipKind selfValue) Unowned
    then forUnownedObjectValue selfValue
    else forBorrowedRValue selfValue in
  let ai := ddIsolation dd in
  actor <- emitExecutor ai managedSelf ;;
  match actor with
  | Some a => setExpectedExecutor (ExecutorSet a)
  | None => setExpectedExecutor ExecutorUnnecessary
  end ;;
  (* Jump to the expected executor. *)
  match actor with
  | Some a =>
      (* For a synchronous function, check that we're on the same executor. *)
      emitPreconditionCheckExpectedExecutor a
  | None => ret tt
  end ;;
  prepareEpilog ;;
  (* Emit the destructor body. *)
  emitProfilerIncrement ;;
  emitStmt dd ;;
  maybeReturnValue <- emitEpilogBB dd ;;
  match maybeReturnValue with
  | None => ret tt
  | Some _ =>
      (* If we have a superclass, invoke its destructor. *)
      let objectPtrTy := getNativeObjectType in
      let classTy := getType selfValue in
      resultSelfValue <-
        match getSuperclass cd with
        | Some superclass =>
            if negb (isNativeNSObjectSubclass cd) then
              let dtorConstant :=
                {| declRefName := superclassName superclass;
                   declRefKind := Destroyer |} in
              let baseSILTy :=
                getLoweredLoadableType (ClassType (superclassName superclass)) in
              baseSelf <- createUpcast selfValue baseSILTy ;;
              let subMap := getContextSubstitutionMap superclass in
              (* We completely drop the generic signature if all generic
                 parameters were concrete. *)
              let subMap :=
                match subMap with
                | Some m => if areAllParamsConcrete m then None else Some m
                | None => None
                end in
              dtor <- emitSiblingMethodRef baseSelf dtorConstant subMap ;;
              createApply (forward (fst dtor)) subMap [baseSelf]
            else ret selfValue
        | None => ret selfValue
        end ;;
      inScope (
        borrowedValue <- borrowObjectRValue resultSelfValue Lexical ;;
        borrowedValue <-
          (if negb (SILType_eqb classTy (getType (getValue borrowedValue)))
           then createUncheckedRefCastManaged borrowedValue classTy
           else ret borrowedValue) ;;
        (* A distributed actor must invoke `actorSystem.resignID` as it
           deinits. *)
        when (isDistributedActor cd)
             (emitDistributedActorSystemResignIDCall cd (forBorrowedRValue selfValue)) ;;
        (* Release our members. *)
        emitClassMemberDestruction borrowedValue cd
      ) ;;
      resultSelfValue <-
        (if negb (SILType_eqb (getType resultSelfValue) objectPtrTy)
         then createUncheckedRefCast resultSelfValue objectPtrTy
         else ret resultSelfValue) ;;
      resultSelfValue <-
        (if negb (OwnershipKind_eqb (getOwnershipKind resultSelfValue) Owned) then
           assert (OwnershipKind_eqb (getOwnershipKind resultSelfValue) Guaranteed) ;;
           createUncheckedOwnershipConversion resultSelfValue Owned
         else ret resultSelfValue) ;;
      createReturn resultSelfValue
  end.

(** [emitDeallocatingClassDestructor]. *)
Definition emitDeallocatingClassDestructor (dd : DestructorDecl) (isIsolated : bool)
  : SILGen unit :=
  when (requiresUnavailableDeclABICompatibilityStubs dd)
       emitApplyOfUnavailableCodeReached ;;
  (* Emit the prolog. *)
  cd <- castClassDecl (getSelfNominalTypeDecl dd) ;;
  initialSelfValue <- emitSelfDeclForDestructor (getDeclaredInterfaceType cd) ;;
  emitDistributedRemoteActorDeinit initialSelfValue dd isIsolated (
    (* Form a reference to the destroying destructor. *)
    let dtorConstant := {| declRefName := className cd; declRefKind := Destroyer |} in
    let classTy := getType initialSelfValue in
    let subMap : option SubstitutionMap := None in
    dtor <- emitSiblingMethodRef initialSelfValue dtorConstant subMap ;;
    (* Call the destroying destructor. *)
    selfForDealloc <-
      inScope (
        borrowedSelf <- emitManagedBeginBorrow initialSelfValue ;;
        createApply (forward (fst dtor)) subMap [getUnmanagedValue borrowedSelf]
      ) ;;
    (* Balance out the +1 from the self argument using end_lifetime. *)
    createEndLifetime initialSelfValue ;;
    (* Deallocate the object. *)
    selfForDealloc <- createUncheckedRefCast selfForDealloc classTy ;;
    createDeallocRef selfForDealloc
  ).

(** [emitIsolatingDestructor]. *)
Definition emitIsolatingDestructor (dd : DestructorDecl) : SILGen unit :=
  (* Emit the prolog. *)
  cd <- castClassDecl (getSelfNominalTypeDecl dd) ;;
  selfValue <- emitSelfDeclForDestructor (getDeclaredInterfaceType cd) ;;
  (* Remote actor proxies don't need isolation
     Emit check for remote actor before performing isolation *)
  emitDistributedRemoteActorDeinit selfValue dd false (
    (* Form a reference to the destroying destructor. *)
    let dtorConstant :=
      {| declRefName := className cd; declRefKind := IsolatedDeallocator |} in
    let classTy := getType selfValue in
    let subMap : option SubstitutionMap := None in
    dtor <- emitSiblingMethodRef selfValue dtorConstant subMap ;;
    (* Get an executor *)
    let ai := ddIsolation dd in
    executor <-
      inScope (
        actor <- emitExecutor ai (forUnmanagedOwnedValue selfValue) ;;
        match actor with
        | Some a => createExtractExecutor a
        | None => fail
        end
      ) ;;
    (* Get deinitOnExecutor *)
    swiftDeinitOnExecutorFunc <-
      createFunctionRef {| declRefName := "swift_task_deinitOnExecutor";
                           declRefKind := Func |} ;;
    (* Cast self to AnyObject preserving owned ownership *)
    let selfType := getASTType (getType selfValue) in
    let anyObjectLoweredType := getLoweredType AnyObjectType in
    castedSelf <- createInitExistentialRef anyObjectLoweredType selfType selfValue ;;
    (* Cast isolated deallocator to (__owned AnyObject) -> Void *)
    let workFuncType := ObjectTy (FunctionType "(__owned AnyObject) -> ()") in
    let dtx := getValue (fst dtor) in
    castedDeallocator <- createConvertFunction dtx workFuncType ;;
    let wordTy := ObjectTy WordType in
    flagsInst <- createIntegerLiteral wordTy 0 ;;
    (* Schedule isolated execution *)
    _ <- createApply swiftDeinitOnExecutorFunc None
                     [castedSelf; castedDeallocator; executor; flagsInst] ;;
    ret tt
  ).

(** Running an emitter on a fresh function. *)
Definition emitFunction (conv : OwnershipKind) (prof : bool) (m : SILGen unit)
  : option (list Placed) :=
  match m (newFunction conv prof) with
  | Some (_, s) => Some (body s)
  | None => None
  end.

(* ================================================================== *)
(** * Listings of the member loops                                     *)
(* ================================================================== *)

(** The state after some more code has been emitted: counters and
    insertion point moved, the listing extended. *)
Definition emitted (s : SILGenFunction) (n nb : nat) (ip : option SILBasicBlock)
           (code : list Placed) : SILGenFunction :=
  {| selfConvention := selfConvention s; hasProfiler := hasProfiler s;
     ExpectedExecutor := ExpectedExecutor s; Cleanups := Cleanups s;
     nextInst := n; nextBlock := nb; insertionBB := ip;
     body := body s ++ code |}.

(** What [destroyClassMember] appends when it runs in block [bb] with [n]
    the next free instruction number. *)
Definition destroyClassMemberCode (bb : SILBasicBlock) (n : nat)
           (selfValue : ManagedValue) (D : VarDecl) : list Placed :=
  let ty := getAddressType (getLoweredType (getInterfaceType D)) in
  let fieldAddr :=
    SILInstResult n ty OwnershipNone (RefElementAddrInst (getValue selfValue) D) in
  let access :=
    SILInstResult (S n) ty OwnershipNone
      (BeginAccessInst fieldAddr AccessDeinit EnforcementStatic false false) in
  if negb (isTrivial (getInterfaceType D)) then
    [ {| placedBB := bb; placedId := n;
         placedInst := RefElementAddrInst (getValue selfValue) D |};
      {| placedBB := bb; placedId := S n;
         placedInst := BeginAccessInst fieldAddr AccessDeinit EnforcementStatic
                                       false false |};
      {| placedBB := bb; placedId := S (S n); placedInst := DestroyAddrInst access |};
      {| placedBB := bb; placedId := S (S (S n));
         placedInst := EndAccessInst access false |} ]
  else [].

(** What a loop [for (vd : props) { if (skip(vd)) continue;
    destroyClassMember(self, vd); }] appends. *)
Fixpoint membersCode (skip : VarDecl -> bool) (bb : SILBasicBlock) (n : nat)
         (selfValue : ManagedValue) (props : list VarDecl) : list Placed :=
  match props with
  | [] => []
  | vd :: props' =>
      let code := if skip vd then []
                  else destroyClassMemberCode bb n selfValue vd in
      code ++ membersCode skip bb (n + List.length code) selfValue props'
  end.

(** The test of the loop of the remote branch: isolated to the actor
    instance, or not one of the two well-known names. *)
Definition remoteSkips (vd : VarDecl) : bool :=
  ActorIsolation_eqb (varIsolation vd) ActorInstance
  || negb (String.eqb (getBaseIdentifier vd) Id_id
           || String.eqb (getBaseIdentifier vd) Id_actorSystem).

(** The field a [destroy_addr] works on, when its operand is the access
    opened on a stored field of an object. *)
Definition destroyedField (i : SILInstruction) : option VarDecl :=
  match i with
  | DestroyAddrInst
      (SILInstResult _ _ _
         (BeginAccessInst (SILInstResult _ _ _ (RefElementAddrInst _ f)) _ _ _ _)) =>
      Some f
  | _ => None
  end.

(** [SILInstructionKind]: an instruction without its operands. *)
Inductive SILInstructionKind : Type :=
| KUpcast | KUncheckedRefCast | KUncheckedOwnershipConversion
| KBeginBorrow | KEndBorrow | KEndLifetime | KDropDeinit | KDestroyValue
| KFunctionRef | KApply | KConvertFunction | KBuiltin
| KTuple | KIntegerLiteral | KOptionalNone | KInitExistentialRef
| KExtractExecutor | KUncheckedEnumData
| KAllocStack | KDeallocStack | KDeallocRef | KRefElementAddr
| KStructElementAddr | KUncheckedTakeEnumDataAddr | KBeginAccess | KEndAccess
| KLoad | KLoadBorrow | KStore | KDestroyAddr | KIsUnique
| KReturn | KBranch | KCondBranch | KSwitchEnumAddr
| KUserBody | KIncrementProfilerCounter | KUnavailableCodeReached
| KLoadActorExecutor | KPreconditionCheckExpectedExecutor | KHopToExecutor
| KDistributedIfRemoteBranch | KDistributedActorSystemResignIDCall.

Definition getKind (i : SILInstruction) : SILInstructionKind :=
  match i with
  | UpcastInst _ => KUpcast
  | UncheckedRefCastInst _ => KUncheckedRefCast
  | UncheckedOwnershipConversionInst _ _ => KUncheckedOwnershipConversion
  | BeginBorrowInst _ _ => KBeginBorrow
  | EndBorrowInst _ => KEndBorrow
  | EndLifetimeInst _ => KEndLifetime
  | DropDeinitInst _ => KDropDeinit
  | DestroyValueInst _ => KDestroyValue
  | FunctionRefInst _ => KFunctionRef
  | ApplyInst _ _ _ => KApply
  | ConvertFunctionInst _ => KConvertFunction
  | BuiltinInst _ _ => KBuiltin
  | TupleInst _ => KTuple
  | IntegerLiteralInst _ => KIntegerLiteral
  | OptionalNoneInst => KOptionalNone
  | InitExistentialRefInst _ _ => KInitExistentialRef
  | ExtractExecutorInst _ => KExtractExecutor
  | UncheckedEnumDataInst _ _ => KUncheckedEnumData
  | AllocStackInst => KAllocStack
  | DeallocStackInst _ => KDeallocStack
  | DeallocRefInst _ => KDeallocRef
  | RefElementAddrInst _ _ => KRefElementAddr
  | StructElementAddrInst _ _ => KStructElementAddr
  | UncheckedTakeEnumDataAddrInst _ _ => KUncheckedTakeEnumDataAddr
  | BeginAccessInst _ _ _ _ _ => KBeginAccess
  | EndAccessInst _ _ => KEndAccess
  | LoadInst _ _ => KLoad
  | LoadBorrowInst _ => KLoadBorrow
  | StoreInst _ _ _ => KStore
  | DestroyAddrInst _ => KDestroyAddr
  | IsUniqueInst _ => KIsUnique
  | ReturnInst _ => KReturn
  | BranchInst _ => KBranch
  | CondBranchInst _ _ _ => KCondBranch
  | SwitchEnumAddrInst _ _ _ => KSwitchEnumAddr
  | UserBodyStmt => KUserBody
  | IncrementProfilerCounter => KIncrementProfilerCounter
  | UnavailableCodeReached => KUnavailableCodeReached
  | LoadActorExecutor _ _ => KLoadActorExecutor
  | PreconditionCheckExpectedExecutor _ => KPreconditionCheckExpectedExecutor
  | HopToExecutorInst _ => KHopToExecutor
  | DistributedIfRemoteBranch _ _ _ => KDistributedIfRemoteBranch
  | DistributedActorSystemResignIDCall _ => KDistributedActorSystemResignIDCall
  end.

Scheme Equality for SILInstructionKind.

(** The kinds of the instructions of a listing, in order. *)
Definition kinds (l : list Placed) : list SILInstructionKind :=
  map (fun p => getKind (placedInst p)) l.

(** Number of instructions of a given kind. *)
Definition countKind (k : SILInstructionKind) (l : list SILInstructionKind) : nat :=
  count_occ SILInstructionKind_eq_dec l k.

(** Position of the first instruction of a given kind. *)
Fixpoint indexOfKind (k : SILInstructionKind) (l : list SILInstructionKind)
  : option nat :=
  match l with
  | [] => None
  | x :: l' =>
      if SILInstructionKind_beq x k then Some 0
      else option_map S (indexOfKind k l')
  end.

Definition isDestroyDefaultActor (i : SILInstruction) : bool :=
  match i with BuiltinInst "destroyDefaultActor" _ => true | _ => false end.

Definition place (bb : SILBasicBlock) (n : nat) (i : SILInstruction) : Placed :=
  {| placedBB := bb; placedId := n; placedInst := i |}.

(** A builder state that has emitted nothing yet and stands in block [bb],
    with [n] and [nb] the next free instruction and block numbers. *)
Definition standingAt (bb : SILBasicBlock) (n nb : nat) : SILGenFunction :=
  {| selfConvention := Guaranteed; hasProfiler := false;
     ExpectedExecutor := ExecutorUnset; Cleanups := [];
     nextInst := n; nextBlock := nb; insertionBB := Some bb; body := [] |}.

(** What an emitter appends when it starts in block [bb] with the counters
    at [n] and [nb]. *)
Definition codeOf (m : SILGen unit) (bb : SILBasicBlock) (n nb : nat) : list Placed :=
  match m (standingAt bb n nb) with
  | Some (_, s) => body s
  | None => []
  end.

(** The listing of [emitRecursiveChainDestruction]. *)
Definition chainCode (bb : SILBasicBlock) (n nb : nat) (selfValue : ManagedValue)
           (cd : ClassDecl) (recursiveLink : VarDecl) : list Placed :=
  codeOf (emitRecursiveChainDestruction selfValue cd recursiveLink) bb n nb.

(** The listing of [emitClassMemberDestruction]: the member loop, the
    chain loop when there is a recursive link, the teardown of the default
    actor when the class is a root default actor. *)
Definition classMemberCode (bb : SILBasicBlock) (n nb : nat) (selfValue : ManagedValue)
           (cd : ClassDecl) : list Placed :=
  let links := findRecursiveLinks cd [] in
  let members :=
    membersCode (setVectorContains links) bb n selfValue (getStoredProperties cd) in
  let n1 := n + List.length members in
  let chain :=
    match links with
    | [] => []
    | link0 :: _ => chainCode bb n1 nb selfValue cd link0
    end in
  let bb1 := match links with [] => bb | _ :: _ => nb end in
  let n2 := n1 + List.length chain in
  let actor :=
    if isRootDefaultActor cd
    then [place bb1 n2 (BuiltinInst "destroyDefaultActor" [getValue selfValue])]
    else [] in
  members ++ chain ++ actor.

(** Whether the destroying destructor calls the destructor of the
    superclass: there is a superclass and the class is not a native
    [NSObject] subclass. *)
Definition callsSuperclassDestructor (cd : ClassDecl) : bool :=
  hasSuperclass cd && negb (isNativeNSObjectSubclass cd).

(** Whether an isolation requirement comes with an executor. *)
Definition hasExecutor (ai : ActorIsolation) : bool :=
  match ai with
  | ActorInstance | GlobalActor _ => true
  | Unspecified | Nonisolated => false
  end.

(** The kinds of the instructions of the destroying destructor that come
    before the user body ... *)
Definition destroyingPrologKinds (dd : DestructorDecl) (prof : bool)
  : list SILInstructionKind :=
  (if requiresUnavailableDeclABICompatibilityStubs dd
   then [KUnavailableCodeReached] else [])
  ++ (if hasExecutor (ddIsolation dd)
      then [KLoadActorExecutor; KPreconditionCheckExpectedExecutor] else [])
  ++ (if prof then [KIncrementProfilerCounter] else []).

(** ... up to the member destruction ... *)
Definition destroyingHeadKinds (dd : DestructorDecl) (cd : ClassDecl) (prof : bool)
  : list SILInstructionKind :=
  destroyingPrologKinds dd prof
  ++ [KUserBody]
  ++ (if callsSuperclassDestructor cd
      then [KUpcast; KFunctionRef; KApply; KBeginBorrow; KUncheckedRefCast] else [])
  ++ (if isDistributedActor cd then [KDistributedActorSystemResignIDCall] else []).

(** ... and after it. *)
Definition destroyingTailKinds (cd : ClassDecl) : list SILInstructionKind :=
  (if callsSuperclassDestructor cd then [KEndBorrow]
   else [KUncheckedRefCast; KUncheckedOwnershipConversion])
  ++ [KReturn].

(** The self argument of a destructor of class [cd]. *)
Definition selfArgument (cd : ClassDecl) (conv : OwnershipKind) : SILValue :=
  SILFunctionArgument 0 (ObjectTy (getDeclaredInterfaceType cd)) conv.

(** The call of the destroying destructor of the superclass on self,
    upcast to the superclass. *)
Definition isSuperclassDestructorCall (cd : ClassDecl) (conv : OwnershipKind)
           (i : SILInstruction) : Prop :=
  exists superclass n1 n2 subs,
    getSuperclass cd = Some superclass /\
    i = ApplyInst
          (SILInstResult n1 (ObjectTy (FunctionType (superclassName superclass)))
             OwnershipNone
             (FunctionRefInst {| declRefName := superclassName superclass;
                                 declRefKind := Destroyer |}))
          subs
          [SILInstResult n2 (ObjectTy (ClassType (superclassName superclass))) conv
             (UpcastInst (selfArgument cd conv))].

(** The borrow of a value opened by [emitManagedBeginBorrow] as
    instruction number [n]. *)
Definition borrowOf (n : nat) (v : SILValue) : SILValue :=
  SILInstResult n (getType v) Guaranteed (BeginBorrowInst v false).

(** The local deinit of [emitDeallocatingClassDestructor], emitted in
    block [bb] from instruction number [n] on. *)
Definition deallocatingLocalCode (bb : SILBasicBlock) (n : nat) (selfValue : SILValue)
           (cd : ClassDecl) : list Placed :=
  let dtorConstant := {| declRefName := className cd; declRefKind := Destroyer |} in
  let dtorValue :=
    SILInstResult n (ObjectTy (FunctionType (className cd))) OwnershipNone
                  (FunctionRefInst dtorConstant) in
  let borrowedSelf := borrowOf (S n) selfValue in
  let selfForDealloc :=
    SILInstResult (S (S n)) getNativeObjectType Owned
                  (ApplyInst dtorValue None [borrowedSelf]) in
  let casted :=
    SILInstResult (S (S (S (S (S n))))) (getType selfValue) Owned
                  (UncheckedRefCastInst selfForDealloc) in
  [place bb n (FunctionRefInst dtorConstant);
   place bb (S n) (BeginBorrowInst selfValue false);
   place bb (S (S n)) (ApplyInst dtorValue None [borrowedSelf]);
   place bb (S (S (S n))) (EndBorrowInst borrowedSelf);
   place bb (S (S (S (S n)))) (EndLifetimeInst selfValue);
   place bb (S (S (S (S (S n))))) (UncheckedRefCastInst selfForDealloc);
   place bb (S (S (S (S (S (S n)))))) (DeallocRefInst casted)].

(** The empty tuple built as instruction number [n]. *)
Definition emptyTupleAt (n : nat) : SILValue :=
  SILInstResult n (ObjectTy EmptyTupleType) OwnershipNone (TupleInst []).

(* ================================================================== *)
(** * Control flow of the emitted code                                 *)
(* ================================================================== *)

(** What is known at run time when a destructor executes: whether the
    instance is a remote proxy, and the case a value of enum type holds. *)
Record RuntimeFacts : Type := {
  isRemoteProxy : bool;
  enumCase : EnumElementDecl
}.

Definition EnumElementDecl_eqb (a b : EnumElementDecl) : bool :=
  String.eqb (elementName a) (elementName b)
  && Bool.eqb (hasAssociatedValues a) (hasAssociatedValues b).

(** The destination of [switch_enum_addr] for a case. *)
Fixpoint switchDest (e : EnumElementDecl) (defaultBB : option SILBasicBlock)
         (cases : list (EnumElementDecl * SILBasicBlock)) : option SILBasicBlock :=
  match cases with
  | [] => defaultBB
  | (e', bb) :: cases' =>
      if EnumElementDecl_eqb e e' then Some bb else switchDest e defaultBB cases'
  end.

(** Where control goes after an instruction. *)
Inductive Transfer : Type :=
| FallThrough                      (* not a terminator *)
| Exit                             (* return *)
| Goto (bb : SILBasicBlock)
| Stuck.                           (* depends on values not in the facts *)

Definition transfer (facts : RuntimeFacts) (i : SILInstruction) : Transfer :=
  match i with
  | ReturnInst _ => Exit
  | BranchInst bb => Goto bb
  | DistributedIfRemoteBranch _ remoteBB localBB =>
      Goto (if isRemoteProxy facts then remoteBB else localBB)
  | SwitchEnumAddrInst _ defaultBB cases =>
      match switchDest (enumCase facts) defaultBB cases with
      | Some bb => Goto bb
      | None => Stuck
      end
  | CondBranchInst _ _ _ => Stuck
  | _ => FallThrough
  end.

(** The instructions executed from the start of block [bb] on, under the
    given facts: each block runs from its first instruction to its
    terminator, which names the next block.  A block without terminator is
    where the emitter goes on, and the path ends there. *)
Fixpoint executedFrom (fuel : nat) (facts : RuntimeFacts) (code : list Placed)
         (bb : SILBasicBlock) : option (list SILInstruction) :=
  match fuel with
  | 0 => None
  | S fuel' =>
      let insts := blockInsts bb code in
      match transfer facts (last insts (TupleInst [])) with
      | FallThrough | Exit => Some insts
      | Goto bb' =>
          match executedFrom fuel' facts code bb' with
          | Some rest => Some (insts ++ rest)
          | None => None
          end
      | Stuck => None
      end
  end.

(** The blocks an instruction can branch to. *)
Definition successors (i : SILInstruction) : list SILBasicBlock :=
  match i with
  | BranchInst bb => [bb]
  | CondBranchInst _ t f => [t; f]
  | SwitchEnumAddrInst _ d cases =>
      match d with Some bb => [bb] | None => [] end ++ map snd cases
  | DistributedIfRemoteBranch _ r l => [r; l]
  | _ => []
  end.

(** [v] is the result of instruction [i]. *)
Definition definedBy (v : SILValue) (i : SILInstruction) : Prop :=
  exists n ty o, v = SILInstResult n ty o i.

(** The check that execution is on the executor computed for the
    isolation of the destructor. *)
Definition isExpectedExecutorCheck (dd : DestructorDecl) (cd : ClassDecl)
           (conv : OwnershipKind) (i : SILInstruction) : Prop :=
  exists executor,
    i = PreconditionCheckExpectedExecutor executor /\
    definedBy executor (LoadActorExecutor (ddIsolation dd) (selfArgument cd conv)).

(** The kinds of instructions member destruction is made of. *)
Definition memberDestructionKinds : list SILInstructionKind :=
  [KRefElementAddr; KBeginAccess; KDestroyAddr; KEndAccess;
   KOptionalNone; KAllocStack; KLoad; KStore; KBranch; KSwitchEnumAddr;
   KIsUnique; KCondBranch; KLoadBorrow; KUncheckedEnumData; KEndBorrow;
   KDeallocStack; KBuiltin].

(* ================================================================== *)
(** * Listing of the enum case blocks                                  *)
(* ================================================================== *)

(** The payload of case [elt] taken out of the enum at [subject], as
    instruction number [n]. *)
Definition takenPayload (n : nat) (subject : SILValue) (elt : EnumElementDecl)
  : SILValue :=
  SILInstResult n (getType subject) OwnershipNone
                (UncheckedTakeEnumDataAddrInst subject elt).

(** The block of one case: the payload, if there is one, is taken out and
    destroyed; then the branch to the continuation block. *)
Definition caseBlockCode (contBlock enumBlock : SILBasicBlock) (n : nat)
           (subject : SILValue) (elt : EnumElementDecl) : list Placed :=
  if hasAssociatedValues elt then
    [place enumBlock n (UncheckedTakeEnumDataAddrInst subject elt);
     place enumBlock (S n) (DestroyAddrInst (takenPayload n subject elt));
     place enumBlock (S (S n)) (BranchInst contBlock)]
  else
    [place enumBlock n (BranchInst contBlock)].

(** The blocks of the cases [elts], numbered from [enumBlock] on. *)
Fixpoint enumCasesCode (contBlock enumBlock : SILBasicBlock) (n : nat)
         (subject : SILValue) (elts : list EnumElementDecl) : list Placed :=
  match elts with
  | [] => []
  | elt :: elts' =>
      caseBlockCode contBlock enumBlock n subject elt
      ++ enumCasesCode contBlock (S enumBlock)
           (n + List.length (caseBlockCode contBlock enumBlock n subject elt))
           subject elts'
  end.

(** The case table handed to [switch_enum_addr]. *)
Fixpoint caseTable (enumBlock : SILBasicBlock) (elts : list EnumElementDecl)
  : list (EnumElementDecl * SILBasicBlock) :=
  match elts with
  | [] => []
  | elt :: elts' => (elt, enumBlock) :: caseTable (S enumBlock) elts'
  end.

(** The instructions executed in the block of case [elt]. *)
Definition caseBlockInsts (contBlock : SILBasicBlock) (subject take : SILValue)
           (elt : EnumElementDecl) : list SILInstruction :=
  (if hasAssociatedValues elt
   then [UncheckedTakeEnumDataAddrInst subject elt; DestroyAddrInst take]
   else [])
  ++ [BranchInst contBlock].

(** The payload case an instruction takes out, if it is an
    [unchecked_take_enum_data_addr]. *)
Definition takenCase (i : SILInstruction) : option EnumElementDecl :=
  match i with
  | UncheckedTakeEnumDataAddrInst _ elt => Some elt
  | _ => None
  end.

(** The loop over the cases, as it is written in the emitter. *)
Definition enumCaseStep (selfValue : SILValue) (contBlock : SILBasicBlock)
           (acc : SILGen (list (EnumElementDecl * SILBasicBlock)))
           (enumElt : EnumElementDecl)
  : SILGen (list (EnumElementDecl * SILBasicBlock)) :=
  caseCleanups <- acc ;;
  enumBlock <- createBasicBlock ;;
  (if hasAssociatedValues enumElt then
     take <- insertValueIn enumBlock (getType selfValue) OwnershipNone
               (UncheckedTakeEnumDataAddrInst selfValue enumElt) ;;
     insertIn enumBlock (DestroyAddrInst take)
   else ret tt) ;;
  insertIn enumBlock (BranchInst contBlock) ;;
  setInsertionPoint enumBlock ;;
  ret (caseCleanups ++ [(enumElt, enumBlock)]).

(** Where the builder stands after the loop over the cases: in the block
    of the last case, or where it stood if there is no case. *)
Fixpoint caseInsertion (ip : option SILBasicBlock) (enumBlock : SILBasicBlock)
         (elts : list EnumElementDecl) : option SILBasicBlock :=
  match elts with
  | [] => ip
  | _ :: elts' => caseInsertion (Some enumBlock) (S enumBlock) elts'
  end.

(** The value the switch works on: self if it is the result of a
    [drop_deinit] already, the [drop_deinit] of self emitted as
    instruction number [n] otherwise. *)
Definition droppedSelf (n : nat) (selfValue : SILValue) : SILValue :=
  if isaDropDeinitInst selfValue then selfValue
  else SILInstResult n (getType selfValue)
                     (addressOwnership (getType selfValue) Owned)
                     (DropDeinitInst selfValue).

(* ================================================================== *)
(** * Sample declarations                                              *)
(* ================================================================== *)

Definition sampleField (name : string) (ty : CanType) (iso : ActorIsolation) : VarDecl :=
  {| getBaseIdentifier := name; getInterfaceType := ty; varIsolation := iso |}.

Definition sampleDestructor (cd : ClassDecl) (iso : ActorIsolation) : DestructorDecl :=
  {| getSelfNominalTypeDecl := NominalClass cd; isImplicit := false;
     ddIsolation := iso; requiresUnavailableDeclABICompatibilityStubs := false;
     bodyFallsThrough := true |}.

(** [class Node { let elem: String; let next: Node? }] *)
Definition NodeClass : ClassDecl :=
  {| className := "Node";
     getStoredProperties :=
       [sampleField "elem" (OtherType "String" false) Unspecified;
        sampleField "next" (OptionalType (ClassType "Node")) Unspecified];
     getSuperclass := None; isNativeNSObjectSubclass := false;
     isDistributedActor := false; isRootDefaultActor := false |}.

(** [class Tree { let left: Tree?; let right: Tree? }] *)
Definition TreeClass : ClassDecl :=
  {| className := "Tree";
     getStoredProperties :=
       [sampleField "left" (OptionalType (ClassType "Tree")) Unspecified;
        sampleField "right" (OptionalType (ClassType "Tree")) Unspecified];
     getSuperclass := None; isNativeNSObjectSubclass := false;
     isDistributedActor := false; isRootDefaultActor := false |}.

(** A distributed actor with its two well-known fields, an isolated field
    that happens to be named [id] too, and ordinary state. *)
Definition WorkerActor : ClassDecl :=
  {| className := "Worker";
     getStoredProperties :=
       [sampleField "id" (OtherType "ActorID" false) Nonisolated;
        sampleField "actorSystem" (OtherType "ActorSystem" false) Nonisolated;
        sampleField "id" (OtherType "String" false) ActorInstance;
        sampleField "jobs" (OtherType "Array<Job>" false) ActorInstance;
        sampleField "name" (OtherType "String" false) Nonisolated];
     getSuperclass := None; isNativeNSObjectSubclass := false;
     isDistributedActor := true; isRootDefaultActor := true |}.

(** A distributed actor class with a native superclass. *)
Definition SubActor : ClassDecl :=
  {| className := "Sub";
     getStoredProperties :=
       [sampleField "id" (OtherType "ActorID" false) Nonisolated;
        sampleField "actorSystem" (OtherType "ActorSystem" false) Nonisolated];
     getSuperclass :=
       Some {| superclassName := "Base"; getContextSubstitutionMap := None |};
     isNativeNSObjectSubclass := false;
     isDistributedActor := true; isRootDefaultActor := false |}.

(** [actor Logger: NSObject { var lines: [String] }] *)
Definition NSObjectActor : ClassDecl :=
  {| className := "Logger";
     getStoredProperties :=
       [sampleField "lines" (OtherType "Array<String>" false) ActorInstance];
     getSuperclass :=
       Some {| superclassName := "NSObject"; getContextSubstitutionMap := None |};
     isNativeNSObjectSubclass := true;
     isDistributedActor := false; isRootDefaultActor := true |}.

(** [enum Resource: ~Copyable { case file(Handle); case closed; case socket(Socket) }] *)
Definition ResourceEnum : EnumDecl :=
  {| enumName := "Resource";
     getAllElements :=
       [{| elementName := "file"; hasAssociatedValues := true |};
        {| elementName := "closed"; hasAssociatedValues := false |};
        {| elementName := "socket"; hasAssociatedValues := true |}] |}.

(** Self of a value-type deinit, stored into a temporary. *)
Definition resourceSelf : SILValue :=
  SILFunctionArgument 0 (AddressTy (OtherType "Resource" false)) OwnershipNone.

(* ================================================================== *)
(** * The ivar destroyer                                               *)
(* ================================================================== *)

(** Modelled from the spec: [emitManagedBorrowedRValueWithCleanup] is not
    in this file.  It manages a value that is already borrowed and
    registers the end of the borrow as a cleanup of the enclosing scope
    (the comment at its call: [end_borrow %guaranteedSelf]). *)
Definition emitManagedBorrowedRValueWithCleanup (v : SILValue) : SILGen ManagedValue :=
  pushCleanup (EndBorrowInst v) ;;
  ret {| getValue := v; hasCleanup := true |}.

(** Modelled from the spec: [emitEpilog] is not in this file.  It emits
    the epilog block set aside by [prepareEpilog] when something branches
    to it; after the return of the ivar destroyer nothing does. *)
Definition emitEpilog : SILGen unit := ret tt.

(** [emitIVarDestroyer], for the class [cd] of the ivar destroyer. *)
Definition emitIVarDestroyer (cd : ClassDecl) : SILGen unit :=
  rawSelfValue <- emitSelfDeclForDestructor (getDeclaredInterfaceType cd) ;;
  let selfValue :=
    if OwnershipKind_eqb (getOwnershipKind rawSelfValue) Unowned
    then forUnownedObjectValue rawSelfValue
    else forBorrowedRValue rawSelfValue in
  prepareEpilog ;;
  inScope (
    (* Self is effectively guaranteed for the duration of any destructor.
       For ObjC classes, self may be unowned. A conversion to guaranteed is
       required to access its members. *)
    selfValue <-
      (if negb (OwnershipKind_eqb (getOwnershipKind (getValue selfValue)) Guaranteed)
       then
         guaranteedSelf <-
           createUncheckedOwnershipConversion (forward selfValue) Guaranteed ;;
         emitManagedBorrowedRValueWithCleanup guaranteedSelf
       else ret selfValue) ;;
    emitClassMemberDestruction selfValue cd
  ) ;;
  t <- emitEmptyTuple ;;
  createReturn t ;;
  emitEpilog.

(* ================================================================== *)
(** * Reading the listings                                             *)
(* ================================================================== *)

(** Whether an instruction is the [destroy_addr] of the stored field [vd]
    of an object, and how many of them a listing holds. *)
Definition destroysField (vd : VarDecl) (i : SILInstruction) : bool :=
  match destroyedField i with
  | Some f => VarDecl_eqb f vd
  | None => false
  end.

Definition countDestroyed (vd : VarDecl) (l : list Placed) : nat :=
  List.length (filter (fun p => destroysField vd (placedInst p)) l).

(** The stored field of a struct that a [destroy_addr] works on, with the
    struct it is projected from. *)
Definition destroyedStructField (i : SILInstruction) : option (SILValue * VarDecl) :=
  match i with
  | DestroyAddrInst
      (SILInstResult _ _ _
         (BeginAccessInst (SILInstResult _ _ _ (StructElementAddrInst base f))
                          AccessDeinit EnforcementStatic false false)) =>
      Some (base, f)
  | _ => None
  end.

Definition isDestroyAddr (i : SILInstruction) : bool :=
  match i with DestroyAddrInst _ => true | _ => false end.

(** What the loop over the stored properties of a struct appends. *)
Definition destroyStructMemberCode (bb : SILBasicBlock) (n : nat)
           (selfValue : SILValue) (vd : VarDecl) : list Placed :=
  let ty := getAddressType (getLoweredType (getInterfaceType vd)) in
  let fieldAddr :=
    SILInstResult n ty OwnershipNone (StructElementAddrInst selfValue vd) in
  let access :=
    SILInstResult (S n) ty OwnershipNone
      (BeginAccessInst fieldAddr AccessDeinit EnforcementStatic false false) in
  if isTrivial (getInterfaceType vd) then []
  else
    [place bb n (StructElementAddrInst selfValue vd);
     place bb (S n) (BeginAccessInst fieldAddr AccessDeinit EnforcementStatic
                                     false false);
     place bb (S (S n)) (DestroyAddrInst access);
     place bb (S (S (S n))) (EndAccessInst access false)].

Fixpoint structMembersCode (bb : SILBasicBlock) (n : nat) (selfValue : SILValue)
         (props : list VarDecl) : list Placed :=
  match props with
  | [] => []
  | vd :: props' =>
      let code := destroyStructMemberCode bb n selfValue vd in
      code ++ structMembersCode bb (n + List.length code) selfValue props'
  end.

(** The non-trivial ones among stored properties. *)
Definition nonTrivialProperties (props : list VarDecl) : list VarDecl :=
  filter (fun vd => negb (isTrivial (getInterfaceType vd))) props.

(** A terminator ends a block. *)
Definition isTerminator (i : SILInstruction) : bool :=
  match i with
  | ReturnInst _ | BranchInst _ | CondBranchInst _ _ _ | SwitchEnumAddrInst _ _ _
  | DistributedIfRemoteBranch _ _ _ => true
  | _ => false
  end.

(** A block is closed when its last instruction is its only terminator. *)
Definition closedBlock (insts : list SILInstruction) : bool :=
  match rev insts with
  | [] => false
  | t :: before => isTerminator t && forallb (fun i => negb (isTerminator i)) before
  end.

(** [struct Handle: ~Copyable { let fd: Int32; var buffer: Buffer; let owner: Owner }] *)
Definition HandleStruct : StructDecl :=
  {| structName := "Handle";
     structStoredProperties :=
       [sampleField "fd" (OtherType "Int32" true) Unspecified;
        sampleField "buffer" (OtherType "Buffer" false) Unspecified;
        sampleField "owner" (ClassType "Owner") Unspecified] |}.

(** Self of a value-type deinit, stored into a temporary. *)
Definition handleSelf : SILValue :=
  SILFunctionArgument 0 (AddressTy (OtherType "Handle" false)) OwnershipNone.

(** The block in which the code after the member destruction goes on:
    the block it started in, or the block where the chain loop ends. *)
Definition memberExitBB (cd : ClassDecl) (bb nb : SILBasicBlock) : SILBasicBlock :=
  match findRecursiveLinks cd [] with [] => bb | _ :: _ => nb end.

(** The local deinit of [emitIsolatingDestructor], emitted in block [bb]
    from instruction number [n] on: the isolated deallocator, the executor
    of the isolation [ai], [swift_task_deinitOnExecutor], self as
    [AnyObject], the deallocator as a function of [AnyObject], the flags,
    and the call that schedules the deallocator on the executor. *)
Definition isolatingLocalCode (bb : SILBasicBlock) (n : nat) (selfValue : SILValue)
           (cd : ClassDecl) (ai : ActorIsolation) : list Placed :=
  let dtorConstant :=
    {| declRefName := className cd; declRefKind := IsolatedDeallocator |} in
  let dtorValue :=
    SILInstResult n (ObjectTy (FunctionType (className cd))) OwnershipNone
                  (FunctionRefInst dtorConstant) in
  let actor :=
    SILInstResult (1 + n) (ObjectTy ExecutorType) Guaranteed
                  (LoadActorExecutor ai selfValue) in
  let executor :=
    SILInstResult (2 + n) (ObjectTy ExecutorType) OwnershipNone
                  (ExtractExecutorInst actor) in
  let onExecutor :=
    {| declRefName := "swift_task_deinitOnExecutor"; declRefKind := Func |} in
  let swiftDeinitOnExecutorFunc :=
    SILInstResult (3 + n) (ObjectTy (FunctionType "swift_task_deinitOnExecutor"))
                  OwnershipNone (FunctionRefInst onExecutor) in
  let castedSelf :=
    SILInstResult (4 + n) (ObjectTy AnyObjectType) (getOwnershipKind selfValue)
                  (InitExistentialRefInst selfValue (getASTType (getType selfValue))) in
  let castedDeallocator :=
    SILInstResult (5 + n) (ObjectTy (FunctionType "(__owned AnyObject) -> ()"))
                  OwnershipNone (ConvertFunctionInst dtorValue) in
  let flagsInst :=
    SILInstResult (6 + n) (ObjectTy WordType) OwnershipNone (IntegerLiteralInst 0) in
  [place bb n (FunctionRefInst dtorConstant);
   place bb (1 + n) (LoadActorExecutor ai selfValue);
   place bb (2 + n) (ExtractExecutorInst actor);
   place bb (3 + n) (FunctionRefInst onExecutor);
   place bb (4 + n)
         (InitExistentialRefInst selfValue (getASTType (getType selfValue)));
   place bb (5 + n) (ConvertFunctionInst dtorValue);
   place bb (6 + n) (IntegerLiteralInst 0);
   place bb (7 + n)
         (ApplyInst swiftDeinitOnExecutorFunc None
                    [castedSelf; castedDeallocator; executor; flagsInst])].

(** Whether control takes the remote branch of the wrapper: the instance
    is a remote proxy and the wrapper has emitted the test. *)
Definition takesRemoteBranch (cd : ClassDecl) (isIsolated remote : bool) : bool :=
  remote && isDistributedActor cd && negb isIsolated.

(** The kinds of the instructions that the wrapper
    [emitDistributedRemoteActorDeinit] puts around a local deinit of kinds
    [localKinds], with [members] the code of its member loop. *)
Definition remoteWrapperKinds (cd : ClassDecl) (isIsolated : bool)
           (members : list Placed) (localKinds : list SILInstructionKind)
  : list SILInstructionKind :=
  if isIsolated || negb (isDistributedActor cd) then
    localKinds ++ [KTuple; KReturn]
  else
    [KDistributedIfRemoteBranch; KBeginBorrow]
    ++ kinds members
    ++ (if isRootDefaultActor cd then [KBuiltin] else [])
    ++ [KEndBorrow; KDeallocRef; KBranch]
    ++ localKinds
    ++ [KBranch; KTuple; KReturn].

Definition deallocatingLocalKinds : list SILInstructionKind :=
  [KFunctionRef; KBeginBorrow; KApply; KEndBorrow; KEndLifetime;
   KUncheckedRefCast; KDeallocRef].

Definition isolatingLocalKinds : list SILInstructionKind :=
  [KFunctionRef; KLoadActorExecutor; KExtractExecutor; KFunctionRef;
   KInitExistentialRef; KConvertFunction; KIntegerLiteral; KApply].

Definition noTerminators (insts : list SILInstruction) : bool :=
  forallb (fun i => negb (isTerminator i)) insts.

(** An instruction sits in one of the first [nblocks] blocks and branches
    only to those. *)
Definition withinBlocks (nblocks : nat) (p : Placed) : bool :=
  Nat.ltb (placedBB p) nblocks
  && forallb (fun b => Nat.ltb b nblocks) (successors (placedInst p)).

(** The control-flow graph of a function of [nblocks] blocks is well
    formed: every block is closed by its one terminator and every
    instruction is within the blocks. *)
Definition wellFormedBlocks (nblocks : nat) (l : list Placed) : Prop :=
  (forall bb, bb < nblocks -> closedBlock (blockInsts bb l) = true) /\
  forallb (withinBlocks nblocks) l = true.

(** Code in the making: every block but [exitBB], where the emitter goes
    on, is closed. *)
Definition openAt (exitBB : SILBasicBlock) (nblocks : nat) (l : list Placed) : Prop :=
  (forall bb, bb < nblocks -> bb <> exitBB -> closedBlock (blockInsts bb l) = true) /\
  noTerminators (blockInsts exitBB l) = true /\
  forallb (withinBlocks nblocks) l = true.

(** The number of blocks of a function that holds the member destruction
    of the class and no other branch. *)
Definition memberBlocks (cd : ClassDecl) : nat :=
  match findRecursiveLinks cd [] with [] => 1 | _ :: _ => 7 end.

(** The number of blocks of a function made by the wrapper
    [emitDistributedRemoteActorDeinit]. *)
Definition wrapperBlocks (cd : ClassDecl) (isIsolated : bool) : nat :=
  if isIsolated || negb (isDistributedActor cd) then 1 else 4.

(** The substitutions that the call of the superclass destructor carries:
    those of the superclass in the context of the class, dropped when
    every generic parameter is concrete. *)
Definition superclassCallSubstitutions (superclass : SuperclassRef)
  : option SubstitutionMap :=
  match getContextSubstitutionMap superclass with
  | Some m => if areAllParamsConcrete m then None else Some m
  | None => None
  end.

(** The stored properties that a member loop destroys. *)
Definition destroyedByLoop (skip : VarDecl -> bool) (props : list VarDecl)
  : list VarDecl :=
  filter (fun vd => negb (skip vd) && negb (isTrivial (getInterfaceType vd))) props.

(** The four instructions that destroy the stored field [vd] of [self] in
    place: the address of the field, a static [deinit] access on it, the
    [destroy_addr] of the access and its end. *)
Definition destroysInPlace (self : SILValue) (vd : VarDecl)
           (l : list SILInstruction) : Prop :=
  exists before fieldAddr access after,
    definedBy fieldAddr (RefElementAddrInst self vd) /\
    definedBy access
      (BeginAccessInst fieldAddr AccessDeinit EnforcementStatic false false) /\
    l = before
        ++ [RefElementAddrInst self vd;
            BeginAccessInst fieldAddr AccessDeinit EnforcementStatic false false;
            DestroyAddrInst access;
            EndAccessInst access false]
        ++ after.


(* ================================================================== *)
(** * Properties                                                       *)
(* ================================================================== *)

(** ** Equality tests decide equality *)

Lemma ActorIsolation_eqb_eq a b : ActorIsolation_eqb a b = true <-> a = b.
Proof.
  destruct a, b; simpl; split; intro H; try reflexivity; try discriminate.
  - apply String.eqb_eq in H. now subst.
  - inversion H. apply String.eqb_refl.
Qed.

Lemma CanType_eqb_eq a b : CanType_eqb a b = true <-> a = b.
Proof.
  revert b. induction a; destruct b; simpl; split; intro H;
    try reflexivity; try discriminate.
  - apply String.eqb_eq in H. now subst.
  - inversion H. apply String.eqb_refl.
  - apply IHa in H. now subst.
  - inversion H; subst. now apply (IHa b).
  - apply String.eqb_eq in H. now subst.
  - inversion H. apply String.eqb_refl.
  - apply andb_true_iff in H. destruct H as [H1 H2].
    apply String.eqb_eq in H1. apply Bool.eqb_prop in H2. now subst.
  - inversion H. rewrite String.eqb_refl. simpl. apply Bool.eqb_reflx.
Qed.

Lemma SILType_eqb_eq a b : SILType_eqb a b = true <-> a = b.
Proof.
  destruct a, b; simpl; split; intro H; try discriminate.
  - apply CanType_eqb_eq in H. now subst.
  - inversion H. now apply CanType_eqb_eq.
  - apply CanType_eqb_eq in H. now subst.
  - inversion H. now apply CanType_eqb_eq.
Qed.

Lemma VarDecl_eqb_eq a b : VarDecl_eqb a b = true <-> a = b.
Proof.
  unfold VarDecl_eqb. destruct a as [n1 t1 i1], b as [n2 t2 i2]. simpl. split.
  - intro H. apply andb_true_iff in H. destruct H as [H H3].
    apply andb_true_iff in H. destruct H as [H1 H2].
    apply String.eqb_eq in H1. apply CanType_eqb_eq in H2.
    apply ActorIsolation_eqb_eq in H3. now subst.
  - intro H. inversion H. subst.
    rewrite String.eqb_refl. simpl.
    rewrite (proj2 (CanType_eqb_eq t2 t2) eq_refl). simpl.
    now apply ActorIsolation_eqb_eq.
Qed.

Lemma setVectorContains_In result vd :
  setVectorContains result vd = true <-> In vd result.
Proof.
  unfold setVectorContains. rewrite existsb_exists. split.
  - intros (x & Hin & Heq). apply VarDecl_eqb_eq in Heq. now subst.
  - intro Hin. exists vd. split; [assumption | now apply VarDecl_eqb_eq].
Qed.

Lemma setVectorContains_nil vd : setVectorContains [] vd = false.
Proof. reflexivity. Qed.

(** ** The scan of [findRecursiveLinks] *)

Section RecursiveLinkScan.

Variable cd : ClassDecl.

Let step (result : list VarDecl) (vd : VarDecl) : list VarDecl :=
  if isRecursiveLink cd vd then setVectorInsert result vd else result.

(** Properties that do not qualify leave the set alone. *)
Lemma scan_no_link props acc :
  filter (isRecursiveLink cd) props = [] ->
  fold_left step props acc = acc.
Proof.
  revert acc. induction props as [|vd props IH]; intros acc H; simpl in *.
  - reflexivity.
  - unfold step at 2. destruct (isRecursiveLink cd vd).
    + discriminate.
    + now apply IH.
Qed.

(** A single qualifying property ends up alone in the set. *)
Lemma scan_one_link props vd :
  filter (isRecursiveLink cd) props = [vd] ->
  fold_left step props [] = [vd].
Proof.
  induction props as [|x props IH]; intro H; simpl in *.
  - discriminate.
  - unfold step at 2. destruct (isRecursiveLink cd x) eqn:Hx.
    + injection H as Hhd Htl. subst x.
      rewrite scan_no_link by assumption. reflexivity.
    + now apply IH.
Qed.

(** On distinct declarations the set is the list of the qualifying
    properties, in declaration order. *)
Lemma scan_distinct props acc :
  NoDup props ->
  (forall x, In x props -> ~ In x acc) ->
  fold_left step props acc = acc ++ filter (isRecursiveLink cd) props.
Proof.
  revert acc. induction props as [|vd props IH]; intros acc Hnd Hfresh; simpl.
  - now rewrite app_nil_r.
  - inversion Hnd as [|? ? Hnotin Hnd']; subst.
    unfold step at 2. destruct (isRecursiveLink cd vd) eqn:Hvd.
    + unfold setVectorInsert.
      destruct (setVectorContains acc vd) eqn:Hc.
      * apply setVectorContains_In in Hc. exfalso.
        apply (Hfresh vd); [now left | assumption].
      * rewrite IH; [now rewrite <- app_assoc | assumption |].
        intros x Hx Hin. apply in_app_or in Hin. destruct Hin as [Hin | [-> | []]].
        -- apply (Hfresh x); [now right | assumption].
        -- contradiction.
    + apply IH; [assumption |].
      intros x Hx. apply Hfresh. now right.
Qed.

Lemma findRecursiveLinks_unfold :
  findRecursiveLinks cd [] =
  let result := fold_left step (getStoredProperties cd) [] in
  if Nat.ltb 1 (List.length result) then [] else result.
Proof. reflexivity. Qed.

End RecursiveLinkScan.

(** A recursive link is a reference, hence never trivial. *)
Lemma isRecursiveLink_not_trivial cd vd :
  isRecursiveLink cd vd = true -> isTrivial (getInterfaceType vd) = false.
Proof.
  unfold isRecursiveLink, getOptionalObjectType.
  destruct (getInterfaceType vd); try discriminate.
  intro H. apply CanType_eqb_eq in H. subst. reflexivity.
Qed.

Lemma findRecursiveLinks_length cd :
  List.length (findRecursiveLinks cd []) <= 1.
Proof.
  rewrite findRecursiveLinks_unfold. cbv zeta.
  destruct (Nat.ltb 1 _) eqn:H.
  - simpl. lia.
  - apply Nat.ltb_ge in H. exact H.
Qed.

Lemma findRecursiveLinks_one cd vd :
  filter (isRecursiveLink cd) (getStoredProperties cd) = [vd] ->
  findRecursiveLinks cd [] = [vd].
Proof.
  intro H. rewrite findRecursiveLinks_unfold. cbv zeta.
  rewrite (scan_one_link cd _ H). reflexivity.
Qed.

Lemma findRecursiveLinks_many cd :
  NoDup (getStoredProperties cd) ->
  2 <= List.length (filter (isRecursiveLink cd) (getStoredProperties cd)) ->
  findRecursiveLinks cd [] = [].
Proof.
  intros Hnd H. rewrite findRecursiveLinks_unfold. cbv zeta.
  rewrite scan_distinct by (assumption || (intros ? ? [])). simpl.
  destruct (Nat.ltb 1 _) eqn:Hlt; [reflexivity|].
  apply Nat.ltb_ge in Hlt. lia.
Qed.

Lemma findRecursiveLinks_none cd :
  filter (isRecursiveLink cd) (getStoredProperties cd) = [] ->
  findRecursiveLinks cd [] = [].
Proof.
  intro H. rewrite findRecursiveLinks_unfold. cbv zeta.
  rewrite (scan_no_link cd _ _ H). reflexivity.
Qed.

(** ** Running the member loops *)

Lemma emitted_emitted s n1 nb1 ip1 c1 n2 nb2 ip2 c2 :
  emitted (emitted s n1 nb1 ip1 c1) n2 nb2 ip2 c2 = emitted s n2 nb2 ip2 (c1 ++ c2).
Proof. unfold emitted. simpl. now rewrite app_assoc. Qed.

Lemma emitted_same s bb :
  insertionBB s = Some bb ->
  emitted s (nextInst s) (nextBlock s) (Some bb) [] = s.
Proof.
  destruct s. unfold emitted. simpl. intros ->. now rewrite app_nil_r.
Qed.

Lemma forEach_ext {A} (f g : A -> SILGen unit) xs :
  (forall x s, f x s = g x s) ->
  forall s, forEach xs f s = forEach xs g s.
Proof.
  intro H. induction xs as [|x xs IH]; intro s; simpl.
  - reflexivity.
  - unfold bind. rewrite H. destruct (g x s) as [[[] s']|]; [apply IH | reflexivity].
Qed.

Lemma forEach_cons {A} (f : A -> SILGen unit) x xs s :
  forEach (x :: xs) f s =
  match f x s with
  | Some (_, s') => forEach xs f s'
  | None => None
  end.
Proof. reflexivity. Qed.

Lemma destroyClassMember_run selfValue D s bb :
  insertionBB s = Some bb ->
  destroyClassMember selfValue D s =
  Some (tt, emitted s
              (nextInst s + List.length (destroyClassMemberCode bb (nextInst s) selfValue D))
              (nextBlock s) (Some bb)
              (destroyClassMemberCode bb (nextInst s) selfValue D)).
Proof.
  intro Hip. unfold destroyClassMember, destroyClassMemberCode.
  destruct s as [conv prof ee cl n nb ip bd]. simpl in Hip. subst ip.
  destruct (isTrivial (getInterfaceType D)); simpl.
  - unfold ret, emitted. simpl. now rewrite Nat.add_0_r, app_nil_r.
  - unfold emitted. cbn. rewrite <- !app_assoc. simpl.
    replace (n + 4) with (S (S (S (S n)))) by lia. reflexivity.
Qed.

Lemma membersLoop_run (skip : VarDecl -> bool) selfValue props :
  forall s bb,
    insertionBB s = Some bb ->
    forEach props
            (fun vd => if skip vd then ret tt else destroyClassMember selfValue vd) s =
    Some (tt, emitted s
                (nextInst s
                 + List.length (membersCode skip bb (nextInst s) selfValue props))
                (nextBlock s) (Some bb)
                (membersCode skip bb (nextInst s) selfValue props)).
Proof.
  induction props as [|vd props IH]; intros s bb Hip.
  - simpl. unfold ret. rewrite Nat.add_0_r. now rewrite emitted_same.
  - rewrite forEach_cons. simpl membersCode. destruct (skip vd).
    + change (ret tt s) with (Some (tt, s)). cbv iota beta.
      rewrite (IH s bb Hip). simpl. now rewrite Nat.add_0_r.
    + rewrite (destroyClassMember_run selfValue vd s Hip).
      rewrite (IH (emitted s _ _ (Some bb) _) bb eq_refl).
      simpl nextInst. simpl nextBlock.
      rewrite emitted_emitted. rewrite length_app.
      rewrite Nat.add_assoc. reflexivity.
Qed.

(** *** What the appended code looks like *)

Lemma destroyClassMemberCode_length bb n selfValue D :
  List.length (destroyClassMemberCode bb n selfValue D) =
  if isTrivial (getInterfaceType D) then 0 else 4.
Proof.
  unfold destroyClassMemberCode. now destruct (isTrivial (getInterfaceType D)).
Qed.

(** An instruction of a member loop over [props]: it sits in block [bb]
    and is one of the four instructions of [destroyClassMember], for a
    non-trivial property [vd] of [props] that the loop does not skip. *)
Definition memberInst (skip : VarDecl -> bool) (bb : SILBasicBlock)
           (selfValue : ManagedValue) (props : list VarDecl) (p : Placed) : Prop :=
  placedBB p = bb /\
  exists vd, In vd props /\ skip vd = false /\
             isTrivial (getInterfaceType vd) = false /\
             exists n, In p (destroyClassMemberCode bb n selfValue vd).

Lemma membersCode_insts skip bb selfValue props :
  forall n, Forall (memberInst skip bb selfValue props)
                   (membersCode skip bb n selfValue props).
Proof.
  induction props as [|vd props IH]; intro n; simpl.
  - constructor.
  - apply Forall_app. split.
    + destruct (skip vd) eqn:Hs; [constructor|].
      apply Forall_forall. intros p Hp. split.
      * unfold destroyClassMemberCode in Hp.
        destruct (isTrivial (getInterfaceType vd)); simpl in Hp;
          [contradiction|].
        destruct Hp as [<-|[<-|[<-|[<-|[]]]]]; reflexivity.
      * exists vd. split; [now left|]. split; [assumption|]. split.
        -- unfold destroyClassMemberCode in Hp.
           destruct (isTrivial (getInterfaceType vd)); [contradiction | reflexivity].
        -- now exists n.
    + eapply Forall_impl; [|apply IH].
      intros p (Hbb & vd' & Hin & Hrest). split; [assumption|].
      exists vd'. split; [now right | assumption].
Qed.

(** Every non-trivial property the loop does not skip gets its
    [destroy_addr]. *)
Lemma membersCode_complete skip bb selfValue props vd :
  In vd props -> skip vd = false -> isTrivial (getInterfaceType vd) = false ->
  forall n, exists p, In p (membersCode skip bb n selfValue props) /\
                      destroyedField (placedInst p) = Some vd.
Proof.
  induction props as [|x props IH]; intros Hin Hs Ht n; simpl in *.
  - contradiction.
  - destruct Hin as [-> | Hin].
    + rewrite Hs. unfold destroyClassMemberCode. rewrite Ht. simpl.
      eexists. split; [right; right; left; reflexivity | reflexivity].
    + destruct (IH Hin Hs Ht (n + List.length
                  (if skip x then [] else destroyClassMemberCode bb n selfValue x)))
        as (p & Hp & Hf).
      exists p. split; [apply in_or_app; now right | assumption].
Qed.

(** What a member instruction can be. *)
Lemma memberInst_kind skip bb selfValue props p :
  memberInst skip bb selfValue props p ->
  In (getKind (placedInst p)) [KRefElementAddr; KBeginAccess; KDestroyAddr; KEndAccess].
Proof.
  intros (_ & vd & _ & _ & Ht & n & Hp).
  unfold destroyClassMemberCode in Hp. rewrite Ht in Hp. simpl in Hp.
  destruct Hp as [<-|[<-|[<-|[<-|[]]]]]; simpl; auto.
Qed.

(** A [destroy_addr] of a member loop destroys a property that the loop
    does not skip. *)
Lemma memberInst_destroyed skip bb selfValue props p :
  memberInst skip bb selfValue props p ->
  getKind (placedInst p) = KDestroyAddr ->
  exists vd, In vd props /\ skip vd = false /\
             isTrivial (getInterfaceType vd) = false /\
             destroyedField (placedInst p) = Some vd.
Proof.
  intros (_ & vd & Hin & Hs & Ht & n & Hp) Hk.
  exists vd. repeat (split; [assumption|]).
  unfold destroyClassMemberCode in Hp. rewrite Ht in Hp. simpl in Hp.
  destruct Hp as [<-|[<-|[<-|[<-|[]]]]]; simpl in *; try discriminate.
  reflexivity.
Qed.

(** A stored field addressed by a member loop is one the loop does not
    skip. *)
Lemma memberInst_addressed skip bb selfValue props p base f :
  memberInst skip bb selfValue props p ->
  placedInst p = RefElementAddrInst base f ->
  In f props /\ skip f = false /\ base = getValue selfValue.
Proof.
  intros (_ & vd & Hin & Hs & Ht & n & Hp) Hi.
  unfold destroyClassMemberCode in Hp. rewrite Ht in Hp. simpl in Hp.
  destruct Hp as [<-|[<-|[<-|[<-|[]]]]]; simpl in *; try discriminate.
  injection Hi as -> ->. auto.
Qed.

Lemma membersCode_block skip bb selfValue props n :
  Forall (fun p => placedBB p = bb) (membersCode skip bb n selfValue props).
Proof.
  eapply Forall_impl; [|apply membersCode_insts]. now intros p [H _].
Qed.

(** ** Symbolic execution of the emitters

    The emitters are run by computation.  The reduction below unfolds the
    monad, the builder primitives and the collaborators, and leaves the
    member loops ([forEach]) and [destroyClassMember] folded; the loops are
    then rewritten with the lemmas about them. *)

Declare Reduction silgen_red :=
  cbv beta iota zeta delta
    [bind ret fail when assert inScope emitCleanups setCleanups pushCleanup
     insertValue insert insertTerminator insertValueIn insertIn
     createBasicBlock setInsertionPoint emitBlock getInsertionBB
     setExpectedExecutor withBody emitted newFunction emitFunction
     selfConvention hasProfiler ExpectedExecutor Cleanups nextInst nextBlock
     insertionBB body
     createUpcast createUncheckedRefCast createUncheckedOwnershipConversion
     createBeginBorrow createEndBorrow createEndLifetime createDropDeinit
     createDestroyValue createFunctionRef createApply createConvertFunction
     createBuiltin emitEmptyTuple createIntegerLiteral createOptionalNone
     createInitExistentialRef createExtractExecutor createUncheckedEnumData
     createAllocStack createDeallocStack createDeallocRef createRefElementAddr
     createStructElementAddr createBeginAccess createEndAccess createLoad
     createLoadBorrow createStore createDestroyAddr createIsUnique createReturn
     createBranch createCondBranch createSwitchEnumAddr
     emitSelfDeclForDestructor emitManagedBeginBorrow borrowObjectRValue
     createUncheckedRefCastManaged emitSiblingMethodRef emitExecutor
     emitPreconditionCheckExpectedExecutor emitApplyOfUnavailableCodeReached
     emitProfilerIncrement prepareEpilog emitStmt emitEpilogBB
     emitDistributedIfRemoteBranch emitDistributedActorSystemResignIDCall
     emitSwitchOnOptional castClassDecl castEnumDecl emitDestroyDefaultActor
     getValue hasCleanup forward getUnmanagedValue forBorrowedRValue
     forUnownedObjectValue forBorrowedAddressRValue forUnmanagedOwnedValue
     getType getOwnershipKind applyResultType addressOwnership
     getNativeObjectType getLoweredType getLoweredLoadableType
     getAddressType getObjectType isObject getASTType
     getDeclaredInterfaceType declRefName declRefKind
     OwnershipKind_eqb SILType_eqb CanType_eqb place fst snd orb andb negb].

Ltac silgen :=
  match goal with
  | |- ?G => let G' := eval silgen_red in G in change G'
  end.

Ltac silgen_in H :=
  let T := type of H in
  let T' := eval silgen_red in T in
  change T' in H.

(** Rewrite with a lemma about a loop, after bringing the lemma to the
    same normal form as the goal. *)
Ltac rewrite_run lem :=
  let H := fresh in
  pose proof lem as H; silgen_in H; erewrite H by reflexivity; clear H.

Lemma remote_loop_eq borrowedSelf props s :
  forEach props
    (fun vd =>
       if ActorIsolation_eqb (varIsolation vd) ActorInstance then ret tt
       else
         if String.eqb (getBaseIdentifier vd) Id_id
            || String.eqb (getBaseIdentifier vd) Id_actorSystem
         then destroyClassMember borrowedSelf vd
         else ret tt) s =
  forEach props
    (fun vd => if remoteSkips vd then ret tt else destroyClassMember borrowedSelf vd) s.
Proof.
  apply forEach_ext. intros x s'. unfold remoteSkips.
  destruct (ActorIsolation_eqb _ _); simpl; [reflexivity|].
  destruct (_ || _); reflexivity.
Qed.

Ltac norm_app := repeat rewrite <- app_assoc; cbn [app].

(** ** Running the chain loop and the member destruction *)

Lemma emitRecursiveChainDestruction_run selfValue cd link s bb :
  insertionBB s = Some bb ->
  emitRecursiveChainDestruction selfValue cd link s =
  Some (tt, emitted s (25 + nextInst s) (6 + nextBlock s) (Some (nextBlock s))
              (chainCode bb (nextInst s) (nextBlock s) selfValue cd link)).
Proof.
  intro Hip. destruct s as [conv prof ee cl n nb ip bd]. simpl in Hip. subst ip.
  unfold chainCode, codeOf, standingAt, emitRecursiveChainDestruction.
  silgen. norm_app. reflexivity.
Qed.

Lemma chainCode_length bb n nb selfValue cd link :
  List.length (chainCode bb n nb selfValue cd link) = 25.
Proof. reflexivity. Qed.

Ltac finish_run :=
  cbv [place]; norm_app; rewrite ?app_nil_r, ?length_app, ?chainCode_length;
  cbn [List.length Nat.add];
  repeat (reflexivity || lia || f_equal).

Lemma emitClassMemberDestruction_run selfValue cd s bb :
  getOwnershipKind (getValue selfValue) = Guaranteed ->
  insertionBB s = Some bb ->
  emitClassMemberDestruction selfValue cd s =
  Some (tt, emitted s
              (nextInst s
               + List.length (classMemberCode bb (nextInst s) (nextBlock s) selfValue cd))
              (match findRecursiveLinks cd [] with
               | [] => nextBlock s
               | _ :: _ => 6 + nextBlock s
               end)
              (Some (match findRecursiveLinks cd [] with
                     | [] => bb
                     | _ :: _ => nextBlock s
                     end))
              (classMemberCode bb (nextInst s) (nextBlock s) selfValue cd)).
Proof.
  intros Hown Hip. unfold emitClassMemberDestruction, classMemberCode.
  pose proof (findRecursiveLinks_length cd) as Hlen.
  destruct s as [conv prof ee cl n nb ip bd]. simpl in Hip. subst ip.
  silgen. silgen_in Hown. rewrite Hown. silgen.
  rewrite_run (membersLoop_run (setVectorContains (findRecursiveLinks cd []))).
  destruct (findRecursiveLinks cd []) as [|link0 [|link1 links]].
  - silgen. destruct (isRootDefaultActor cd); silgen; finish_run.
  - change (Nat.eqb (List.length [link0]) 1) with true.
    silgen. rewrite_run emitRecursiveChainDestruction_run.
    destruct (isRootDefaultActor cd); silgen; finish_run.
  - simpl in Hlen. lia.
Qed.

(** ** Blocks of a listing *)

Lemma blockInsts_nil bb : blockInsts bb [] = [].
Proof. reflexivity. Qed.

Lemma blockInsts_cons bb p l :
  blockInsts bb (p :: l) =
  if Nat.eqb (placedBB p) bb then placedInst p :: blockInsts bb l
  else blockInsts bb l.
Proof. unfold blockInsts. simpl. now destruct (Nat.eqb (placedBB p) bb). Qed.

Lemma blockInsts_app bb l1 l2 :
  blockInsts bb (l1 ++ l2) = blockInsts bb l1 ++ blockInsts bb l2.
Proof. unfold blockInsts. now rewrite filter_app, map_app. Qed.

Lemma blockInsts_same bb l :
  Forall (fun p => placedBB p = bb) l -> blockInsts bb l = listing l.
Proof.
  unfold blockInsts, listing. induction 1 as [|p l Hp _ IH]; simpl.
  - reflexivity.
  - rewrite Hp, Nat.eqb_refl. simpl. now rewrite IH.
Qed.

Lemma blockInsts_other bb bb' l :
  Forall (fun p => placedBB p = bb') l -> bb' <> bb -> blockInsts bb l = [].
Proof.
  unfold blockInsts. induction 1 as [|p l Hp _ IH]; intro Hne; simpl.
  - reflexivity.
  - rewrite Hp. destruct (Nat.eqb_spec bb' bb); [contradiction|]. now apply IH.
Qed.

Lemma blockInsts_members_same skip bb n selfValue props :
  blockInsts bb (membersCode skip bb n selfValue props) =
  listing (membersCode skip bb n selfValue props).
Proof. apply blockInsts_same, membersCode_block. Qed.

Lemma blockInsts_members_other skip bb bb' n selfValue props :
  bb' <> bb -> blockInsts bb (membersCode skip bb' n selfValue props) = [].
Proof. intro H. eapply blockInsts_other; [apply membersCode_block | exact H]. Qed.

(** Compute the blocks of an explicit listing that contains a member
    loop. *)
Ltac calc_blocks :=
  repeat first
    [ rewrite blockInsts_nil
    | rewrite blockInsts_cons; cbn [placedBB placedInst Nat.eqb]
    | rewrite blockInsts_app
    | rewrite blockInsts_members_same
    | rewrite blockInsts_members_other by discriminate ];
  rewrite ?app_nil_r; cbn [app].

(** ** Counting kinds *)

Lemma kinds_app l1 l2 : kinds (l1 ++ l2) = kinds l1 ++ kinds l2.
Proof. unfold kinds. apply map_app. Qed.

Lemma kinds_cons p l : kinds (p :: l) = getKind (placedInst p) :: kinds l.
Proof. reflexivity. Qed.

Lemma kinds_listing l : kinds l = map getKind (listing l).
Proof. unfold kinds, listing. now rewrite map_map. Qed.

Lemma countKind_app k l1 l2 : countKind k (l1 ++ l2) = countKind k l1 + countKind k l2.
Proof. unfold countKind. apply count_occ_app. Qed.

Lemma SILInstructionKind_beq_eq x y :
  SILInstructionKind_beq x y = true <-> x = y.
Proof.
  split.
  - destruct x, y; simpl; intro H; try reflexivity; discriminate H.
  - intros <-. now destruct x.
Qed.

Lemma countKind_cons k x l :
  countKind k (x :: l) =
  (if SILInstructionKind_beq x k then 1 else 0) + countKind k l.
Proof.
  unfold countKind. simpl.
  destruct (SILInstructionKind_eq_dec x k) as [->|Hne].
  - now rewrite (proj2 (SILInstructionKind_beq_eq k k) eq_refl).
  - destruct (SILInstructionKind_beq x k) eqn:Hb; [|reflexivity].
    apply SILInstructionKind_beq_eq in Hb. contradiction.
Qed.

Lemma countKind_nil k : countKind k [] = 0.
Proof. reflexivity. Qed.

Lemma countKind_not_In k l : ~ In k l -> countKind k l = 0.
Proof. unfold countKind. apply count_occ_not_In. Qed.

Lemma countKind_zero_not_In k l : countKind k l = 0 -> ~ In k l.
Proof. unfold countKind. intro H. now apply (count_occ_not_In SILInstructionKind_eq_dec). Qed.

Lemma membersCode_kinds skip bb n selfValue props k :
  In k (kinds (membersCode skip bb n selfValue props)) ->
  In k [KRefElementAddr; KBeginAccess; KDestroyAddr; KEndAccess].
Proof.
  unfold kinds. rewrite in_map_iff. intros (p & <- & Hp).
  pose proof (membersCode_insts skip bb selfValue props n) as H.
  rewrite Forall_forall in H. eapply memberInst_kind, H, Hp.
Qed.

Lemma membersCode_countKind skip bb n selfValue props k :
  ~ In k [KRefElementAddr; KBeginAccess; KDestroyAddr; KEndAccess] ->
  countKind k (kinds (membersCode skip bb n selfValue props)) = 0.
Proof.
  intro H. apply countKind_not_In. intro Hin. apply H.
  eapply membersCode_kinds, Hin.
Qed.

(** Count a kind that no member loop emits in an explicit listing. *)
Ltac calc_count :=
  repeat first
    [ rewrite kinds_cons; cbn [placedInst getKind]
    | rewrite kinds_app
    | rewrite countKind_app
    | rewrite countKind_cons; cbn [SILInstructionKind_beq Nat.add]
    | rewrite countKind_nil
    | rewrite membersCode_countKind
        by (cbn [In]; intros [H|[H|[H|[H|[]]]]]; discriminate H) ];
  cbn.


(** ** The listing of the destroying destructor *)

(** Split an explicit listing around the member destruction. *)
Ltac split_at_members X :=
  lazymatch X with
  | classMemberCode _ ?n _ ?bv _ ++ ?t => constr:((@nil Placed, (n, bv), t))
  | ?x :: ?r =>
      let pr := split_at_members r in
      lazymatch pr with
      | (?h, ?b, ?t) => constr:((x :: h, b, t))
      end
  end.

Ltac in_cases H :=
  repeat (destruct H as [H | H]; [try (subst; simpl in *; discriminate) |]);
  try contradiction.

Lemma emitDestroyingDestructor_listing dd cd prof :
  getSelfNominalTypeDecl dd = NominalClass cd ->
  bodyFallsThrough dd = true ->
  exists head bv n tail,
    emitFunction Guaranteed prof (emitDestroyingDestructor dd) =
    Some (head ++ classMemberCode 0 n 1 bv cd ++ tail) /\
    kinds head = destroyingHeadKinds dd cd prof /\
    kinds tail = destroyingTailKinds cd /\
    Forall (fun p => placedBB p = 0) head /\
    (forall p, In p head -> getKind (placedInst p) = KApply ->
               isSuperclassDestructorCall cd Guaranteed (placedInst p)) /\
    (forall p, In p head ->
               getKind (placedInst p) = KPreconditionCheckExpectedExecutor ->
               isExpectedExecutorCheck dd cd Guaranteed (placedInst p)).
Proof.
  intros Hc Hf.
  unfold emitDestroyingDestructor, emitFunction, isExpectedExecutorCheck.
  unfold destroyingHeadKinds, destroyingPrologKinds, destroyingTailKinds,
    callsSuperclassDestructor, hasSuperclass.
  rewrite Hc.
  destruct (requiresUnavailableDeclABICompatibilityStubs dd);
    destruct (ddIsolation dd); destruct prof;
    silgen; rewrite Hf; silgen;
    destruct (getSuperclass cd) as [superclass|] eqn:Hsuper;
    try destruct (isNativeNSObjectSubclass cd);
    destruct (isDistributedActor cd);
    silgen; rewrite ?String.eqb_refl; silgen;
    (rewrite_run emitClassMemberDestruction_run);
    silgen; norm_app;
    match goal with
    | |- exists h bv n t, Some ?X = _ /\ _ =>
        let r := split_at_members X in
        lazymatch r with
        | (?h, (?n, ?bv), ?t) => exists h, bv, n, t
        end
    end;
    (split; [reflexivity|]);
    (split; [reflexivity|]);
    (split; [reflexivity|]);
    (split; [repeat constructor|]);
    (split; intros p Hin Hk; simpl in Hin; in_cases Hin).
  all: subst p.
  all: try (do 4 eexists; split; [exact Hsuper | reflexivity]).
  all: eexists; split; [reflexivity | do 3 eexists; reflexivity].
Qed.

(** When the body cannot fall through, the listing stops after it. *)
Lemma emitDestroyingDestructor_no_epilog dd cd prof :
  getSelfNominalTypeDecl dd = NominalClass cd ->
  bodyFallsThrough dd = false ->
  exists l,
    emitFunction Guaranteed prof (emitDestroyingDestructor dd) = Some l /\
    kinds l = destroyingPrologKinds dd prof ++ [KUserBody] /\
    (forall p, In p l ->
               getKind (placedInst p) = KPreconditionCheckExpectedExecutor ->
               isExpectedExecutorCheck dd cd Guaranteed (placedInst p)).
Proof.
  intros Hc Hf.
  unfold emitDestroyingDestructor, emitFunction, isExpectedExecutorCheck.
  unfold destroyingPrologKinds.
  rewrite Hc.
  destruct (requiresUnavailableDeclABICompatibilityStubs dd);
    destruct (ddIsolation dd); destruct prof;
    silgen; rewrite Hf; silgen; norm_app;
    (eexists; split; [reflexivity|]);
    (split; [reflexivity|]);
    intros p Hin Hk; simpl in Hin; in_cases Hin.
  all: subst p; eexists; split; [reflexivity | do 3 eexists; reflexivity].
Qed.

(** ** What member destruction is made of *)

Lemma chainCode_kinds bb n nb selfValue cd link :
  kinds (chainCode bb n nb selfValue cd link) =
  [KOptionalNone; KRefElementAddr; KAllocStack; KBeginAccess; KLoad; KStore;
   KEndAccess; KStore; KBranch;
   KSwitchEnumAddr;
   KIsUnique; KCondBranch;
   KLoadBorrow; KUncheckedEnumData; KRefElementAddr; KBeginAccess; KLoad;
   KEndAccess; KEndBorrow; KStore; KBranch;
   KBranch;
   KBranch;
   KDestroyAddr; KDeallocStack].
Proof.
  unfold chainCode, codeOf, standingAt, emitRecursiveChainDestruction, kinds.
  silgen. reflexivity.
Qed.

Lemma chainCode_successors bb n nb selfValue cd link :
  Forall (fun p => Forall (fun b => nb <= b) (successors (placedInst p)))
         (chainCode bb n nb selfValue cd link).
Proof.
  unfold chainCode, codeOf, standingAt, emitRecursiveChainDestruction.
  silgen. cbn [app].
  repeat (constructor;
          [cbn [successors placedInst map snd app]; repeat constructor; lia|]).
  constructor.
Qed.

Lemma classMemberCode_kinds bb n nb selfValue cd k :
  In k (kinds (classMemberCode bb n nb selfValue cd)) ->
  In k memberDestructionKinds.
Proof.
  unfold classMemberCode. cbv zeta. rewrite !kinds_app, !in_app_iff.
  intros [H | [H | H]].
  - apply membersCode_kinds in H. simpl in H. unfold memberDestructionKinds.
    simpl. tauto.
  - destruct (findRecursiveLinks cd []) as [|link0 links]; [contradiction|].
    rewrite chainCode_kinds in H. unfold memberDestructionKinds.
    simpl in H. simpl. tauto.
  - destruct (isRootDefaultActor cd); simpl in H; [|contradiction].
    destruct H as [<- | []]. unfold memberDestructionKinds. simpl. tauto.
Qed.

Lemma classMemberCode_countKind bb n nb selfValue cd k :
  ~ In k memberDestructionKinds ->
  countKind k (kinds (classMemberCode bb n nb selfValue cd)) = 0.
Proof.
  intro H. apply countKind_not_In. intro Hin. apply H.
  eapply classMemberCode_kinds, Hin.
Qed.

(** Member destruction only branches to blocks it has created itself. *)
Lemma classMemberCode_successors bb n nb selfValue cd p b :
  In p (classMemberCode bb n nb selfValue cd) ->
  In b (successors (placedInst p)) -> nb <= b.
Proof.
  unfold classMemberCode. cbv zeta. rewrite !in_app_iff.
  intros [H | [H | H]] Hb.
  - pose proof (membersCode_insts (setVectorContains (findRecursiveLinks cd [])) bb
                  selfValue (getStoredProperties cd) n) as Hm.
    rewrite Forall_forall in Hm. apply Hm in H.
    destruct H as (_ & vd & _ & _ & Ht & m & Hp).
    unfold destroyClassMemberCode in Hp. rewrite Ht in Hp. simpl in Hp.
    destruct Hp as [<-|[<-|[<-|[<-|[]]]]]; contradiction.
  - destruct (findRecursiveLinks cd []) as [|link0 links]; [contradiction|].
    pose proof (chainCode_successors bb
                  (n + List.length
                         (membersCode (setVectorContains (link0 :: links)) bb n
                            selfValue (getStoredProperties cd)))
                  nb selfValue cd link0) as Hs.
    rewrite Forall_forall in Hs. specialize (Hs p H).
    rewrite Forall_forall in Hs. apply Hs. exact Hb.
  - destruct (isRootDefaultActor cd); simpl in H; [|contradiction].
    destruct H as [<- | []]. contradiction.
Qed.


(** ** Positions of kinds *)

Lemma indexOfKind_nth k l i :
  indexOfKind k l = Some i -> nth_error l i = Some k.
Proof.
  revert i. induction l as [|x l IH]; intros i H; cbn [indexOfKind] in H.
  - discriminate H.
  - destruct (SILInstructionKind_beq x k) eqn:E.
    + injection H as <-. apply SILInstructionKind_beq_eq in E. now subst.
    + destruct (indexOfKind k l) as [j|]; [|discriminate H].
      injection H as <-. cbn [nth_error]. now apply IH.
Qed.

Lemma indexOfKind_lt k l i : indexOfKind k l = Some i -> i < List.length l.
Proof.
  intro H. apply indexOfKind_nth in H. apply nth_error_Some. congruence.
Qed.

Lemma indexOfKind_app_found k a b i :
  indexOfKind k a = Some i -> indexOfKind k (a ++ b) = Some i.
Proof.
  revert i. induction a as [|x a IH]; intros i H; cbn [indexOfKind app] in *.
  - discriminate H.
  - destruct (SILInstructionKind_beq x k); [exact H|].
    destruct (indexOfKind k a) as [j|]; [|discriminate H].
    now rewrite (IH j eq_refl).
Qed.

Lemma kinds_length l : List.length (kinds l) = List.length l.
Proof. unfold kinds. apply length_map. Qed.

Lemma kinds_nth l i k :
  nth_error (kinds l) i = Some k ->
  exists p, nth_error l i = Some p /\ getKind (placedInst p) = k.
Proof.
  unfold kinds. rewrite nth_error_map.
  destruct (nth_error l i) as [p|]; [|discriminate].
  intro H. injection H as <-. now exists p.
Qed.

Lemma In_kinds p l : In p l -> In (getKind (placedInst p)) (kinds l).
Proof. intro H. unfold kinds. now apply (in_map (fun p => getKind (placedInst p))). Qed.

Lemma successors_kind i b :
  In b (successors i) ->
  In (getKind i) [KBranch; KCondBranch; KSwitchEnumAddr; KDistributedIfRemoteBranch].
Proof. destruct i; cbn; tauto. Qed.

Lemma destroyingHeadKinds_cases dd cd prof k :
  In k (destroyingHeadKinds dd cd prof) ->
  In k [KUnavailableCodeReached; KLoadActorExecutor;
        KPreconditionCheckExpectedExecutor; KIncrementProfilerCounter; KUserBody;
        KUpcast; KFunctionRef; KApply; KBeginBorrow; KUncheckedRefCast;
        KDistributedActorSystemResignIDCall].
Proof.
  unfold destroyingHeadKinds, destroyingPrologKinds.
  destruct (requiresUnavailableDeclABICompatibilityStubs dd),
    (hasExecutor (ddIsolation dd)), prof, (callsSuperclassDestructor cd),
    (isDistributedActor cd); cbn; tauto.
Qed.

Lemma destroyingTailKinds_cases cd k :
  In k (destroyingTailKinds cd) ->
  In k [KEndBorrow; KUncheckedRefCast; KUncheckedOwnershipConversion; KReturn].
Proof.
  unfold destroyingTailKinds. destruct (callsSuperclassDestructor cd); cbn; tauto.
Qed.

(** The whole listing of the destroying destructor, by kinds.  The entry
    block is never branched to, the only call is the call of the superclass
    destructor, the only executor check is the check of the expected
    executor. *)
Lemma emitDestroyingDestructor_kinds dd cd prof :
  getSelfNominalTypeDecl dd = NominalClass cd ->
  bodyFallsThrough dd = true ->
  exists l head bv n tail,
    emitFunction Guaranteed prof (emitDestroyingDestructor dd) = Some l /\
    l = head ++ classMemberCode 0 n 1 bv cd ++ tail /\
    kinds l = destroyingHeadKinds dd cd prof
              ++ kinds (classMemberCode 0 n 1 bv cd)
              ++ destroyingTailKinds cd /\
    kinds head = destroyingHeadKinds dd cd prof /\
    (forall p, In p l -> getKind (placedInst p) = KApply ->
               isSuperclassDestructorCall cd Guaranteed (placedInst p) /\
               placedBB p = 0) /\
    (forall p, In p l ->
               getKind (placedInst p) = KPreconditionCheckExpectedExecutor ->
               isExpectedExecutorCheck dd cd Guaranteed (placedInst p)) /\
    (forall p b, In p l -> In b (successors (placedInst p)) -> 1 <= b).
Proof.
  intros Hc Hf.
  destruct (emitDestroyingDestructor_listing dd prof Hc Hf)
    as (head & bv & n & tail & Hl & Hh & Ht & Hb & Hcall & Hcheck).
  exists (head ++ classMemberCode 0 n 1 bv cd ++ tail), head, bv, n, tail.
  split; [exact Hl|]. clear Hl.
  split; [reflexivity|].
  split; [rewrite !kinds_app, Hh, Ht; reflexivity|].
  split; [exact Hh|].
  assert (Hmem : forall p k, In p (classMemberCode 0 n 1 bv cd) ->
                             getKind (placedInst p) = k ->
                             In k memberDestructionKinds).
  { intros p k Hp <-. eapply classMemberCode_kinds, In_kinds, Hp. }
  assert (Htail : forall p k, In p tail -> getKind (placedInst p) = k ->
                              In k [KEndBorrow; KUncheckedRefCast;
                                    KUncheckedOwnershipConversion; KReturn]).
  { intros p k Hp <-. apply (destroyingTailKinds_cases cd). rewrite <- Ht.
    apply In_kinds, Hp. }
  split; [|split].
  - intros p Hp Hk. rewrite !in_app_iff in Hp. destruct Hp as [Hp | [Hp | Hp]].
    + split; [now apply Hcall|]. rewrite Forall_forall in Hb. now apply Hb.
    + apply (Hmem p KApply Hp) in Hk. cbn in Hk.
      repeat (destruct Hk as [Hk | Hk]; [discriminate Hk|]). contradiction.
    + apply (Htail p KApply Hp) in Hk. cbn in Hk.
      repeat (destruct Hk as [Hk | Hk]; [discriminate Hk|]). contradiction.
  - intros p Hp Hk. rewrite !in_app_iff in Hp. destruct Hp as [Hp | [Hp | Hp]].
    + now apply Hcheck.
    + apply (Hmem p _ Hp) in Hk. cbn in Hk.
      repeat (destruct Hk as [Hk | Hk]; [discriminate Hk|]). contradiction.
    + apply (Htail p _ Hp) in Hk. cbn in Hk.
      repeat (destruct Hk as [Hk | Hk]; [discriminate Hk|]). contradiction.
  - intros p b Hp Hs. rewrite !in_app_iff in Hp. destruct Hp as [Hp | [Hp | Hp]].
    + exfalso. apply successors_kind in Hs.
      apply In_kinds in Hp. rewrite Hh in Hp.
      apply destroyingHeadKinds_cases in Hp.
      destruct (getKind (placedInst p)); cbn in Hp, Hs;
        repeat (destruct Hp as [Hp | Hp]; [discriminate Hp|]);
        repeat (destruct Hs as [Hs | Hs]; [discriminate Hs|]); contradiction.
    + eapply classMemberCode_successors; eassumption.
    + exfalso. apply successors_kind in Hs.
      specialize (Htail p _ Hp eq_refl).
      destruct (getKind (placedInst p)); cbn in Htail, Hs;
        repeat (destruct Htail as [Htail | Htail]; [discriminate Htail|]);
        repeat (destruct Hs as [Hs | Hs]; [discriminate Hs|]); contradiction.
Qed.

Lemma indexOfKind_In k l i : indexOfKind k l = Some i -> In k l.
Proof. intro H. eapply nth_error_In, indexOfKind_nth, H. Qed.

Lemma countKind_zero_index k l : countKind k l = 0 -> indexOfKind k l = None.
Proof.
  intro H. destruct (indexOfKind k l) as [i|] eqn:E; [|reflexivity].
  apply indexOfKind_In in E. now apply countKind_zero_not_In in H.
Qed.

(** Count a kind in a listing of kinds that holds member destruction. *)
Ltac calc_kinds :=
  repeat first
    [ rewrite countKind_cons; cbn [SILInstructionKind_beq Nat.add]
    | rewrite countKind_app
    | rewrite countKind_nil
    | rewrite classMemberCode_countKind
        by (unfold memberDestructionKinds; cbn [In];
            repeat (let H := fresh in intros [H | H]; [discriminate H | revert H]);
            exact (fun f => f)) ];
  cbn [Nat.add].

(** ** The listing of the deallocating destructor *)

(** Without the is-remote test: the local deinit and the return, all in the
    entry block. *)
Lemma emitDeallocatingClassDestructor_local dd cd conv prof isIsolated :
  getSelfNominalTypeDecl dd = NominalClass cd ->
  isIsolated || negb (isDistributedActor cd) = true ->
  exists pre n,
    emitFunction conv prof (emitDeallocatingClassDestructor dd isIsolated) =
    Some (pre ++ deallocatingLocalCode 0 n (selfArgument cd conv) cd
              ++ [place 0 (7 + n) (TupleInst []);
                  place 0 (8 + n) (ReturnInst (emptyTupleAt (7 + n)))]) /\
    pre = (if requiresUnavailableDeclABICompatibilityStubs dd
           then [place 0 0 UnavailableCodeReached] else []).
Proof.
  intros Hc Hl.
  unfold emitDeallocatingClassDestructor, emitDistributedRemoteActorDeinit, emitFunction.
  rewrite Hc. silgen. silgen_in Hl. rewrite Hl.
  destruct (requiresUnavailableDeclABICompatibilityStubs dd); silgen; norm_app.
  - exists [place 0 0 UnavailableCodeReached], 1. split; reflexivity.
  - exists [], 0. split; reflexivity.
Qed.

(** With the is-remote test: the four blocks of the function. *)
Lemma emitDeallocatingClassDestructor_remote dd cd conv prof :
  getSelfNominalTypeDecl dd = NominalClass cd ->
  isDistributedActor cd = true ->
  exists l n nl nt,
    emitFunction conv prof (emitDeallocatingClassDestructor dd false) = Some l /\
    let self := selfArgument cd conv in
    let borrowedSelf := {| getValue := borrowOf n self; hasCleanup := true |} in
    blockInsts 0 l =
      (if requiresUnavailableDeclABICompatibilityStubs dd
       then [UnavailableCodeReached] else [])
      ++ [DistributedIfRemoteBranch self 1 3] /\
    blockInsts 1 l =
      [BeginBorrowInst self false]
      ++ listing (membersCode remoteSkips 1 (S n) borrowedSelf (getStoredProperties cd))
      ++ (if isRootDefaultActor cd
          then [BuiltinInst "destroyDefaultActor" [borrowOf n self]] else [])
      ++ [EndBorrowInst (borrowOf n self); DeallocRefInst self; BranchInst 2] /\
    blockInsts 3 l = listing (deallocatingLocalCode 3 nl self cd) ++ [BranchInst 2] /\
    blockInsts 2 l = [TupleInst []; ReturnInst (emptyTupleAt nt)] /\
    countKind KDistributedIfRemoteBranch (kinds l) = 1.
Proof.
  intros Hc Hd.
  unfold emitDeallocatingClassDestructor, emitDistributedRemoteActorDeinit, emitFunction.
  rewrite Hc. silgen. rewrite Hd.
  destruct (requiresUnavailableDeclABICompatibilityStubs dd); silgen;
    rewrite_run remote_loop_eq;
    rewrite_run (membersLoop_run remoteSkips);
    silgen; destruct (isRootDefaultActor cd); silgen; norm_app;
    (eexists; eexists; eexists; eexists; split; [reflexivity|]);
    cbv zeta; calc_blocks;
    (split; [reflexivity|]); (split; [reflexivity|]); (split; [reflexivity|]);
    (split; [reflexivity|]); calc_count; reflexivity.
Qed.

(** ** The isolating destructor *)

Lemma emitIsolatingDestructor_branches dd cd conv prof :
  getSelfNominalTypeDecl dd = NominalClass cd ->
  hasExecutor (ddIsolation dd) = true ->
  exists l,
    emitFunction conv prof (emitIsolatingDestructor dd) = Some l /\
    countKind KDistributedIfRemoteBranch (kinds l) =
    if isDistributedActor cd then 1 else 0.
Proof.
  intros Hc He.
  unfold emitIsolatingDestructor, emitDistributedRemoteActorDeinit, emitFunction.
  rewrite Hc. silgen.
  destruct (ddIsolation dd); try discriminate He;
    destruct (isDistributedActor cd); silgen.
  1, 3: rewrite_run remote_loop_eq;
    rewrite_run (membersLoop_run remoteSkips);
    silgen; destruct (isRootDefaultActor cd); silgen; norm_app;
    (eexists; split; [reflexivity|]); calc_count; reflexivity.
  all: norm_app; eexists; split; reflexivity.
Qed.

(** ** Paths through the emitted code *)

Lemma last_app_nonempty {A} (l1 l2 : list A) d :
  l2 <> [] -> last (l1 ++ l2) d = last l2 d.
Proof.
  intro H. induction l1 as [|x l1 IH]; simpl.
  - reflexivity.
  - rewrite IH. destruct (l1 ++ l2) eqn:E; [|reflexivity].
    apply app_eq_nil in E. destruct E as [_ E]. contradiction.
Qed.

(** The path of a remote proxy through the deallocating destructor: the
    entry block, the remote block, the finish block. *)
Lemma remote_path dd cd conv prof l e :
  getSelfNominalTypeDecl dd = NominalClass cd ->
  isDistributedActor cd = true ->
  emitFunction conv prof (emitDeallocatingClassDestructor dd false) = Some l ->
  executedFrom 3 {| isRemoteProxy := true; enumCase := e |} l 0 =
  Some (blockInsts 0 l ++ blockInsts 1 l ++ blockInsts 2 l).
Proof.
  intros Hc Hd Hl.
  destruct (emitDeallocatingClassDestructor_remote dd conv prof Hc Hd)
    as (l' & n & nl & nt & Hl' & H0 & H1 & _ & H2 & _).
  rewrite Hl in Hl'. injection Hl' as <-. cbv zeta in H0, H1.
  assert (L0 : last (blockInsts 0 l) (TupleInst []) =
               DistributedIfRemoteBranch (selfArgument cd conv) 1 3)
    by (rewrite H0; now rewrite last_app_nonempty by discriminate).
  assert (L1 : last (blockInsts 1 l) (TupleInst []) = BranchInst 2)
    by (rewrite H1, !app_assoc; now rewrite last_app_nonempty by discriminate).
  assert (L2 : last (blockInsts 2 l) (TupleInst []) = ReturnInst (emptyTupleAt nt))
    by now rewrite H2.
  cbn [executedFrom]. rewrite L0. cbn [transfer isRemoteProxy].
  rewrite L1. cbn [transfer]. rewrite L2. cbn [transfer].
  reflexivity.
Qed.

Lemma remoteSkips_false vd :
  remoteSkips vd = false ->
  varIsolation vd <> ActorInstance /\
  (getBaseIdentifier vd = Id_id \/ getBaseIdentifier vd = Id_actorSystem).
Proof.
  unfold remoteSkips. intro H. apply orb_false_iff in H. destruct H as [Hi Hn].
  split.
  - intro E. rewrite E in Hi. discriminate Hi.
  - apply negb_false_iff, orb_true_iff in Hn.
    destruct Hn as [Hn|Hn]; apply String.eqb_eq in Hn; auto.
Qed.

Lemma remoteSkips_isolated vd :
  varIsolation vd = ActorInstance -> remoteSkips vd = true.
Proof. unfold remoteSkips. now intros ->. Qed.

Lemma In_listing i l : In i (listing l) -> exists p, In p l /\ placedInst p = i.
Proof.
  unfold listing. rewrite in_map_iff. intros (p & <- & Hp). now exists p.
Qed.

(** What the remote block of the deallocating destructor holds: the borrow
    of self, the member loop, the teardown of the default actor, the end of
    the borrow, the deallocation, the branch to the finish block. *)
Lemma remote_block_insts dd cd conv prof l :
  getSelfNominalTypeDecl dd = NominalClass cd ->
  isDistributedActor cd = true ->
  emitFunction conv prof (emitDeallocatingClassDestructor dd false) = Some l ->
  exists n bv nt,
    getValue bv = borrowOf n (selfArgument cd conv) /\
    blockInsts 0 l =
      (if requiresUnavailableDeclABICompatibilityStubs dd
       then [UnavailableCodeReached] else [])
      ++ [DistributedIfRemoteBranch (selfArgument cd conv) 1 3] /\
    blockInsts 1 l =
      [BeginBorrowInst (selfArgument cd conv) false]
      ++ listing (membersCode remoteSkips 1 (S n) bv (getStoredProperties cd))
      ++ (if isRootDefaultActor cd
          then [BuiltinInst "destroyDefaultActor" [borrowOf n (selfArgument cd conv)]]
          else [])
      ++ [EndBorrowInst (borrowOf n (selfArgument cd conv));
          DeallocRefInst (selfArgument cd conv); BranchInst 2] /\
    blockInsts 2 l = [TupleInst []; ReturnInst (emptyTupleAt nt)].
Proof.
  intros Hc Hd Hl.
  destruct (emitDeallocatingClassDestructor_remote dd conv prof Hc Hd)
    as (l' & n & nl & nt & Hl' & H0 & H1 & _ & H2 & _).
  rewrite Hl in Hl'. injection Hl' as <-. cbv zeta in H0, H1.
  exists n, {| getValue := borrowOf n (selfArgument cd conv); hasCleanup := true |}, nt.
  repeat split; assumption.
Qed.

(** The seven instructions of the local deinit of the deallocating
    destructor. *)
Lemma deallocatingLocalCode_shape bb n cd conv :
  exists dtor borrowed handle casted,
    listing (deallocatingLocalCode bb n (selfArgument cd conv) cd) =
      [FunctionRefInst {| declRefName := className cd; declRefKind := Destroyer |};
       BeginBorrowInst (selfArgument cd conv) false;
       ApplyInst dtor None [borrowed];
       EndBorrowInst borrowed;
       EndLifetimeInst (selfArgument cd conv);
       UncheckedRefCastInst handle;
       DeallocRefInst casted] /\
    definedBy dtor
      (FunctionRefInst {| declRefName := className cd; declRefKind := Destroyer |}) /\
    definedBy borrowed (BeginBorrowInst (selfArgument cd conv) false) /\
    getOwnershipKind borrowed = Guaranteed /\
    definedBy handle (ApplyInst dtor None [borrowed]) /\
    definedBy casted (UncheckedRefCastInst handle) /\
    getType casted = ObjectTy (ClassType (className cd)).
Proof.
  unfold deallocatingLocalCode, listing, place. cbn [map placedInst].
  do 4 eexists. split; [reflexivity|].
  unfold definedBy.
  repeat (split; [first [reflexivity | do 3 eexists; reflexivity]|]).
  reflexivity.
Qed.

(** The instructions a remote proxy executes in the deallocating
    destructor. *)
Lemma remote_path_insts dd cd conv prof l e :
  getSelfNominalTypeDecl dd = NominalClass cd ->
  isDistributedActor cd = true ->
  emitFunction conv prof (emitDeallocatingClassDestructor dd false) = Some l ->
  exists n bv nt,
    executedFrom 3 {| isRemoteProxy := true; enumCase := e |} l 0 =
    Some (((if requiresUnavailableDeclABICompatibilityStubs dd
            then [UnavailableCodeReached] else [])
           ++ [DistributedIfRemoteBranch (selfArgument cd conv) 1 3;
               BeginBorrowInst (selfArgument cd conv) false])
          ++ listing (membersCode remoteSkips 1 (S n) bv (getStoredProperties cd))
          ++ (if isRootDefaultActor cd
              then [BuiltinInst "destroyDefaultActor" [borrowOf n (selfArgument cd conv)]]
              else [])
          ++ [EndBorrowInst (borrowOf n (selfArgument cd conv))]
          ++ [DeallocRefInst (selfArgument cd conv); BranchInst 2;
              TupleInst []; ReturnInst (emptyTupleAt nt)]).
Proof.
  intros Hc Hd Hl.
  destruct (remote_block_insts dd conv prof Hc Hd Hl)
    as (n & bv & nt & Hbv & H0 & H1 & H2).
  exists n, bv, nt. rewrite (remote_path dd conv prof e Hc Hd Hl).
  rewrite H0, H1, H2. norm_app. reflexivity.
Qed.

(** An instruction that is not part of a member loop and touches no
    stored field. *)
Definition touchesNoField (i : SILInstruction) : Prop :=
  destroyedField i = None /\
  getKind i <> KDestroyAddr /\ getKind i <> KRefElementAddr.

Lemma remote_path_cases dd cd conv prof l e path i :
  getSelfNominalTypeDecl dd = NominalClass cd ->
  isDistributedActor cd = true ->
  emitFunction conv prof (emitDeallocatingClassDestructor dd false) = Some l ->
  executedFrom 3 {| isRemoteProxy := true; enumCase := e |} l 0 = Some path ->
  In i path ->
  (touchesNoField i /\
   In (getKind i) [KUnavailableCodeReached; KDistributedIfRemoteBranch; KBeginBorrow;
                   KBuiltin; KEndBorrow; KDeallocRef; KBranch; KTuple; KReturn] /\
   (getKind i = KBuiltin ->
    isDestroyDefaultActor i = true /\ isRootDefaultActor cd = true)) \/
  (exists bv p, memberInst remoteSkips 1 bv (getStoredProperties cd) p /\
                placedInst p = i).
Proof.
  intros Hc Hd Hl Hpath Hin.
  destruct (remote_path_insts dd conv prof e Hc Hd Hl) as (n & bv & nt & Hp).
  rewrite Hp in Hpath. injection Hpath as <-.
  apply in_app_or in Hin. destruct Hin as [Hin | Hin].
  { left. destruct (requiresUnavailableDeclABICompatibilityStubs dd);
      simpl in Hin; repeat (destruct Hin as [<- | Hin]; [|]); try contradiction;
      (split; [repeat split; discriminate|]); (split; [simpl; tauto|]);
      discriminate. }
  apply in_app_or in Hin. destruct Hin as [Hin | Hin].
  { right. apply In_listing in Hin. destruct Hin as (p & Hp' & <-).
    exists bv, p. split; [|reflexivity].
    pose proof (membersCode_insts remoteSkips 1 bv (getStoredProperties cd) (S n)) as H.
    rewrite Forall_forall in H. now apply H. }
  left. apply in_app_or in Hin. destruct Hin as [Hin | Hin].
  { destruct (isRootDefaultActor cd); simpl in Hin; [|contradiction].
    destruct Hin as [<- | []].
    split; [repeat split; discriminate|]. split; [simpl; tauto|]. now split. }
  simpl in Hin. repeat (destruct Hin as [<- | Hin]; [|]); try contradiction;
    (split; [repeat split; discriminate|]); (split; [simpl; tauto|]);
    discriminate.
Qed.

(** ** The blocks of the chain loop *)

(** Compute a block of an explicit listing whose block numbers are offsets
    from a variable: one instruction at a time, deciding each block test
    by arithmetic. *)
Ltac step_block :=
  rewrite blockInsts_cons; cbn [placedBB placedInst];
  match goal with
  | |- context [if Nat.eqb ?a ?b then _ else _] =>
      first [ rewrite (proj2 (Nat.eqb_eq a b)) by lia
            | rewrite (proj2 (Nat.eqb_neq a b)) by lia ]
  end;
  cbv iota.

Ltac calc_chain_block :=
  repeat step_block; rewrite blockInsts_nil; reflexivity.

(** ** The case blocks of an enum *)

Lemma EnumElementDecl_eqb_eq a b : EnumElementDecl_eqb a b = true <-> a = b.
Proof.
  unfold EnumElementDecl_eqb. destruct a as [n1 h1], b as [n2 h2]. cbn. split.
  - intro H. apply andb_true_iff in H. destruct H as [H1 H2].
    apply String.eqb_eq in H1. apply Bool.eqb_prop in H2. now subst.
  - intro H. injection H as -> ->. rewrite String.eqb_refl. cbn.
    apply Bool.eqb_reflx.
Qed.

Lemma caseBlockCode_length contBlock enumBlock n subject elt :
  List.length (caseBlockCode contBlock enumBlock n subject elt) =
  if hasAssociatedValues elt then 3 else 1.
Proof. unfold caseBlockCode. now destruct (hasAssociatedValues elt). Qed.

Lemma enumCaseStep_run selfValue contBlock acc enumElt s0 cs0 s1 :
  acc s0 = Some (cs0, s1) ->
  enumCaseStep selfValue contBlock acc enumElt s0 =
  Some (cs0 ++ [(enumElt, nextBlock s1)],
        emitted s1
          (nextInst s1
           + List.length (caseBlockCode contBlock (nextBlock s1) (nextInst s1)
                                        selfValue enumElt))
          (S (nextBlock s1)) (Some (nextBlock s1))
          (caseBlockCode contBlock (nextBlock s1) (nextInst s1) selfValue enumElt)).
Proof.
  intro Hacc. unfold enumCaseStep, caseBlockCode, takenPayload.
  unfold bind at 1. rewrite Hacc.
  destruct s1 as [conv prof ee cl n nb ip bd].
  destruct (hasAssociatedValues enumElt); silgen; finish_run.
Qed.

Lemma enumCases_run selfValue contBlock elts :
  forall acc s0 cs0 s1,
    acc s0 = Some (cs0, s1) ->
    fold_left (enumCaseStep selfValue contBlock) elts acc s0 =
    Some (cs0 ++ caseTable (nextBlock s1) elts,
          emitted s1
            (nextInst s1
             + List.length (enumCasesCode contBlock (nextBlock s1) (nextInst s1)
                                          selfValue elts))
            (List.length elts + nextBlock s1)
            (caseInsertion (insertionBB s1) (nextBlock s1) elts)
            (enumCasesCode contBlock (nextBlock s1) (nextInst s1) selfValue elts)).
Proof.
  induction elts as [|elt elts IH]; intros acc s0 cs0 s1 Hacc.
  - cbn [fold_left caseTable enumCasesCode caseInsertion List.length Nat.add].
    rewrite Hacc, app_nil_r, Nat.add_0_r.
    destruct s1. unfold emitted. cbn. now rewrite app_nil_r.
  - cbn [fold_left].
    rewrite (IH _ _ _ _ (enumCaseStep_run selfValue contBlock acc elt s0 Hacc)).
    cbn [caseTable enumCasesCode caseInsertion List.length].
    rewrite emitted_emitted. cbn [nextInst nextBlock emitted insertionBB].
    rewrite <- app_assoc, length_app, Nat.add_assoc.
    cbn [app]. rewrite <- plus_n_Sm. reflexivity.
Qed.

(** The whole of [emitMoveOnlyMemberDestruction] for an enum held in
    memory. *)
Lemma emitMoveOnlyMemberDestruction_enum selfValue ed s bb :
  insertionBB s = Some bb ->
  isObject (getType selfValue) = false ->
  let subject := droppedSelf (nextInst s) selfValue in
  let n1 := if isaDropDeinitInst selfValue then nextInst s else S (nextInst s) in
  let cases :=
    enumCasesCode (nextBlock s) (S (nextBlock s)) n1 subject (getAllElements ed) in
  emitMoveOnlyMemberDestruction selfValue (NominalEnum ed) s =
  Some (tt, emitted s (S (n1 + List.length cases))
              (List.length (getAllElements ed) + S (nextBlock s))
              (Some (nextBlock s))
              ((if isaDropDeinitInst selfValue then []
                else [place bb (nextInst s) (DropDeinitInst selfValue)])
               ++ cases
               ++ [place bb (n1 + List.length cases)
                         (SwitchEnumAddrInst subject None
                            (caseTable (S (nextBlock s)) (getAllElements ed)))])).
Proof.
  intros Hip Hobj. cbv zeta.
  unfold emitMoveOnlyMemberDestruction, droppedSelf.
  destruct s as [conv prof ee cl n nb ip bd]. cbn in Hip. subst ip.
  silgen_in Hobj.
  destruct (isaDropDeinitInst selfValue); silgen; rewrite Hobj; silgen.
  - pose proof (enumCases_run selfValue nb (getAllElements ed)) as H.
    unfold enumCaseStep in H. silgen_in H.
    erewrite H by reflexivity. clear H.
    silgen. finish_run.
  - pose proof (enumCases_run
                  (SILInstResult n (getType selfValue)
                     (addressOwnership (getType selfValue) Owned)
                     (DropDeinitInst selfValue))
                  nb (getAllElements ed)) as H.
    unfold enumCaseStep in H. silgen_in H. rewrite ?Hobj in H. silgen_in H.
    erewrite H by reflexivity. clear H.
    silgen. rewrite ?Hobj. finish_run.
Qed.

Lemma caseTable_fst enumBlock elts : map fst (caseTable enumBlock elts) = elts.
Proof.
  revert enumBlock. induction elts as [|e elts IH]; intro eb; cbn; [reflexivity|].
  now rewrite IH.
Qed.

Lemma caseTable_ge enumBlock elts e b :
  In (e, b) (caseTable enumBlock elts) -> enumBlock <= b.
Proof.
  revert enumBlock. induction elts as [|x elts IH]; intros eb H; cbn in H.
  - contradiction.
  - destruct H as [H | H].
    + injection H as _ <-. lia.
    + apply IH in H. lia.
Qed.

Lemma caseTable_In_fst enumBlock elts e b :
  In (e, b) (caseTable enumBlock elts) -> In e elts.
Proof.
  intro H. rewrite <- (caseTable_fst enumBlock elts).
  now apply (in_map fst) in H.
Qed.

Lemma caseTable_complete enumBlock elts e :
  In e elts -> exists b, In (e, b) (caseTable enumBlock elts).
Proof.
  revert enumBlock. induction elts as [|x elts IH]; intros eb H; cbn in *.
  - contradiction.
  - destruct H as [-> | H].
    + exists eb. now left.
    + destruct (IH (S eb) H) as (b & Hb). exists b. now right.
Qed.

(** On distinct cases the switch goes to the block entered for the
    case. *)
Lemma switchDest_caseTable enumBlock elts e b :
  NoDup elts ->
  In (e, b) (caseTable enumBlock elts) ->
  switchDest e None (caseTable enumBlock elts) = Some b.
Proof.
  revert enumBlock. induction elts as [|x elts IH]; intros eb Hnd H; cbn in *.
  - contradiction.
  - inversion Hnd as [|? ? Hnotin Hnd']; subst.
    destruct (EnumElementDecl_eqb e x) eqn:E.
    + apply EnumElementDecl_eqb_eq in E. subst x.
      destruct H as [H | H].
      * injection H as <-. reflexivity.
      * apply caseTable_In_fst in H. contradiction.
    + destruct H as [H | H].
      * injection H as -> _.
        rewrite (proj2 (EnumElementDecl_eqb_eq e e) eq_refl) in E. discriminate E.
      * now apply IH.
Qed.

Lemma caseBlockCode_block contBlock enumBlock n subject elt :
  Forall (fun p => placedBB p = enumBlock)
         (caseBlockCode contBlock enumBlock n subject elt).
Proof.
  unfold caseBlockCode. destruct (hasAssociatedValues elt); repeat constructor.
Qed.

Lemma caseBlockCode_listing contBlock enumBlock n subject elt :
  listing (caseBlockCode contBlock enumBlock n subject elt) =
  caseBlockInsts contBlock subject (takenPayload n subject elt) elt.
Proof.
  unfold caseBlockCode, caseBlockInsts.
  now destruct (hasAssociatedValues elt).
Qed.

(** Blocks created before the case blocks hold none of their code. *)
Lemma enumCasesCode_before contBlock subject elts :
  forall enumBlock n b,
    b < enumBlock ->
    blockInsts b (enumCasesCode contBlock enumBlock n subject elts) = [].
Proof.
  induction elts as [|e elts IH]; intros eb n b Hlt; cbn [enumCasesCode].
  - reflexivity.
  - rewrite blockInsts_app.
    rewrite (blockInsts_other (bb' := eb) (caseBlockCode_block _ _ _ _ _))
      by lia.
    rewrite IH by lia. reflexivity.
Qed.

(** The block entered in the case table for a case holds the code of that
    case. *)
Lemma enumCasesCode_case contBlock subject elts :
  forall enumBlock n e b,
    In (e, b) (caseTable enumBlock elts) ->
    exists m,
      blockInsts b (enumCasesCode contBlock enumBlock n subject elts) =
      caseBlockInsts contBlock subject (takenPayload m subject e) e.
Proof.
  induction elts as [|x elts IH]; intros eb n e b H; cbn [caseTable] in H.
  - contradiction.
  - cbn [enumCasesCode]. rewrite blockInsts_app. destruct H as [H | H].
    + injection H as -> ->. exists n.
      rewrite (blockInsts_same (caseBlockCode_block _ _ _ _ _)).
      rewrite enumCasesCode_before by lia.
      rewrite app_nil_r. apply caseBlockCode_listing.
    + pose proof (caseTable_ge _ _ _ _ H) as Hge.
      rewrite (blockInsts_other (bb' := eb) (caseBlockCode_block _ _ _ _ _))
        by lia.
      cbn [app]. now apply IH.
Qed.

Lemma droppedSelf_isDropDeinit n selfValue :
  isaDropDeinitInst (droppedSelf n selfValue) = true.
Proof.
  unfold droppedSelf. destruct (isaDropDeinitInst selfValue) eqn:E; [exact E|].
  reflexivity.
Qed.

Lemma caseBlockInsts_last contBlock subject take e d :
  last (caseBlockInsts contBlock subject take e) d = BranchInst contBlock.
Proof.
  unfold caseBlockInsts. now rewrite last_app_nonempty by discriminate.
Qed.
(* ================================================================== *)
(** * Counting what a member loop destroys                             *)
(* ================================================================== *)

Lemma countDestroyed_app vd l1 l2 :
  countDestroyed vd (l1 ++ l2) = countDestroyed vd l1 + countDestroyed vd l2.
Proof. unfold countDestroyed. now rewrite filter_app, length_app. Qed.

Lemma destroyClassMemberCode_countDestroyed bb n selfValue x vd :
  countDestroyed vd (destroyClassMemberCode bb n selfValue x) =
  if negb (isTrivial (getInterfaceType x)) && VarDecl_eqb x vd then 1 else 0.
Proof.
  unfold destroyClassMemberCode, countDestroyed.
  destruct (isTrivial (getInterfaceType x)); cbn; [reflexivity|].
  unfold destroysField. cbn. now destruct (VarDecl_eqb x vd).
Qed.

Lemma membersCode_countDestroyed_absent skip bb selfValue props vd :
  ~ In vd props ->
  forall n, countDestroyed vd (membersCode skip bb n selfValue props) = 0.
Proof.
  induction props as [|x props IH]; intros Hnot n; cbn [membersCode].
  - reflexivity.
  - rewrite countDestroyed_app, IH by (intro; apply Hnot; now right).
    destruct (skip x); [reflexivity|].
    rewrite destroyClassMemberCode_countDestroyed.
    destruct (VarDecl_eqb x vd) eqn:E.
    + apply VarDecl_eqb_eq in E. subst. exfalso. apply Hnot. now left.
    + now rewrite andb_false_r.
Qed.

Lemma membersCode_countDestroyed skip bb selfValue props vd :
  NoDup props -> In vd props ->
  forall n,
    countDestroyed vd (membersCode skip bb n selfValue props) =
    if negb (skip vd) && negb (isTrivial (getInterfaceType vd)) then 1 else 0.
Proof.
  induction props as [|x props IH]; intros Hnd Hin n; [contradiction|].
  inversion Hnd as [|? ? Hnotin Hnd']; subst.
  cbn [membersCode]. rewrite countDestroyed_app.
  destruct Hin as [-> | Hin].
  - rewrite (@membersCode_countDestroyed_absent skip bb selfValue props vd Hnotin).
    rewrite Nat.add_0_r.
    destruct (skip vd); [reflexivity|].
    rewrite destroyClassMemberCode_countDestroyed.
    rewrite (proj2 (VarDecl_eqb_eq vd vd) eq_refl), andb_true_r. reflexivity.
  - rewrite (IH Hnd' Hin).
    assert (Hne : VarDecl_eqb x vd = false).
    { destruct (VarDecl_eqb x vd) eqn:E; [|reflexivity].
      apply VarDecl_eqb_eq in E. subst. contradiction. }
    destruct (skip x); [reflexivity|].
    rewrite destroyClassMemberCode_countDestroyed, Hne, andb_false_r.
    reflexivity.
Qed.


Lemma membersCode_destroyedField skip bb selfValue props :
  forall n,
    map destroyedField (listing (membersCode skip bb n selfValue props)) =
    flat_map (fun vd => [None; None; Some vd; None]) (destroyedByLoop skip props).
Proof.
  unfold destroyedByLoop, listing.
  induction props as [|vd props IH]; intro n; cbn [membersCode filter].
  - reflexivity.
  - rewrite !map_app, IH. unfold destroyClassMemberCode.
    destruct (skip vd); [reflexivity|].
    destruct (isTrivial (getInterfaceType vd)); reflexivity.
Qed.

(** ** The four instructions of one field *)

Lemma destroysInPlace_app self vd l1 l l2 :
  destroysInPlace self vd l -> destroysInPlace self vd (l1 ++ l ++ l2).
Proof.
  intros (before & fieldAddr & access & after & Hf & Ha & ->).
  exists (l1 ++ before), fieldAddr, access, (after ++ l2).
  split; [exact Hf|]. split; [exact Ha|].
  rewrite <- !app_assoc. reflexivity.
Qed.

Lemma membersCode_destroysInPlace skip bb selfValue props vd :
  In vd props -> skip vd = false -> isTrivial (getInterfaceType vd) = false ->
  forall n,
    destroysInPlace (getValue selfValue) vd
                    (listing (membersCode skip bb n selfValue props)).
Proof.
  induction props as [|x props IH]; intros Hin Hs Ht n; [contradiction|].
  cbn [membersCode]. unfold listing. rewrite map_app.
  destruct Hin as [-> | Hin].
  - rewrite Hs. unfold destroyClassMemberCode. rewrite Ht.
    cbn [negb map placedInst].
    eexists [], _, _, _. unfold definedBy.
    split; [do 3 eexists; reflexivity|].
    split; [do 3 eexists; reflexivity|].
    rewrite app_nil_l. reflexivity.
  - specialize (IH Hin Hs Ht).
    match goal with
    | |- destroysInPlace _ _ (?a ++ map placedInst (membersCode _ _ ?m _ _)) =>
        specialize (IH m);
        pose proof (@destroysInPlace_app (getValue selfValue) vd a _ [] IH) as H
    end.
    rewrite app_nil_r in H. exact H.
Qed.

(** Without a recursive link the code of [emitClassMemberDestruction] is
    the member loop over every stored property, and the teardown of the
    default actor of a root default actor. *)
Lemma classMemberCode_no_link bb n nb selfValue cd :
  findRecursiveLinks cd [] = [] ->
  classMemberCode bb n nb selfValue cd =
  membersCode (setVectorContains []) bb n selfValue (getStoredProperties cd)
  ++ (if isRootDefaultActor cd
      then [place bb
              (n + List.length
                     (membersCode (setVectorContains []) bb n selfValue
                                  (getStoredProperties cd)))
              (BuiltinInst "destroyDefaultActor" [getValue selfValue])]
      else []).
Proof.
  intro Hnone. unfold classMemberCode. rewrite Hnone. cbv zeta iota beta.
  rewrite app_nil_l. cbn [List.length]. rewrite Nat.add_0_r. reflexivity.
Qed.

(** ** The remote path, with the borrow of self *)

(** The instructions a remote proxy executes in the deallocating
    destructor, split at the deallocation; the member loop works on the
    borrow of self. *)
Lemma remote_path_borrowed dd cd conv prof l e :
  getSelfNominalTypeDecl dd = NominalClass cd ->
  isDistributedActor cd = true ->
  emitFunction conv prof (emitDeallocatingClassDestructor dd false) = Some l ->
  exists n bv nt,
    getValue bv = borrowOf n (selfArgument cd conv) /\
    executedFrom 3 {| isRemoteProxy := true; enumCase := e |} l 0 =
    Some ((((if requiresUnavailableDeclABICompatibilityStubs dd
             then [UnavailableCodeReached] else [])
            ++ [DistributedIfRemoteBranch (selfArgument cd conv) 1 3;
                BeginBorrowInst (selfArgument cd conv) false])
           ++ listing (membersCode remoteSkips 1 (S n) bv (getStoredProperties cd))
           ++ (if isRootDefaultActor cd
               then [BuiltinInst "destroyDefaultActor" [borrowOf n (selfArgument cd conv)]]
               else [])
           ++ [EndBorrowInst (borrowOf n (selfArgument cd conv))])
          ++ [DeallocRefInst (selfArgument cd conv); BranchInst 2;
              TupleInst []; ReturnInst (emptyTupleAt nt)]).
Proof.
  intros Hc Hd Hl.
  destruct (remote_block_insts dd conv prof Hc Hd Hl)
    as (n & bv & nt & Hbv & H0 & H1 & H2).
  exists n, bv, nt. split; [exact Hbv|].
  rewrite (remote_path dd conv prof e Hc Hd Hl).
  rewrite H0, H1, H2. norm_app. reflexivity.
Qed.

Lemma remoteSkips_named vd :
  varIsolation vd <> ActorInstance ->
  getBaseIdentifier vd = Id_id \/ getBaseIdentifier vd = Id_actorSystem ->
  remoteSkips vd = false.
Proof.
  intros Hiso Hname. unfold remoteSkips. apply orb_false_iff. split.
  - destruct (ActorIsolation_eqb _ _) eqn:E; [|reflexivity].
    apply ActorIsolation_eqb_eq in E. contradiction.
  - apply negb_false_iff, orb_true_iff.
    destruct Hname as [-> | ->]; [left | right]; apply String.eqb_refl.
Qed.

(* ================================================================== *)
(** * The claims                                                       *)
(* ================================================================== *)

(** C2.  [findRecursiveLinks] returns at most one stored property.  When
    exactly one stored property has the type [Optional<Self>], that
    property is the recursive link.  When two or more have it, the result
    is empty, and [emitClassMemberDestruction], run on a guaranteed self
    in a block, does no chain destruction: it opens no block, stays in its
    block, emits nothing but the instructions of [destroyClassMember] and
    the teardown of the default actor, and destroys each of these
    properties exactly once in place, by the four instructions of
    [destroyClassMember]. *)
Theorem findRecursiveLinks_at_most_one (cd : ClassDecl) :
  NoDup (getStoredProperties cd) ->
  let qualifying := filter (isRecursiveLink cd) (getStoredProperties cd) in
  List.length (findRecursiveLinks cd []) <= 1 /\
  (forall vd, qualifying = [vd] -> findRecursiveLinks cd [] = [vd]) /\
  (2 <= List.length qualifying ->
   findRecursiveLinks cd [] = [] /\
   forall selfValue s bb,
     insertionBB s = Some bb ->
     getOwnershipKind (getValue selfValue) = Guaranteed ->
     exists code n',
       emitClassMemberDestruction selfValue cd s =
       Some (tt, emitted s n' (nextBlock s) (Some bb) code) /\
       Forall (fun p => placedBB p = bb /\
                        In (getKind (placedInst p))
                           [KRefElementAddr; KBeginAccess; KDestroyAddr;
                            KEndAccess; KBuiltin]) code /\
       forall vd, In vd qualifying ->
                  countDestroyed vd code = 1 /\
                  destroysInPlace (getValue selfValue) vd (listing code)).
Proof.
  intros Hnd qualifying. split; [apply findRecursiveLinks_length|].
  split; [apply findRecursiveLinks_one|].
  intro Hmany. pose proof (findRecursiveLinks_many cd Hnd Hmany) as Hnone.
  split; [exact Hnone|].
  intros selfValue s bb Hip Hown.
  pose proof (emitClassMemberDestruction_run selfValue cd s Hown Hip) as Hrun.
  rewrite (classMemberCode_no_link bb (nextInst s) (nextBlock s) selfValue cd Hnone)
    in Hrun.
  rewrite Hnone in Hrun.
  do 2 eexists. split; [exact Hrun|]. split.
  - apply Forall_app. split.
    + eapply Forall_impl; [|apply membersCode_insts].
      intros p Hm. split; [exact (proj1 Hm)|].
      apply memberInst_kind in Hm. simpl in Hm. simpl. tauto.
    + destruct (isRootDefaultActor cd); [|constructor].
      constructor; [|constructor]. split; [reflexivity | simpl; tauto].
  - intros vd Hq. apply filter_In in Hq. destruct Hq as [Hin Hq].
    pose proof (isRecursiveLink_not_trivial cd vd Hq) as Ht.
    split.
    + rewrite countDestroyed_app.
      rewrite (@membersCode_countDestroyed (setVectorContains []) bb selfValue
                 _ vd Hnd Hin).
      rewrite setVectorContains_nil, Ht.
      destruct (isRootDefaultActor cd); reflexivity.
    + unfold listing. rewrite map_app.
      pose proof (@membersCode_destroysInPlace (setVectorContains []) bb selfValue
                    _ vd Hin (setVectorContains_nil vd) Ht (nextInst s)) as H.
      exact (@destroysInPlace_app (getValue selfValue) vd [] _ _ H).
Qed.

Lemma findRecursiveLinks_at_most_one_witness :
  findRecursiveLinks NodeClass [] =
    [sampleField "next" (OptionalType (ClassType "Node")) Unspecified] /\
  findRecursiveLinks TreeClass [] = [] /\
  (let selfValue := forBorrowedRValue (selfArgument TreeClass Guaranteed) in
   let s := newFunction Guaranteed false in
   exists code n',
     emitClassMemberDestruction selfValue TreeClass s =
     Some (tt, emitted s n' (nextBlock s) (Some 0) code) /\
     countDestroyed
       (sampleField "left" (OptionalType (ClassType "Tree")) Unspecified) code = 1 /\
     countDestroyed
       (sampleField "right" (OptionalType (ClassType "Tree")) Unspecified) code = 1).
Proof.
  assert (HndN : NoDup (getStoredProperties NodeClass))
    by (repeat constructor; simpl; intuition discriminate).
  assert (HndT : NoDup (getStoredProperties TreeClass))
    by (repeat constructor; simpl; intuition discriminate).
  assert (Hmany : 2 <= List.length
                         (filter (isRecursiveLink TreeClass)
                                 (getStoredProperties TreeClass)))
    by (simpl; lia).
  split; [|split].
  - exact (proj1 (proj2 (findRecursiveLinks_at_most_one NodeClass HndN)) _ eq_refl).
  - exact (proj1 (proj2 (proj2 (findRecursiveLinks_at_most_one TreeClass HndT)) Hmany)).
  - intros selfValue s.
    destruct (proj2 (proj2 (proj2 (findRecursiveLinks_at_most_one TreeClass HndT)) Hmany)
                selfValue s 0 eq_refl eq_refl)
      as (code & n' & Hrun & _ & Hall).
    exists code, n'. split; [exact Hrun|]. split.
    + apply Hall. simpl. tauto.
    + apply Hall. simpl. tauto.
Defined.

(** C9.  The is-remote branch is emitted at most once per deallocation
    chain.  When the class is not a distributed actor, or [isIsolated] is
    set, the wrapper is the local deinit followed by the return, whatever
    the local deinit is.  The deallocating destructor holds the branch once
    when the class is a distributed actor and [isIsolated] is not set, and
    not at all otherwise.  The isolating destructor and the isolated
    deallocator it schedules (the deallocating destructor with [isIsolated]
    set) hold the branch once between them for a distributed actor, and not
    at all otherwise. *)
Theorem remote_branch_emitted_at_most_once dd cd conv prof :
  getSelfNominalTypeDecl dd = NominalClass cd ->
  (forall selfValue isIsolated emitLocalDeinit s,
     isIsolated || negb (isDistributedActor cd) = true ->
     emitDistributedRemoteActorDeinit selfValue dd isIsolated emitLocalDeinit s =
     (emitLocalDeinit ;; t <- emitEmptyTuple ;; createReturn t) s) /\
  (forall isIsolated,
     exists l,
       emitFunction conv prof (emitDeallocatingClassDestructor dd isIsolated) = Some l /\
       countKind KDistributedIfRemoteBranch (kinds l) =
       if isDistributedActor cd && negb isIsolated then 1 else 0) /\
  (hasExecutor (ddIsolation dd) = true ->
   exists wrapper deallocator,
     emitFunction conv prof (emitIsolatingDestructor dd) = Some wrapper /\
     emitFunction conv prof (emitDeallocatingClassDestructor dd true) = Some deallocator /\
     countKind KDistributedIfRemoteBranch (kinds wrapper)
     + countKind KDistributedIfRemoteBranch (kinds deallocator)
     = (if isDistributedActor cd then 1 else 0)).
Proof.
  intro Hc.
  assert (Hlocal : forall isIsolated,
             isIsolated || negb (isDistributedActor cd) = true ->
             exists l,
               emitFunction conv prof (emitDeallocatingClassDestructor dd isIsolated)
               = Some l /\
               countKind KDistributedIfRemoteBranch (kinds l) = 0).
  { intros isIsolated H.
    destruct (emitDeallocatingClassDestructor_local dd conv prof isIsolated Hc H)
      as (pre & n & Hl & Hpre).
    eexists. split; [exact Hl|]. subst pre.
    destruct (requiresUnavailableDeclABICompatibilityStubs dd); reflexivity. }
  split; [|split].
  - intros selfValue isIsolated emitLocalDeinit s H.
    unfold emitDistributedRemoteActorDeinit. rewrite Hc.
    unfold castClassDecl. unfold bind at 1. unfold ret at 1.
    now rewrite H.
  - intros [|].
    + destruct (Hlocal true eq_refl) as (l & Hl & Hn).
      exists l. split; [exact Hl|]. now rewrite andb_false_r.
    + destruct (isDistributedActor cd) eqn:Hd.
      * destruct (emitDeallocatingClassDestructor_remote dd conv prof Hc Hd)
          as (l & n & nl & nt & Hl & _ & _ & _ & _ & Hn).
        exists l. split; [exact Hl | exact Hn].
      * destruct (Hlocal false) as (l & Hl & Hn); [reflexivity|].
        exists l. split; [exact Hl | exact Hn].
  - intro He.
    destruct (emitIsolatingDestructor_branches dd conv prof Hc He) as (w & Hw & Hnw).
    destruct (Hlocal true eq_refl) as (d & Hd' & Hnd).
    exists w, d. split; [exact Hw|]. split; [exact Hd'|].
    rewrite Hnw, Hnd. apply Nat.add_0_r.
Qed.

Lemma remote_branch_emitted_at_most_once_witness :
  exists wrapper deallocator,
    emitFunction Owned false
      (emitIsolatingDestructor (sampleDestructor WorkerActor ActorInstance))
    = Some wrapper /\
    emitFunction Owned false
      (emitDeallocatingClassDestructor (sampleDestructor WorkerActor ActorInstance) true)
    = Some deallocator /\
    countKind KDistributedIfRemoteBranch (kinds wrapper)
    + countKind KDistributedIfRemoteBranch (kinds deallocator) = 1.
Proof.
  exact (proj2 (proj2 (remote_branch_emitted_at_most_once
                         (sampleDestructor WorkerActor ActorInstance)
                         Owned false eq_refl)) eq_refl).
Defined.

(** C6.  The local path of the deallocating class destructor is, in
    order: a direct reference to the destroying destructor of the class
    itself; the call of it on a borrow of self, which yields the handle;
    the end of that borrow; [end_lifetime] on the self the function
    received; the cast of the handle to the class type; [dealloc_ref] on
    the cast handle.  Nothing but the unavailable-code stub comes before
    it in its block. *)
Theorem deallocating_local_path dd cd conv prof isIsolated :
  getSelfNominalTypeDecl dd = NominalClass cd ->
  exists l localBB before after dtor borrowed handle casted,
    emitFunction conv prof (emitDeallocatingClassDestructor dd isIsolated) = Some l /\
    localBB = (if isIsolated || negb (isDistributedActor cd) then 0 else 3) /\
    blockInsts localBB l =
      before
      ++ [FunctionRefInst {| declRefName := className cd; declRefKind := Destroyer |};
          BeginBorrowInst (selfArgument cd conv) false;
          ApplyInst dtor None [borrowed];
          EndBorrowInst borrowed;
          EndLifetimeInst (selfArgument cd conv);
          UncheckedRefCastInst handle;
          DeallocRefInst casted]
      ++ after /\
    definedBy dtor
      (FunctionRefInst {| declRefName := className cd; declRefKind := Destroyer |}) /\
    definedBy borrowed (BeginBorrowInst (selfArgument cd conv) false) /\
    getOwnershipKind borrowed = Guaranteed /\
    definedBy handle (ApplyInst dtor None [borrowed]) /\
    definedBy casted (UncheckedRefCastInst handle) /\
    getType casted = ObjectTy (ClassType (className cd)) /\
    Forall (fun i => i = UnavailableCodeReached) before.
Proof.
  intro Hc.
  destruct (isIsolated || negb (isDistributedActor cd)) eqn:Hcase.
  - destruct (emitDeallocatingClassDestructor_local dd conv prof isIsolated Hc Hcase)
      as (pre & n & Hl & Hpre).
    destruct (deallocatingLocalCode_shape 0 n cd conv)
      as (dtor & borrowed & handle & casted & Hlist & Hfacts).
    exists (pre ++ deallocatingLocalCode 0 n (selfArgument cd conv) cd
                ++ [place 0 (7 + n) (TupleInst []);
                    place 0 (8 + n) (ReturnInst (emptyTupleAt (7 + n)))]),
           0, (listing pre),
           [TupleInst []; ReturnInst (emptyTupleAt (7 + n))],
           dtor, borrowed, handle, casted.
    split; [exact Hl|]. split; [reflexivity|]. split.
    { rewrite blockInsts_app, blockInsts_app, <- Hlist. subst pre.
      destruct (requiresUnavailableDeclABICompatibilityStubs dd); reflexivity. }
    repeat (split; [apply Hfacts|]).
    subst pre.
    destruct (requiresUnavailableDeclABICompatibilityStubs dd); repeat constructor.
  - apply orb_false_iff in Hcase. destruct Hcase as [-> Hd].
    apply negb_false_iff in Hd.
    destruct (emitDeallocatingClassDestructor_remote dd conv prof Hc Hd)
      as (l & n & nl & nt & Hl & _ & _ & H3 & _).
    destruct (deallocatingLocalCode_shape 3 nl cd conv)
      as (dtor & borrowed & handle & casted & Hlist & Hfacts).
    exists l, 3, [], [BranchInst 2], dtor, borrowed, handle, casted.
    split; [exact Hl|]. split; [reflexivity|].
    split; [now rewrite H3, Hlist|].
    repeat (split; [apply Hfacts|]).
    constructor.
Qed.

Lemma deallocating_local_path_witness :
  exists l before after dtor borrowed handle casted,
    emitFunction Owned false
      (emitDeallocatingClassDestructor (sampleDestructor WorkerActor Unspecified) false)
    = Some l /\
    blockInsts 3 l =
      before
      ++ [FunctionRefInst {| declRefName := "Worker"; declRefKind := Destroyer |};
          BeginBorrowInst (selfArgument WorkerActor Owned) false;
          ApplyInst dtor None [borrowed];
          EndBorrowInst borrowed;
          EndLifetimeInst (selfArgument WorkerActor Owned);
          UncheckedRefCastInst handle;
          DeallocRefInst casted]
      ++ after.
Proof.
  destruct (deallocating_local_path (sampleDestructor WorkerActor Unspecified)
              Owned false false eq_refl)
    as (l & localBB & before & after & dtor & borrowed & handle & casted
        & Hl & -> & Hb & _).
  exists l, before, after, dtor, borrowed, handle, casted. split; assumption.
Defined.

(** C3.  On the remote-proxy branch of the deallocating destructor of a
    distributed actor (the path taken from the entry block when the
    instance is a remote proxy), the executed code holds neither the user
    body nor a call nor a reference to a function, so the destroying form
    is not run; every [destroy_addr] on it destroys a stored field named
    [id] or [actorSystem], and no other stored field is addressed; every
    stored field of one of these two names that is not trivial and not
    isolated to the actor instance is destroyed in place, on the borrow of
    self; the only builtin is the teardown of the default actor, present
    exactly when the class is a root default actor; all of this comes
    before the one [dealloc_ref], which is on self and is followed only by
    the branch to the finish block and the return. *)
Theorem remote_branch_destroys_only_identity dd cd conv prof e :
  getSelfNominalTypeDecl dd = NominalClass cd ->
  isDistributedActor cd = true ->
  exists l path before nt borrowed,
    emitFunction conv prof (emitDeallocatingClassDestructor dd false) = Some l /\
    executedFrom 3 {| isRemoteProxy := true; enumCase := e |} l 0 = Some path /\
    Forall (fun i => In (getKind i)
                        [KUnavailableCodeReached; KDistributedIfRemoteBranch;
                         KBeginBorrow; KRefElementAddr; KBeginAccess; KDestroyAddr;
                         KEndAccess; KBuiltin; KEndBorrow; KDeallocRef; KBranch;
                         KTuple; KReturn]) path /\
    (forall i, In i path -> getKind i = KDestroyAddr ->
               exists vd, destroyedField i = Some vd /\
                          In vd (getStoredProperties cd) /\
                          (getBaseIdentifier vd = Id_id \/
                           getBaseIdentifier vd = Id_actorSystem)) /\
    (forall base f, In (RefElementAddrInst base f) path ->
                    In f (getStoredProperties cd) /\
                    (getBaseIdentifier f = Id_id \/
                     getBaseIdentifier f = Id_actorSystem)) /\
    (forall i, In i path -> getKind i = KBuiltin ->
               isDestroyDefaultActor i = true /\ isRootDefaultActor cd = true) /\
    (isRootDefaultActor cd = true ->
     exists i, In i before /\ isDestroyDefaultActor i = true) /\
    definedBy borrowed (BeginBorrowInst (selfArgument cd conv) false) /\
    (forall vd, In vd (getStoredProperties cd) ->
                varIsolation vd <> ActorInstance ->
                getBaseIdentifier vd = Id_id \/ getBaseIdentifier vd = Id_actorSystem ->
                isTrivial (getInterfaceType vd) = false ->
                destroysInPlace borrowed vd before /\
                exists i, In i before /\ destroyedField i = Some vd) /\
    Forall (fun i => getKind i <> KDeallocRef) before /\
    path = before ++ [DeallocRefInst (selfArgument cd conv); BranchInst 2;
                      TupleInst []; ReturnInst (emptyTupleAt nt)].
Proof.
  intros Hc Hd.
  destruct (emitDeallocatingClassDestructor_remote dd conv prof Hc Hd)
    as (l & _ & _ & _ & Hl & _).
  destruct (remote_path_borrowed dd conv prof e Hc Hd Hl)
    as (n & bv & nt & Hbv & Hpath).
  pose proof (fun i path => @remote_path_cases dd cd conv prof l e path i Hc Hd Hl)
    as Hcases.
  match type of Hpath with
  | _ = Some (?before ++ ?rest) =>
      exists l, (before ++ rest), before, nt, (borrowOf n (selfArgument cd conv))
  end.
  split; [exact Hl|]. split; [exact Hpath|].
  split; [|split; [|split; [|split; [|split; [|split; [|split; [|split]]]]]]].
  - apply Forall_forall. intros i Hi.
    destruct (Hcases i _ Hpath Hi) as [(_ & Hk & _) | (bv' & p & Hm & <-)].
    + simpl in Hk. simpl. tauto.
    + apply memberInst_kind in Hm. simpl in Hm. simpl. tauto.
  - intros i Hi Hk.
    destruct (Hcases i _ Hpath Hi) as [((_ & Hnd & _) & _) | (bv' & p & Hm & <-)].
    + contradiction.
    + destruct (memberInst_destroyed Hm Hk) as (vd & Hin & Hs & _ & Hf).
      exists vd. split; [exact Hf|]. split; [exact Hin|].
      now apply remoteSkips_false.
  - intros base f Hi.
    destruct (Hcases _ _ Hpath Hi) as [((_ & _ & Hnr) & _) | (bv' & p & Hm & Hp)].
    + now contradiction Hnr.
    + destruct (memberInst_addressed Hm Hp) as (Hin & Hs & _).
      split; [exact Hin|]. now apply remoteSkips_false.
  - intros i Hi Hk.
    destruct (Hcases i _ Hpath Hi) as [(_ & _ & Hb) | (bv' & p & Hm & <-)].
    + now apply Hb.
    + apply memberInst_kind in Hm. rewrite Hk in Hm. simpl in Hm.
      intuition discriminate.
  - intro Hroot. rewrite Hroot.
    exists (BuiltinInst "destroyDefaultActor" [borrowOf n (selfArgument cd conv)]).
    split; [|reflexivity].
    apply in_or_app. right. apply in_or_app. right. apply in_or_app. left.
    now left.
  - unfold definedBy, borrowOf. do 3 eexists. reflexivity.
  - intros vd Hin Hiso Hname Htriv.
    pose proof (remoteSkips_named vd Hiso Hname) as Hs. split.
    + pose proof (@membersCode_destroysInPlace remoteSkips 1 bv _ vd Hin Hs Htriv (S n))
        as H.
      rewrite Hbv in H. apply destroysInPlace_app. exact H.
    + destruct (membersCode_complete remoteSkips 1 bv _ vd Hin Hs Htriv (S n))
        as (p & Hp & Hf).
      exists (placedInst p). split; [|exact Hf].
      apply in_or_app. right. apply in_or_app. left.
      unfold listing. now apply in_map.
  - apply Forall_app. split.
    { destruct (requiresUnavailableDeclABICompatibilityStubs dd);
        repeat constructor; discriminate. }
    apply Forall_app. split.
    { apply Forall_forall. intros i Hi. apply In_listing in Hi.
      destruct Hi as (p & Hp & <-).
      pose proof (membersCode_insts remoteSkips 1 bv (getStoredProperties cd) (S n))
        as H.
      rewrite Forall_forall in H. apply H in Hp.
      apply memberInst_kind in Hp. intro Hk. rewrite Hk in Hp. simpl in Hp.
      intuition discriminate. }
    apply Forall_app. split.
    { destruct (isRootDefaultActor cd); repeat constructor; discriminate. }
    repeat constructor. discriminate.
  - reflexivity.
Qed.

Lemma remote_branch_destroys_only_identity_witness :
  exists l path before nt borrowed,
    emitFunction Owned false
      (emitDeallocatingClassDestructor (sampleDestructor WorkerActor Unspecified) false)
    = Some l /\
    executedFrom 3 {| isRemoteProxy := true; enumCase := OptionalNoneDecl |} l 0
    = Some path /\
    destroysInPlace borrowed
      (sampleField "id" (OtherType "ActorID" false) Nonisolated) before /\
    destroysInPlace borrowed
      (sampleField "actorSystem" (OtherType "ActorSystem" false) Nonisolated) before /\
    Forall (fun i => getKind i <> KDeallocRef) before /\
    path = before ++ [DeallocRefInst (selfArgument WorkerActor Owned); BranchInst 2;
                      TupleInst []; ReturnInst (emptyTupleAt nt)].
Proof.
  destruct (remote_branch_destroys_only_identity
              (sampleDestructor WorkerActor Unspecified) Owned false
              OptionalNoneDecl eq_refl eq_refl)
    as (l & path & before & nt & borrowed & Hl & Hp & _ & _ & _ & _ & _ & _
        & Hlow & Hnd & Hend).
  exists l, path, before, nt, borrowed.
  split; [exact Hl|]. split; [exact Hp|].
  split; [apply Hlow; [simpl; tauto | discriminate | now left | reflexivity]|].
  split; [apply Hlow; [simpl; tauto | discriminate | now right | reflexivity]|].
  split; [exact Hnd | exact Hend].
Defined.

(** C10.  On the remote-proxy branch a stored property isolated to the
    actor instance is never touched, whatever its name: every field that is
    addressed or destroyed there is not isolated to the actor instance and
    is named [id] or [actorSystem]; and every non-trivial stored property
    that is not isolated to the actor instance and bears one of the two
    names is destroyed there. *)
Theorem remote_branch_skips_isolated_fields dd cd conv prof e :
  getSelfNominalTypeDecl dd = NominalClass cd ->
  isDistributedActor cd = true ->
  exists l path,
    emitFunction conv prof (emitDeallocatingClassDestructor dd false) = Some l /\
    executedFrom 3 {| isRemoteProxy := true; enumCase := e |} l 0 = Some path /\
    (forall i f, In i path -> destroyedField i = Some f ->
                 varIsolation f <> ActorInstance /\
                 (getBaseIdentifier f = Id_id \/ getBaseIdentifier f = Id_actorSystem)) /\
    (forall base f, In (RefElementAddrInst base f) path ->
                    varIsolation f <> ActorInstance /\
                    (getBaseIdentifier f = Id_id \/ getBaseIdentifier f = Id_actorSystem)) /\
    (forall vd, In vd (getStoredProperties cd) ->
                varIsolation vd = ActorInstance ->
                forall i, In i path ->
                          destroyedField i <> Some vd /\
                          (forall base, i <> RefElementAddrInst base vd)) /\
    (forall vd, In vd (getStoredProperties cd) ->
                varIsolation vd <> ActorInstance ->
                getBaseIdentifier vd = Id_id \/ getBaseIdentifier vd = Id_actorSystem ->
                isTrivial (getInterfaceType vd) = false ->
                exists i, In i path /\ destroyedField i = Some vd).
Proof.
  intros Hc Hd.
  destruct (emitDeallocatingClassDestructor_remote dd conv prof Hc Hd)
    as (l & _ & _ & _ & Hl & _).
  destruct (remote_path_insts dd conv prof e Hc Hd Hl) as (n & bv & nt & Hpath).
  pose proof (fun i path => @remote_path_cases dd cd conv prof l e path i Hc Hd Hl)
    as Hcases.
  match type of Hpath with _ = Some ?p => remember p as path eqn:Epath end.
  assert (Hdestroyed : forall i f, In i path -> destroyedField i = Some f ->
            varIsolation f <> ActorInstance /\
            (getBaseIdentifier f = Id_id \/ getBaseIdentifier f = Id_actorSystem)).
  { intros i f Hi Hf.
    destruct (Hcases i _ Hpath Hi) as [((Hnone & _) & _) | (bv' & p & Hm & <-)].
    - rewrite Hnone in Hf. discriminate Hf.
    - assert (Hk : getKind (placedInst p) = KDestroyAddr)
        by (destruct (placedInst p); try discriminate Hf; reflexivity).
      destruct (memberInst_destroyed Hm Hk) as (vd & _ & Hs & _ & Hf').
      rewrite Hf in Hf'. injection Hf' as ->. now apply remoteSkips_false. }
  assert (Haddressed : forall base f, In (RefElementAddrInst base f) path ->
            varIsolation f <> ActorInstance /\
            (getBaseIdentifier f = Id_id \/ getBaseIdentifier f = Id_actorSystem)).
  { intros base f Hi.
    destruct (Hcases _ _ Hpath Hi) as [((_ & _ & Hnr) & _) | (bv' & p & Hm & Hp)].
    - now contradiction Hnr.
    - destruct (memberInst_addressed Hm Hp) as (_ & Hs & _).
      now apply remoteSkips_false. }
  exists l, path. split; [exact Hl|]. split; [exact Hpath|].
  split; [exact Hdestroyed|]. split; [exact Haddressed|]. split.
  - intros vd _ Hiso i Hi. split.
    + intro Hf. now destruct (Hdestroyed i vd Hi Hf).
    + intros base ->. now destruct (Haddressed base vd Hi).
  - intros vd Hin Hiso Hname Htriv.
    assert (Hs : remoteSkips vd = false).
    { unfold remoteSkips. apply orb_false_iff. split.
      - destruct (ActorIsolation_eqb _ _) eqn:E; [|reflexivity].
        apply ActorIsolation_eqb_eq in E. contradiction.
      - apply negb_false_iff, orb_true_iff.
        destruct Hname as [-> | ->]; [left | right]; apply String.eqb_refl. }
    destruct (membersCode_complete remoteSkips 1 bv _ vd Hin Hs Htriv (S n))
      as (p & Hp & Hf).
    exists (placedInst p). split; [|exact Hf]. subst path.
    apply in_or_app. right. apply in_or_app. left.
    unfold listing. now apply in_map.
Qed.

Lemma remote_branch_skips_isolated_fields_witness :
  exists l path,
    emitFunction Owned false
      (emitDeallocatingClassDestructor (sampleDestructor WorkerActor Unspecified) false)
    = Some l /\
    executedFrom 3 {| isRemoteProxy := true; enumCase := OptionalNoneDecl |} l 0
    = Some path /\
    forall i, In i path ->
      destroyedField i <> Some (sampleField "id" (OtherType "String" false) ActorInstance).
Proof.
  destruct (remote_branch_skips_isolated_fields
              (sampleDestructor WorkerActor Unspecified) Owned false
              OptionalNoneDecl eq_refl eq_refl)
    as (l & path & Hl & Hp & _ & _ & Hskip & _).
  exists l, path. split; [exact Hl|]. split; [exact Hp|].
  intros i Hi.
  refine (proj1 (Hskip (sampleField "id" (OtherType "String" false) ActorInstance)
                       _ eq_refl i Hi)).
  simpl. tauto.
Defined.

(** C1 (as amended).  When the class has a superclass and is not a native
    [NSObject] subclass, and the body can fall through to the epilog, the
    destroying destructor calls the destroying destructor of the superclass
    on self exactly once: the call is the only call of the listing, it sits
    in the entry block, which no instruction branches to; it comes after
    the user body, before the resignID call of a distributed actor, and
    before all of the member destruction. *)
Theorem superclass_destructor_called_once dd cd prof :
  getSelfNominalTypeDecl dd = NominalClass cd ->
  bodyFallsThrough dd = true ->
  callsSuperclassDestructor cd = true ->
  exists l head bv n tail call iBody iCall,
    emitFunction Guaranteed prof (emitDestroyingDestructor dd) = Some l /\
    l = head ++ classMemberCode 0 n 1 bv cd ++ tail /\
    countKind KApply (kinds l) = 1 /\
    indexOfKind KApply (kinds l) = Some iCall /\
    nth_error l iCall = Some call /\
    isSuperclassDestructorCall cd Guaranteed (placedInst call) /\
    placedBB call = 0 /\
    (forall p b, In p l -> In b (successors (placedInst p)) -> b <> 0) /\
    countKind KUserBody (kinds l) = 1 /\
    indexOfKind KUserBody (kinds l) = Some iBody /\
    iBody < iCall /\
    countKind KDistributedActorSystemResignIDCall (kinds l)
    = (if isDistributedActor cd then 1 else 0) /\
    (forall iResign,
       indexOfKind KDistributedActorSystemResignIDCall (kinds l) = Some iResign ->
       iCall < iResign) /\
    iCall < List.length head.
Proof.
  intros Hc Hf Hsuper.
  destruct (emitDestroyingDestructor_kinds dd prof Hc Hf)
    as (l & head & bv & n & tail & Hl & Hsplit & Hk & Hh & Hcall & _ & Hsucc).
  assert (Hpos : exists iBody iCall,
             indexOfKind KUserBody (kinds l) = Some iBody /\
             indexOfKind KApply (kinds l) = Some iCall /\
             iBody < iCall /\ iCall < List.length head /\
             countKind KApply (kinds l) = 1 /\
             countKind KUserBody (kinds l) = 1 /\
             countKind KDistributedActorSystemResignIDCall (kinds l)
             = (if isDistributedActor cd then 1 else 0) /\
             (forall iResign,
                indexOfKind KDistributedActorSystemResignIDCall (kinds l)
                = Some iResign -> iCall < iResign)).
  { rewrite <- (kinds_length head), Hh, Hk. clear Hk Hh Hsplit Hcall Hsucc.
    unfold destroyingHeadKinds, destroyingPrologKinds, destroyingTailKinds.
    rewrite Hsuper.
    destruct (requiresUnavailableDeclABICompatibilityStubs dd),
      (hasExecutor (ddIsolation dd)), prof, (isDistributedActor cd) eqn:Hd;
      cbn [app indexOfKind SILInstructionKind_beq option_map List.length];
      do 2 eexists;
      (split; [reflexivity|]); (split; [reflexivity|]);
      (split; [lia|]); (split; [lia|]);
      (split; [calc_kinds; reflexivity|]);
      (split; [calc_kinds; reflexivity|]);
      (split; [calc_kinds; reflexivity|]);
      intros iResign Hi;
      first [ injection Hi as <-; lia
            | rewrite countKind_zero_index in Hi by (calc_kinds; reflexivity);
              discriminate Hi ]. }
  destruct Hpos as (iBody & iCall & HiB & HiC & Hlt & Hhead & HnA & HnB & HnR & HiR).
  destruct (kinds_nth l iCall (indexOfKind_nth _ _ HiC)) as (call & Hnth & Hkind).
  destruct (Hcall call (nth_error_In _ _ Hnth) Hkind) as (Hiscall & Hbb).
  exists l, head, bv, n, tail, call, iBody, iCall.
  repeat (split; [assumption|]).
  split.
  { intros p b Hp Hb ->. specialize (Hsucc p 0 Hp Hb). lia. }
  repeat (split; [assumption|]). assumption.
Qed.

Lemma superclass_destructor_called_once_witness :
  exists l call iBody iCall,
    emitFunction Guaranteed false
      (emitDestroyingDestructor (sampleDestructor SubActor Unspecified)) = Some l /\
    nth_error l iCall = Some call /\
    isSuperclassDestructorCall SubActor Guaranteed (placedInst call) /\
    indexOfKind KUserBody (kinds l) = Some iBody /\
    iBody < iCall.
Proof.
  destruct (superclass_destructor_called_once
              (sampleDestructor SubActor Unspecified) false eq_refl eq_refl eq_refl)
    as (l & head & bv & n & tail & call & iBody & iCall
        & Hl & _ & _ & _ & Hnth & Hcall & _ & _ & _ & HiB & Hlt & _).
  exists l, call, iBody, iCall. repeat split; assumption.
Defined.

(** C1 as stated fails on two inputs.  For a distributed actor with a
    superclass, the call of the superclass destructor comes before the
    resignID call, not after it.  For an actor that inherits from
    [NSObject], which has a superclass, the destroying destructor holds no
    call at all. *)
Lemma superclass_call_not_after_resignID :
  (exists l iCall iResign,
     emitFunction Guaranteed false
       (emitDestroyingDestructor (sampleDestructor SubActor Unspecified)) = Some l /\
     indexOfKind KApply (kinds l) = Some iCall /\
     indexOfKind KDistributedActorSystemResignIDCall (kinds l) = Some iResign /\
     iCall < iResign) /\
  (exists l,
     emitFunction Guaranteed false
       (emitDestroyingDestructor (sampleDestructor NSObjectActor ActorInstance)) = Some l /\
     hasSuperclass NSObjectActor = true /\
     countKind KApply (kinds l) = 0).
Proof.
  split.
  - eexists _, 3, 6. split; [vm_compute; reflexivity|].
    split; [vm_compute; reflexivity|]. split; [vm_compute; reflexivity | lia].
  - eexists. split; [vm_compute; reflexivity|].
    split; [reflexivity | vm_compute; reflexivity].
Qed.

(** C8.  The destroying destructor never holds a hop to an executor.
    When an executor is computed for the isolation of the destructor, the
    listing holds exactly one check of the expected executor, on the
    executor loaded for that isolation, and the check comes before the user
    body; when no executor is computed, it holds no check and loads no
    executor.  An executor is computed exactly for the isolations that
    [emitExecutor] answers with a value. *)
Theorem executor_checked_not_hopped dd cd prof :
  getSelfNominalTypeDecl dd = NominalClass cd ->
  (forall selfValue s bb,
     insertionBB s = Some bb ->
     (hasExecutor (ddIsolation dd) = true <->
      exists e s', emitExecutor (ddIsolation dd) selfValue s = Some (Some e, s'))) /\
  exists l,
    emitFunction Guaranteed prof (emitDestroyingDestructor dd) = Some l /\
    countKind KHopToExecutor (kinds l) = 0 /\
    countKind KUserBody (kinds l) = 1 /\
    (hasExecutor (ddIsolation dd) = true ->
     countKind KPreconditionCheckExpectedExecutor (kinds l) = 1 /\
     exists iCheck iBody check,
       indexOfKind KPreconditionCheckExpectedExecutor (kinds l) = Some iCheck /\
       indexOfKind KUserBody (kinds l) = Some iBody /\
       iCheck < iBody /\
       nth_error l iCheck = Some check /\
       isExpectedExecutorCheck dd cd Guaranteed (placedInst check)) /\
    (hasExecutor (ddIsolation dd) = false ->
     countKind KPreconditionCheckExpectedExecutor (kinds l) = 0 /\
     countKind KLoadActorExecutor (kinds l) = 0).
Proof.
  intro Hc. split.
  { intros selfValue s bb Hip. unfold emitExecutor, hasExecutor.
    destruct (ddIsolation dd); split; intro H;
      try reflexivity; try discriminate H.
    all: try (destruct H as (e & s' & H); discriminate H).
    all: unfold bind, insertValue, ret; rewrite Hip; eauto. }
  assert (Hgen : exists l rest,
             emitFunction Guaranteed prof (emitDestroyingDestructor dd) = Some l /\
             kinds l = destroyingPrologKinds dd prof ++ [KUserBody] ++ rest /\
             countKind KHopToExecutor rest = 0 /\
             countKind KUserBody rest = 0 /\
             countKind KPreconditionCheckExpectedExecutor rest = 0 /\
             countKind KLoadActorExecutor rest = 0 /\
             (forall p, In p l ->
                getKind (placedInst p) = KPreconditionCheckExpectedExecutor ->
                isExpectedExecutorCheck dd cd Guaranteed (placedInst p))).
  { destruct (bodyFallsThrough dd) eqn:Hf.
    - destruct (emitDestroyingDestructor_kinds dd prof Hc Hf)
        as (l & head & bv & n & tail & Hl & _ & Hk & _ & _ & Hcheck & _).
      exists l. eexists. split; [exact Hl|]. clear Hl.
      split; [rewrite Hk; unfold destroyingHeadKinds; rewrite <- !app_assoc;
              reflexivity|].
      unfold destroyingTailKinds.
      destruct (callsSuperclassDestructor cd), (isDistributedActor cd);
        cbn [app]; (repeat (split; [calc_kinds; reflexivity|])); exact Hcheck.
    - destruct (emitDestroyingDestructor_no_epilog dd prof Hc Hf)
        as (l & Hl & Hk & Hcheck).
      exists l, []. split; [exact Hl|]. split; [exact Hk|].
      repeat (split; [reflexivity|]). exact Hcheck. }
  destruct Hgen as (l & rest & Hl & Hk & HnH & HnB & HnC & HnE & Hcheck).
  exists l. split; [exact Hl|]. clear Hl.
  assert (Hcounts :
            countKind KHopToExecutor (kinds l) = 0 /\
            countKind KUserBody (kinds l) = 1 /\
            countKind KPreconditionCheckExpectedExecutor (kinds l)
            = (if hasExecutor (ddIsolation dd) then 1 else 0) /\
            countKind KLoadActorExecutor (kinds l)
            = (if hasExecutor (ddIsolation dd) then 1 else 0) /\
            (hasExecutor (ddIsolation dd) = true ->
             exists iCheck iBody,
               indexOfKind KPreconditionCheckExpectedExecutor (kinds l) = Some iCheck /\
               indexOfKind KUserBody (kinds l) = Some iBody /\
               iCheck < iBody)).
  { rewrite Hk. unfold destroyingPrologKinds.
    destruct (requiresUnavailableDeclABICompatibilityStubs dd),
      (hasExecutor (ddIsolation dd)), prof;
      cbn [app indexOfKind SILInstructionKind_beq option_map];
      rewrite ?countKind_cons, HnH, HnB, HnC, HnE;
      cbn [SILInstructionKind_beq Nat.add];
      (repeat (split; [reflexivity|]));
      intro He; try discriminate He;
      do 2 eexists; (split; [reflexivity|]); (split; [reflexivity|]); lia. }
  destruct Hcounts as (H1 & H2 & H3 & H4 & H5).
  split; [exact H1|]. split; [exact H2|]. split.
  - intro He. rewrite He in H3. split; [exact H3|].
    destruct (H5 He) as (iCheck & iBody & HiC & HiB & Hlt).
    destruct (kinds_nth l iCheck (indexOfKind_nth _ _ HiC)) as (check & Hnth & Hkind).
    exists iCheck, iBody, check.
    repeat (split; [assumption|]).
    exact (Hcheck check (nth_error_In _ _ Hnth) Hkind).
  - intro He. rewrite He in H3, H4. split; assumption.
Qed.

Lemma executor_checked_not_hopped_witness :
  exists l iCheck iBody,
    emitFunction Guaranteed false
      (emitDestroyingDestructor (sampleDestructor NSObjectActor ActorInstance)) = Some l /\
    countKind KHopToExecutor (kinds l) = 0 /\
    indexOfKind KPreconditionCheckExpectedExecutor (kinds l) = Some iCheck /\
    indexOfKind KUserBody (kinds l) = Some iBody /\
    iCheck < iBody.
Proof.
  destruct (proj2 (executor_checked_not_hopped
                     (sampleDestructor NSObjectActor ActorInstance) false eq_refl))
    as (l & Hl & Hhop & _ & Hcheck & _).
  destruct (Hcheck eq_refl) as (_ & iCheck & iBody & check & HiC & HiB & Hlt & _).
  exists l, iCheck, iBody. repeat split; assumption.
Defined.

(** C4.  The chain loop.  In the current block: the link field of self is
    loaded with [take] and overwritten with the [none] optional, and the
    loaded value is stored into a stack slot; then the loop header switches
    on the slot.  With a link present, [is_unique] is tested on the slot:
    if not unique the loop is left at once; if unique, the link field of
    the node in the slot is loaded with [copy], stored into the slot with
    [assign], and the header is entered again.  Both exits join in the
    block that destroys the slot and deallocates its stack storage. *)
Theorem chain_loop_shape selfValue cd recursiveLink s bb :
  insertionBB s = Some bb ->
  bb < nextBlock s ->
  let cleanBB := nextBlock s in
  let noneBB := 1 + nextBlock s in
  let notUniqueBB := 2 + nextBlock s in
  let uniqueBB := 3 + nextBlock s in
  let someBB := 4 + nextBlock s in
  let loopBB := 5 + nextBlock s in
  exists code none fieldAddr iterAddr access taken isUnique
         iterBorrow node nodeLinkAddr nodeAccess next,
    emitRecursiveChainDestruction selfValue cd recursiveLink s =
    Some (tt, emitted s (25 + nextInst s) (6 + nextBlock s) (Some cleanBB) code) /\
    definedBy none OptionalNoneInst /\
    definedBy fieldAddr (RefElementAddrInst (getValue selfValue) recursiveLink) /\
    definedBy iterAddr AllocStackInst /\
    definedBy access
      (BeginAccessInst fieldAddr AccessModify EnforcementStatic true false) /\
    definedBy taken (LoadInst access LoadTake) /\
    blockInsts bb code =
      [OptionalNoneInst;
       RefElementAddrInst (getValue selfValue) recursiveLink;
       AllocStackInst;
       BeginAccessInst fieldAddr AccessModify EnforcementStatic true false;
       LoadInst access LoadTake;
       StoreInst none access StoreInit;
       EndAccessInst access false;
       StoreInst taken iterAddr StoreInit;
       BranchInst loopBB] /\
    blockInsts loopBB code =
      [SwitchEnumAddrInst iterAddr None
         [(OptionalSomeDecl, someBB); (OptionalNoneDecl, noneBB)]] /\
    definedBy isUnique (IsUniqueInst iterAddr) /\
    blockInsts someBB code =
      [IsUniqueInst iterAddr; CondBranchInst isUnique uniqueBB notUniqueBB] /\
    blockInsts notUniqueBB code = [BranchInst cleanBB] /\
    definedBy iterBorrow (LoadBorrowInst iterAddr) /\
    definedBy node (UncheckedEnumDataInst iterBorrow (elementName OptionalSomeDecl)) /\
    definedBy nodeLinkAddr (RefElementAddrInst node recursiveLink) /\
    definedBy nodeAccess
      (BeginAccessInst nodeLinkAddr AccessRead EnforcementStatic true false) /\
    definedBy next (LoadInst nodeAccess LoadCopy) /\
    blockInsts uniqueBB code =
      [LoadBorrowInst iterAddr;
       UncheckedEnumDataInst iterBorrow (elementName OptionalSomeDecl);
       RefElementAddrInst node recursiveLink;
       BeginAccessInst nodeLinkAddr AccessRead EnforcementStatic true false;
       LoadInst nodeAccess LoadCopy;
       EndAccessInst nodeAccess false;
       EndBorrowInst iterBorrow;
       StoreInst next iterAddr StoreAssign;
       BranchInst loopBB] /\
    blockInsts noneBB code = [BranchInst cleanBB] /\
    blockInsts cleanBB code = [DestroyAddrInst iterAddr; DeallocStackInst iterAddr].
Proof.
  intros Hip Hlt. cbv zeta.
  rewrite (emitRecursiveChainDestruction_run selfValue cd recursiveLink s Hip).
  generalize dependent (nextBlock s). generalize (nextInst s). intros n nb Hlt.
  unfold chainCode, codeOf, standingAt, emitRecursiveChainDestruction.
  silgen. cbn [app].
  do 12 eexists.
  split; [reflexivity|].
  unfold definedBy.
  do 5 (split; [do 3 eexists; reflexivity|]).
  split; [calc_chain_block|].
  split; [calc_chain_block|].
  split; [do 3 eexists; reflexivity|].
  split; [calc_chain_block|].
  split; [calc_chain_block|].
  do 5 (split; [do 3 eexists; reflexivity|]).
  split; [calc_chain_block|].
  split; [calc_chain_block|].
  calc_chain_block.
Qed.

Lemma chain_loop_shape_witness :
  exists code iterAddr,
    emitRecursiveChainDestruction
      (forBorrowedRValue (selfArgument NodeClass Guaranteed)) NodeClass
      (sampleField "next" (OptionalType (ClassType "Node")) Unspecified)
      (standingAt 0 0 1)
    = Some (tt, emitted (standingAt 0 0 1) 25 7 (Some 1) code) /\
    blockInsts 1 code = [DestroyAddrInst iterAddr; DeallocStackInst iterAddr].
Proof.
  destruct (chain_loop_shape
              (forBorrowedRValue (selfArgument NodeClass Guaranteed)) NodeClass
              (sampleField "next" (OptionalType (ClassType "Node")) Unspecified)
              (standingAt 0 0 1) (bb := 0) eq_refl (le_n 1))
    as (code & none & fieldAddr & iterAddr & access & taken & isUnique
        & iterBorrow & node & nodeLinkAddr & nodeAccess & next & Hrun & H).
  exists code, iterAddr. split; [exact Hrun|].
  apply H.
Defined.

(** C7.  Destroying a consumed enum held in memory.  The value the code
    dispatches on is the result of a [drop_deinit]: self itself if it is
    one already, the [drop_deinit] of self emitted first otherwise.  The
    current block ends in a [switch_enum_addr] on that value with one
    case per element of the enum, in order.  The block of a case takes the
    payload out and destroys it if the case has associated values, and
    then branches to the one continuation block, where the emitter goes
    on.  For a run-time case [e], the executed code is the current block
    followed by the block of [e]: it holds the payload destroy of [e]
    exactly when [e] has associated values, and of no other case. *)
Theorem enum_destruction_dispatch selfValue ed s bb remote :
  insertionBB s = Some bb ->
  bb < nextBlock s ->
  isObject (getType selfValue) = false ->
  NoDup (getAllElements ed) ->
  let contBlock := nextBlock s in
  exists code subject cases n' nb',
    emitMoveOnlyMemberDestruction selfValue (NominalEnum ed) s =
    Some (tt, emitted s n' nb' (Some contBlock) code) /\
    isaDropDeinitInst subject = true /\
    (if isaDropDeinitInst selfValue then subject = selfValue
     else definedBy subject (DropDeinitInst selfValue)) /\
    blockInsts bb code =
      (if isaDropDeinitInst selfValue then [] else [DropDeinitInst selfValue])
      ++ [SwitchEnumAddrInst subject None cases] /\
    map fst cases = getAllElements ed /\
    (forall e caseBB,
       In (e, caseBB) cases ->
       exists take,
         definedBy take (UncheckedTakeEnumDataAddrInst subject e) /\
         blockInsts caseBB code = caseBlockInsts contBlock subject take e) /\
    blockInsts contBlock code = [] /\
    (forall e,
       In e (getAllElements ed) ->
       exists take path,
         definedBy take (UncheckedTakeEnumDataAddrInst subject e) /\
         executedFrom 3 {| isRemoteProxy := remote; enumCase := e |} code bb
         = Some path /\
         path = blockInsts bb code ++ caseBlockInsts contBlock subject take e /\
         (hasAssociatedValues e = true ->
          In (UncheckedTakeEnumDataAddrInst subject e) path /\
          In (DestroyAddrInst take) path) /\
         (forall i e', In i path -> takenCase i = Some e' ->
                       e' = e /\ hasAssociatedValues e = true) /\
         (hasAssociatedValues e = false ->
          forall i, In i path -> getKind i <> KDestroyAddr)).
Proof.
  intros Hip Hlt Hobj Hnd contBlock. subst contBlock.
  rewrite (emitMoveOnlyMemberDestruction_enum selfValue ed s Hip Hobj).
  set (subject := droppedSelf (nextInst s) selfValue).
  set (n1 := if isaDropDeinitInst selfValue then nextInst s else S (nextInst s)).
  set (nb := nextBlock s) in *.
  set (cases := enumCasesCode nb (S nb) n1 subject (getAllElements ed)).
  set (table := caseTable (S nb) (getAllElements ed)).
  set (pre := if isaDropDeinitInst selfValue then []
              else [place bb (nextInst s) (DropDeinitInst selfValue)]).
  set (code := pre ++ cases
               ++ [place bb (n1 + List.length cases)
                         (SwitchEnumAddrInst subject None table)]).
  assert (Hbb : blockInsts bb code =
                (if isaDropDeinitInst selfValue then []
                 else [DropDeinitInst selfValue])
                ++ [SwitchEnumAddrInst subject None table]).
  { unfold code, pre. rewrite !blockInsts_app.
    unfold cases. rewrite enumCasesCode_before by lia.
    destruct (isaDropDeinitInst selfValue);
      rewrite ?blockInsts_cons, ?blockInsts_nil; cbn [placedBB place placedInst];
      rewrite Nat.eqb_refl; reflexivity. }
  assert (Hother : forall b, b <> bb ->
                             blockInsts b code = blockInsts b cases).
  { intros b Hne. unfold code, pre. rewrite !blockInsts_app.
    assert (E : Nat.eqb bb b = false) by (apply Nat.eqb_neq; congruence).
    destruct (isaDropDeinitInst selfValue);
      rewrite ?blockInsts_cons, ?blockInsts_nil; cbn [placedBB place placedInst];
      rewrite E; cbn [app]; now rewrite app_nil_r. }
  assert (Hcase : forall e caseBB,
             In (e, caseBB) table ->
             exists take,
               definedBy take (UncheckedTakeEnumDataAddrInst subject e) /\
               blockInsts caseBB code = caseBlockInsts nb subject take e).
  { intros e caseBB Hin.
    pose proof (caseTable_ge _ _ _ _ Hin) as Hge.
    destruct (enumCasesCode_case nb subject (getAllElements ed) (S nb) n1 e caseBB Hin)
      as (m & Hm).
    exists (takenPayload m subject e). split.
    - unfold definedBy, takenPayload. do 3 eexists. reflexivity.
    - rewrite Hother by lia. exact Hm. }
  assert (Hcont : blockInsts nb code = []).
  { rewrite Hother by lia. apply enumCasesCode_before. lia. }
  exists code, subject, table. do 2 eexists.
  split; [reflexivity|].
  split; [apply droppedSelf_isDropDeinit|].
  split.
  { unfold subject, droppedSelf. destruct (isaDropDeinitInst selfValue);
      [reflexivity | unfold definedBy; do 3 eexists; reflexivity]. }
  split; [exact Hbb|].
  split; [apply caseTable_fst|].
  split; [exact Hcase|].
  split; [exact Hcont|].
  intros e He.
  destruct (caseTable_complete (S nb) _ e He) as (caseBB & Hin).
  destruct (Hcase e caseBB Hin) as (take & Htake & Hblock).
  exists take. eexists. split; [exact Htake|].
  assert (Hpath : executedFrom 3 {| isRemoteProxy := remote; enumCase := e |} code bb
                  = Some (blockInsts bb code ++ caseBlockInsts nb subject take e)).
  { cbn [executedFrom].
    assert (L0 : last (blockInsts bb code) (TupleInst []) =
                 SwitchEnumAddrInst subject None table)
      by (rewrite Hbb; now rewrite last_app_nonempty by discriminate).
    rewrite L0. cbn [transfer enumCase].
    unfold table at 1. rewrite (@switchDest_caseTable (S nb) _ e caseBB Hnd Hin).
    rewrite Hblock, caseBlockInsts_last. cbn [transfer].
    rewrite Hcont. cbn [last transfer]. now rewrite app_nil_r. }
  split; [exact Hpath|]. split; [reflexivity|].
  split; [|split].
  - intro Ha. unfold caseBlockInsts. rewrite Ha.
    split; apply in_or_app; right; cbn; tauto.
  - intros i e' Hi Ht. apply in_app_or in Hi. destruct Hi as [Hi | Hi].
    + rewrite Hbb in Hi. exfalso.
      destruct (isaDropDeinitInst selfValue); cbn in Hi;
        repeat (destruct Hi as [<- | Hi]; [discriminate Ht|]); contradiction.
    + unfold caseBlockInsts in Hi.
      destruct (hasAssociatedValues e); cbn in Hi;
        repeat (destruct Hi as [<- | Hi];
                [first [discriminate Ht | injection Ht as <-; now split]|]);
        contradiction.
  - intros Ha i Hi. apply in_app_or in Hi. destruct Hi as [Hi | Hi].
    + rewrite Hbb in Hi.
      destruct (isaDropDeinitInst selfValue); cbn in Hi;
        repeat (destruct Hi as [<- | Hi]; [discriminate|]); contradiction.
    + unfold caseBlockInsts in Hi. rewrite Ha in Hi. cbn in Hi.
      destruct Hi as [<- | []]. discriminate.
Qed.

Lemma enum_destruction_dispatch_witness :
  exists code take path,
    executedFrom 3
      {| isRemoteProxy := false;
         enumCase := {| elementName := "socket"; hasAssociatedValues := true |} |}
      code 0 = Some path /\
    In (DestroyAddrInst take) path /\
    (forall i e', In i path -> takenCase i = Some e' ->
                  e' = {| elementName := "socket"; hasAssociatedValues := true |}).
Proof.
  destruct (@enum_destruction_dispatch resourceSelf ResourceEnum (standingAt 0 0 1) 0
              false eq_refl (le_n 1) eq_refl)
    as (code & subject & cases & n' & nb' & _ & _ & _ & _ & _ & _ & _ & Hrun).
  { repeat constructor; cbn; intuition discriminate. }
  destruct (Hrun {| elementName := "socket"; hasAssociatedValues := true |})
    as (take & path & _ & Hpath & _ & Hdestroy & Honly & _).
  { cbn. tauto. }
  exists code, take, path. split; [exact Hpath|]. split.
  - exact (proj2 (Hdestroy eq_refl)).
  - intros i e' Hi Ht. exact (proj1 (Honly i e' Hi Ht)).
Defined.

(* ================================================================== *)
(** * Memberwise destruction of a value type                           *)
(* ================================================================== *)

Lemma droppedSelf_dropped n selfValue :
  isaDropDeinitInst (droppedSelf n selfValue) = true /\
  (if isaDropDeinitInst selfValue then droppedSelf n selfValue = selfValue
   else definedBy (droppedSelf n selfValue) (DropDeinitInst selfValue)).
Proof.
  unfold droppedSelf. destruct (isaDropDeinitInst selfValue) eqn:E.
  - split; [exact E | reflexivity].
  - split; [reflexivity|]. do 3 eexists. reflexivity.
Qed.

Lemma droppedSelf_type n selfValue :
  getType (droppedSelf n selfValue) = getType selfValue.
Proof. unfold droppedSelf. now destruct (isaDropDeinitInst selfValue). Qed.

(** X1.  For a self that is a loaded value (an object, not an address),
    [emitMoveOnlyMemberDestruction] emits a [drop_deinit] of self unless
    self is the result of one already, and then one [destroy_value] of the
    dropped self, whatever the nominal type is: no field is addressed, no
    block is created and the builder stays in its block. *)
Theorem moveonly_loaded_self_destroy_value selfValue nom s bb :
  insertionBB s = Some bb ->
  isObject (getType selfValue) = true ->
  exists code subject n',
    emitMoveOnlyMemberDestruction selfValue nom s =
    Some (tt, emitted s n' (nextBlock s) (Some bb) code) /\
    isaDropDeinitInst subject = true /\
    (if isaDropDeinitInst selfValue then subject = selfValue
     else definedBy subject (DropDeinitInst selfValue)) /\
    Forall (fun p => placedBB p = bb) code /\
    listing code =
      (if isaDropDeinitInst selfValue then [] else [DropDeinitInst selfValue])
      ++ [DestroyValueInst subject].
Proof.
  intros Hip Hobj.
  destruct (droppedSelf_dropped (nextInst s) selfValue) as [Hd Hs].
  unfold emitMoveOnlyMemberDestruction.
  destruct s as [conv prof ee cl n nb ip bd]. cbn in Hip. subst ip.
  cbn [nextInst nextBlock] in *.
  exists ((if isaDropDeinitInst selfValue then []
           else [place bb n (DropDeinitInst selfValue)])
          ++ [place bb (if isaDropDeinitInst selfValue then n else S n)
                    (DestroyValueInst (droppedSelf n selfValue))]),
         (droppedSelf n selfValue),
         (S (if isaDropDeinitInst selfValue then n else S n)).
  split; [|split; [exact Hd | split; [exact Hs | split]]].
  - unfold droppedSelf. silgen_in Hobj.
    destruct (isaDropDeinitInst selfValue); silgen; rewrite Hobj; silgen;
      finish_run.
  - destruct (isaDropDeinitInst selfValue); repeat constructor.
  - destruct (isaDropDeinitInst selfValue); reflexivity.
Qed.

(** A loaded resource, consumed by its deinit. *)
Lemma moveonly_loaded_self_destroy_value_witness :
  exists code subject n',
    emitMoveOnlyMemberDestruction
      (SILFunctionArgument 0 (ObjectTy (OtherType "Resource" false)) Owned)
      (NominalEnum ResourceEnum) (newFunction Owned false) =
    Some (tt, emitted (newFunction Owned false) n' 1 (Some 0) code) /\
    isaDropDeinitInst subject = true /\
    definedBy subject
      (DropDeinitInst (SILFunctionArgument 0 (ObjectTy (OtherType "Resource" false)) Owned)) /\
    Forall (fun p => placedBB p = 0) code /\
    listing code =
      [DropDeinitInst (SILFunctionArgument 0 (ObjectTy (OtherType "Resource" false)) Owned);
       DestroyValueInst subject].
Proof.
  exact (@moveonly_loaded_self_destroy_value
           (SILFunctionArgument 0 (ObjectTy (OtherType "Resource" false)) Owned)
           (NominalEnum ResourceEnum) (newFunction Owned false) 0
           eq_refl eq_refl).
Defined.

(** ** A struct in memory *)

Lemma structMember_run selfValue vd s bb :
  insertionBB s = Some bb ->
  (if isTrivial (getInterfaceType vd) then ret tt
   else
     addr <- createStructElementAddr selfValue vd
               (getAddressType (getLoweredType (getInterfaceType vd))) ;;
     addr <- createBeginAccess addr AccessDeinit EnforcementStatic false false ;;
     createDestroyAddr addr ;;
     createEndAccess addr false) s =
  Some (tt, emitted s
              (nextInst s
               + List.length (destroyStructMemberCode bb (nextInst s) selfValue vd))
              (nextBlock s) (Some bb)
              (destroyStructMemberCode bb (nextInst s) selfValue vd)).
Proof.
  intro Hip. unfold destroyStructMemberCode. cbv zeta.
  destruct s as [conv prof ee cl n nb ip bd]. cbn in Hip. subst ip.
  destruct (isTrivial (getInterfaceType vd)).
  - unfold ret, emitted. cbn. now rewrite Nat.add_0_r, app_nil_r.
  - silgen. finish_run.
Qed.

Lemma structLoop_run selfValue props :
  forall s bb,
    insertionBB s = Some bb ->
    forEach props
      (fun vd =>
         let ti := getInterfaceType vd in
         if isTrivial ti then ret tt
         else
           addr <- createStructElementAddr selfValue vd
                     (getAddressType (getLoweredType ti)) ;;
           addr <- createBeginAccess addr AccessDeinit EnforcementStatic false false ;;
           createDestroyAddr addr ;;
           createEndAccess addr false) s =
    Some (tt, emitted s
                (nextInst s
                 + List.length (structMembersCode bb (nextInst s) selfValue props))
                (nextBlock s) (Some bb)
                (structMembersCode bb (nextInst s) selfValue props)).
Proof.
  induction props as [|vd props IH]; intros s bb Hip.
  - cbn [forEach structMembersCode List.length]. unfold ret.
    rewrite Nat.add_0_r. now rewrite emitted_same.
  - rewrite forEach_cons. cbn [structMembersCode]. cbv beta zeta.
    rewrite (structMember_run selfValue vd s Hip).
    rewrite (IH (emitted s _ _ (Some bb) _) bb eq_refl).
    cbn [nextInst nextBlock emitted].
    rewrite emitted_emitted, length_app, Nat.add_assoc. reflexivity.
Qed.

Lemma structMembersCode_block bb selfValue props :
  forall n, Forall (fun p => placedBB p = bb) (structMembersCode bb n selfValue props).
Proof.
  induction props as [|vd props IH]; intro n; cbn [structMembersCode].
  - constructor.
  - apply Forall_app. split; [|apply IH].
    unfold destroyStructMemberCode.
    destruct (isTrivial (getInterfaceType vd)); repeat constructor.
Qed.

Lemma structMembersCode_kinds bb selfValue props :
  forall n,
    kinds (structMembersCode bb n selfValue props) =
    flat_map (fun _ => [KStructElementAddr; KBeginAccess; KDestroyAddr; KEndAccess])
             (nonTrivialProperties props).
Proof.
  unfold nonTrivialProperties.
  induction props as [|vd props IH]; intro n; cbn [structMembersCode filter].
  - reflexivity.
  - rewrite kinds_app, IH. unfold destroyStructMemberCode.
    destruct (isTrivial (getInterfaceType vd)); reflexivity.
Qed.

Lemma structMembersCode_destroyed bb selfValue props :
  forall n,
    map destroyedStructField
        (filter isDestroyAddr (listing (structMembersCode bb n selfValue props))) =
    map (fun vd => Some (selfValue, vd)) (nonTrivialProperties props).
Proof.
  unfold nonTrivialProperties, listing.
  induction props as [|vd props IH]; intro n; cbn [structMembersCode filter map].
  - reflexivity.
  - rewrite map_app, filter_app, map_app, IH. unfold destroyStructMemberCode.
    destruct (isTrivial (getInterfaceType vd)); reflexivity.
Qed.

(** X2.  For a struct held in memory, [emitMoveOnlyMemberDestruction]
    drops the deinit of self unless that is done already, and then
    destroys the stored properties that are not trivial, each once and in
    declaration order, through a static [deinit] access on its address in
    the dropped self; trivial properties get no code, no block is created
    and the builder stays in its block. *)
Theorem moveonly_struct_members_in_order selfValue sd s bb :
  insertionBB s = Some bb ->
  isObject (getType selfValue) = false ->
  exists code subject n',
    emitMoveOnlyMemberDestruction selfValue (NominalStruct sd) s =
    Some (tt, emitted s n' (nextBlock s) (Some bb) code) /\
    isaDropDeinitInst subject = true /\
    (if isaDropDeinitInst selfValue then subject = selfValue
     else definedBy subject (DropDeinitInst selfValue)) /\
    Forall (fun p => placedBB p = bb) code /\
    kinds code =
      (if isaDropDeinitInst selfValue then [] else [KDropDeinit])
      ++ flat_map (fun _ => [KStructElementAddr; KBeginAccess; KDestroyAddr; KEndAccess])
                  (nonTrivialProperties (structStoredProperties sd)) /\
    map destroyedStructField (filter isDestroyAddr (listing code)) =
    map (fun vd => Some (subject, vd))
        (nonTrivialProperties (structStoredProperties sd)).
Proof.
  intros Hip Hobj.
  destruct (droppedSelf_dropped (nextInst s) selfValue) as [Hd Hs].
  unfold emitMoveOnlyMemberDestruction.
  destruct s as [conv prof ee cl n nb ip bd]. cbn in Hip. subst ip.
  cbn [nextInst nextBlock] in *.
  set (n1 := if isaDropDeinitInst selfValue then n else S n).
  exists ((if isaDropDeinitInst selfValue then []
           else [place bb n (DropDeinitInst selfValue)])
          ++ structMembersCode bb n1 (droppedSelf n selfValue)
                               (structStoredProperties sd)),
         (droppedSelf n selfValue),
         (n1 + List.length (structMembersCode bb n1 (droppedSelf n selfValue)
                                              (structStoredProperties sd))).
  split; [|split; [exact Hd | split; [exact Hs | split; [|split]]]].
  - unfold droppedSelf, n1. silgen_in Hobj.
    destruct (isaDropDeinitInst selfValue); silgen; rewrite Hobj; silgen.
    + pose proof (structLoop_run selfValue (structStoredProperties sd)) as H.
      cbv zeta in H. silgen_in H. erewrite H by reflexivity. clear H.
      silgen. finish_run.
    + pose proof (structLoop_run
                    (SILInstResult n (getType selfValue)
                       (addressOwnership (getType selfValue) Owned)
                       (DropDeinitInst selfValue))
                    (structStoredProperties sd)) as H.
      cbv zeta in H. silgen_in H. rewrite ?Hobj in H. silgen_in H.
      erewrite H by reflexivity. clear H.
      silgen. rewrite ?Hobj. finish_run.
  - apply Forall_app. split; [|apply structMembersCode_block].
    destruct (isaDropDeinitInst selfValue); repeat constructor.
  - rewrite kinds_app, structMembersCode_kinds.
    destruct (isaDropDeinitInst selfValue); reflexivity.
  - unfold listing. rewrite map_app, filter_app, map_app.
    fold (listing (structMembersCode bb n1 (droppedSelf n selfValue)
                                     (structStoredProperties sd))).
    rewrite structMembersCode_destroyed.
    destruct (isaDropDeinitInst selfValue); reflexivity.
Qed.

Lemma moveonly_struct_members_in_order_witness :
  exists code subject n',
    emitMoveOnlyMemberDestruction handleSelf (NominalStruct HandleStruct)
                                  (newFunction Owned false) =
    Some (tt, emitted (newFunction Owned false) n' 1 (Some 0) code) /\
    isaDropDeinitInst subject = true /\
    definedBy subject (DropDeinitInst handleSelf) /\
    Forall (fun p => placedBB p = 0) code /\
    kinds code =
      [KDropDeinit;
       KStructElementAddr; KBeginAccess; KDestroyAddr; KEndAccess;
       KStructElementAddr; KBeginAccess; KDestroyAddr; KEndAccess] /\
    map destroyedStructField (filter isDestroyAddr (listing code)) =
    [Some (subject, sampleField "buffer" (OtherType "Buffer" false) Unspecified);
     Some (subject, sampleField "owner" (ClassType "Owner") Unspecified)].
Proof.
  exact (@moveonly_struct_members_in_order handleSelf HandleStruct
           (newFunction Owned false) 0 eq_refl eq_refl).
Defined.

(* ================================================================== *)
(** * Member destruction of a class                                    *)
(* ================================================================== *)

(** ** What the scan of the stored properties returns *)

Lemma scan_sound cd props :
  forall acc vd,
    In vd (fold_left (fun result vd =>
                        if isRecursiveLink cd vd then setVectorInsert result vd
                        else result) props acc) ->
    In vd acc \/ (In vd props /\ isRecursiveLink cd vd = true).
Proof.
  induction props as [|x props IH]; intros acc vd H; cbn [fold_left] in H.
  - now left.
  - apply IH in H. destruct H as [H | [H1 H2]].
    + destruct (isRecursiveLink cd x) eqn:Hx.
      * unfold setVectorInsert in H.
        destruct (setVectorContains acc x); [now left|].
        apply in_app_or in H. destruct H as [H | [<- | []]]; [now left|].
        right. split; [now left | exact Hx].
      * now left.
    + right. split; [now right | exact H2].
Qed.

(** X3.  [findRecursiveLinks] only ever returns a stored property of the
    class whose type is [Optional<Self>], which is never trivial, and it
    returns it alone. *)
Theorem findRecursiveLinks_sound cd vd :
  In vd (findRecursiveLinks cd []) ->
  In vd (getStoredProperties cd) /\
  isRecursiveLink cd vd = true /\
  isTrivial (getInterfaceType vd) = false /\
  findRecursiveLinks cd [] = [vd].
Proof.
  intro H.
  assert (Hone : findRecursiveLinks cd [] = [vd]).
  { pose proof (findRecursiveLinks_length cd) as Hlen.
    destruct (findRecursiveLinks cd []) as [|x [|y l]].
    - contradiction.
    - destruct H as [-> | []]. reflexivity.
    - cbn in Hlen. lia. }
  rewrite findRecursiveLinks_unfold in H. cbv zeta in H.
  destruct (Nat.ltb 1 _); [contradiction|].
  apply scan_sound in H. destruct H as [[] | [H1 H2]].
  repeat split; try assumption.
  now apply (isRecursiveLink_not_trivial cd).
Qed.

Lemma findRecursiveLinks_sound_witness :
  In (sampleField "next" (OptionalType (ClassType "Node")) Unspecified)
     (getStoredProperties NodeClass) /\
  isRecursiveLink NodeClass
    (sampleField "next" (OptionalType (ClassType "Node")) Unspecified) = true /\
  isTrivial (OptionalType (ClassType "Node")) = false /\
  findRecursiveLinks NodeClass [] =
  [sampleField "next" (OptionalType (ClassType "Node")) Unspecified].
Proof.
  exact (@findRecursiveLinks_sound NodeClass
           (sampleField "next" (OptionalType (ClassType "Node")) Unspecified)
           (or_introl eq_refl)).
Defined.

(** ** Every field once *)

Lemma chainCode_countDestroyed bb n nb selfValue cd link vd :
  countDestroyed vd (chainCode bb n nb selfValue cd link) = 0.
Proof.
  unfold chainCode, codeOf, standingAt, emitRecursiveChainDestruction.
  silgen. reflexivity.
Qed.

Lemma classMemberCode_countDestroyed bb n nb selfValue cd vd :
  countDestroyed vd (classMemberCode bb n nb selfValue cd) =
  countDestroyed vd
    (membersCode (setVectorContains (findRecursiveLinks cd [])) bb n selfValue
                 (getStoredProperties cd)).
Proof.
  unfold classMemberCode. cbv zeta.
  rewrite !countDestroyed_app.
  destruct (findRecursiveLinks cd []) as [|link0 links].
  - destruct (isRootDefaultActor cd); cbn; lia.
  - rewrite chainCode_countDestroyed.
    destruct (isRootDefaultActor cd); cbn; lia.
Qed.

(** X5.  With distinct stored properties, [emitClassMemberDestruction]
    destroys every stored property that is not trivial and is not the
    recursive link exactly once in place ([destroy_addr] on the address of
    the field in self), and never destroys in place a trivial property, the
    recursive link, or anything that is not a stored property of the
    class. *)
Theorem class_members_destroyed_once selfValue cd s bb :
  insertionBB s = Some bb ->
  getOwnershipKind (getValue selfValue) = Guaranteed ->
  NoDup (getStoredProperties cd) ->
  exists code n' nb' bb',
    emitClassMemberDestruction selfValue cd s =
    Some (tt, emitted s n' nb' (Some bb') code) /\
    (forall vd,
       In vd (getStoredProperties cd) ->
       isTrivial (getInterfaceType vd) = false ->
       ~ In vd (findRecursiveLinks cd []) ->
       countDestroyed vd code = 1) /\
    (forall vd,
       ~ In vd (getStoredProperties cd) \/
       isTrivial (getInterfaceType vd) = true \/
       In vd (findRecursiveLinks cd []) ->
       countDestroyed vd code = 0).
Proof.
  intros Hip Hown Hnd.
  do 4 eexists. split; [apply (emitClassMemberDestruction_run selfValue cd s Hown Hip)|].
  split.
  - intros vd Hin Ht Hl. rewrite classMemberCode_countDestroyed.
    rewrite (@membersCode_countDestroyed _ bb selfValue _ vd Hnd Hin), Ht.
    destruct (setVectorContains (findRecursiveLinks cd []) vd) eqn:E;
      [|reflexivity].
    apply setVectorContains_In in E. contradiction.
  - intros vd H. rewrite classMemberCode_countDestroyed.
    destruct H as [H | [H | H]].
    + now apply membersCode_countDestroyed_absent.
    + destruct (existsb (VarDecl_eqb vd) (getStoredProperties cd)) eqn:E.
      * apply existsb_exists in E. destruct E as (x & Hx & Hxe).
        apply VarDecl_eqb_eq in Hxe. subst x.
        rewrite (@membersCode_countDestroyed _ bb selfValue _ vd Hnd Hx), H.
        now rewrite andb_false_r.
      * apply membersCode_countDestroyed_absent. intro Hx.
        assert (existsb (VarDecl_eqb vd) (getStoredProperties cd) = true).
        { apply existsb_exists. exists vd. split; [exact Hx|].
          now apply VarDecl_eqb_eq. }
        congruence.
    + destruct (findRecursiveLinks_sound cd vd H) as (Hx & _).
      apply setVectorContains_In in H.
      rewrite (@membersCode_countDestroyed _ bb selfValue _ vd Hnd Hx), H.
      reflexivity.
Qed.

Lemma class_members_destroyed_once_witness :
  let selfValue := forBorrowedRValue (selfArgument NodeClass Guaranteed) in
  let s := newFunction Guaranteed false in
  exists code n' nb' bb',
    emitClassMemberDestruction selfValue NodeClass s =
    Some (tt, emitted s n' nb' (Some bb') code) /\
    (forall vd,
       In vd (getStoredProperties NodeClass) ->
       isTrivial (getInterfaceType vd) = false ->
       ~ In vd (findRecursiveLinks NodeClass []) ->
       countDestroyed vd code = 1) /\
    (forall vd,
       ~ In vd (getStoredProperties NodeClass) \/
       isTrivial (getInterfaceType vd) = true \/
       In vd (findRecursiveLinks NodeClass []) ->
       countDestroyed vd code = 0).
Proof.
  apply (@class_members_destroyed_once
           (forBorrowedRValue (selfArgument NodeClass Guaranteed)) NodeClass
           (newFunction Guaranteed false) 0); [reflexivity | reflexivity |].
  repeat constructor; simpl; intuition discriminate.
Defined.

(** ** The teardown of a default actor *)

Lemma membersCode_no_builtin skip bb n selfValue props :
  countKind KBuiltin (kinds (membersCode skip bb n selfValue props)) = 0.
Proof.
  apply membersCode_countKind. cbn [In].
  intros [H|[H|[H|[H|[]]]]]; discriminate H.
Qed.

(** X6.  [emitClassMemberDestruction] tears down the default-actor state
    exactly when the class is a root default actor: one
    [destroyDefaultActor] builtin on self, emitted last, after every field
    and after the chain loop; for any other class no builtin is emitted. *)
Theorem default_actor_destroyed_last selfValue cd s bb :
  insertionBB s = Some bb ->
  getOwnershipKind (getValue selfValue) = Guaranteed ->
  exists code n' nb' bb',
    emitClassMemberDestruction selfValue cd s =
    Some (tt, emitted s n' nb' (Some bb') code) /\
    countKind KBuiltin (kinds code) = (if isRootDefaultActor cd then 1 else 0) /\
    (isRootDefaultActor cd = true ->
     exists before p,
       code = before ++ [p] /\
       placedBB p = bb' /\
       placedInst p = BuiltinInst "destroyDefaultActor" [getValue selfValue]).
Proof.
  intros Hip Hown.
  do 4 eexists. split; [apply (emitClassMemberDestruction_run selfValue cd s Hown Hip)|].
  unfold classMemberCode. cbv zeta. split.
  - rewrite !kinds_app, !countKind_app, membersCode_no_builtin.
    destruct (findRecursiveLinks cd []) as [|link0 links];
      [|rewrite chainCode_kinds];
      destruct (isRootDefaultActor cd); reflexivity.
  - intro Hroot. rewrite Hroot. rewrite app_assoc.
    do 2 eexists. split; [reflexivity|].
    destruct (findRecursiveLinks cd []); split; reflexivity.
Qed.

Lemma default_actor_destroyed_last_witness :
  let selfValue := forBorrowedRValue (selfArgument WorkerActor Guaranteed) in
  let s := newFunction Guaranteed false in
  exists code n' nb' bb',
    emitClassMemberDestruction selfValue WorkerActor s =
    Some (tt, emitted s n' nb' (Some bb') code) /\
    countKind KBuiltin (kinds code) = 1 /\
    (true = true ->
     exists before p,
       code = before ++ [p] /\
       placedBB p = bb' /\
       placedInst p = BuiltinInst "destroyDefaultActor" [getValue selfValue]).
Proof.
  exact (@default_actor_destroyed_last
           (forBorrowedRValue (selfArgument WorkerActor Guaranteed)) WorkerActor
           (newFunction Guaranteed false) 0 eq_refl eq_refl).
Defined.

(* ================================================================== *)
(** * The ivar destroyer                                               *)
(* ================================================================== *)

Lemma emitIVarDestroyer_listing cd conv prof :
  exists pre bv n post nt,
    emitFunction conv prof (emitIVarDestroyer cd) =
    Some (pre ++ classMemberCode 0 n 1 bv cd ++ post) /\
    getOwnershipKind (getValue bv) = Guaranteed /\
    (if OwnershipKind_eqb conv Guaranteed
     then pre = [] /\ getValue bv = selfArgument cd conv /\
          listing post = [TupleInst []; ReturnInst (emptyTupleAt nt)]
     else listing pre =
            [UncheckedOwnershipConversionInst (selfArgument cd conv) Guaranteed] /\
          definedBy (getValue bv)
            (UncheckedOwnershipConversionInst (selfArgument cd conv) Guaranteed) /\
          listing post =
            [EndBorrowInst (getValue bv); TupleInst [];
             ReturnInst (emptyTupleAt nt)]) /\
    Forall (fun p => placedBB p = 0) pre /\
    Forall (fun p => placedBB p = memberExitBB cd 0 1) post.
Proof.
  unfold memberExitBB, emitIVarDestroyer, emitFunction, emitManagedBorrowedRValueWithCleanup,
    emitEpilog, selfArgument, emptyTupleAt.
  destruct conv; silgen;
    (rewrite_run emitClassMemberDestruction_run);
    silgen; norm_app;
    match goal with
    | |- exists pre bv n post nt, Some ?X = _ /\ _ =>
        let r := split_at_members X in
        lazymatch r with
        | (?h, (?n, ?bv), ?t) => exists h, bv, n, t
        end
    end;
    eexists;
    (split; [reflexivity|]);
    (split; [reflexivity|]);
    cbn [OwnershipKind_eqb listing map placedInst];
    repeat split; try reflexivity; repeat constructor.
  all: do 3 eexists; reflexivity.
Qed.

(** X7.  The ivar destroyer runs the member destruction of the class on
    a guaranteed self and returns the empty tuple: a self that comes in
    guaranteed is used as it is; any other self is first converted to
    guaranteed ownership, and the borrow so opened is ended after the
    members are destroyed, before the return. *)
Theorem ivar_destroyer_members_only cd conv prof :
  exists pre bv n post t,
    emitFunction conv prof (emitIVarDestroyer cd) =
    Some (pre ++ classMemberCode 0 n 1 bv cd ++ post) /\
    getOwnershipKind (getValue bv) = Guaranteed /\
    definedBy t (TupleInst []) /\
    (if OwnershipKind_eqb conv Guaranteed
     then pre = [] /\ getValue bv = selfArgument cd conv /\
          listing post = [TupleInst []; ReturnInst t]
     else listing pre =
            [UncheckedOwnershipConversionInst (selfArgument cd conv) Guaranteed] /\
          definedBy (getValue bv)
            (UncheckedOwnershipConversionInst (selfArgument cd conv) Guaranteed) /\
          listing post =
            [EndBorrowInst (getValue bv); TupleInst []; ReturnInst t]).
Proof.
  destruct (emitIVarDestroyer_listing cd conv prof)
    as (pre & bv & n & post & nt & He & Hown & H & _).
  exists pre, bv, n, post, (emptyTupleAt nt).
  repeat (split; [assumption|]).
  split; [do 3 eexists; reflexivity | exact H].
Qed.

(** X8.  The ivar destroyer never runs a deinit body, calls no function
    (neither a superclass destructor nor a runtime hook), checks no
    executor and frees no object; it has one return. *)
Theorem ivar_destroyer_only_destroys_members cd conv prof :
  exists l,
    emitFunction conv prof (emitIVarDestroyer cd) = Some l /\
    countKind KReturn (kinds l) = 1 /\
    Forall (fun k => countKind k (kinds l) = 0)
           [KUserBody; KApply; KFunctionRef; KDeallocRef;
            KDistributedActorSystemResignIDCall; KDistributedIfRemoteBranch;
            KPreconditionCheckExpectedExecutor; KHopToExecutor;
            KUnavailableCodeReached; KIncrementProfilerCounter].
Proof.
  destruct (emitIVarDestroyer_listing cd conv prof)
    as (pre & bv & n & post & nt & He & Hown & H & _).
  eexists. split; [exact He|].
  assert (Hk : kinds pre =
               (if OwnershipKind_eqb conv Guaranteed then []
                else [KUncheckedOwnershipConversion]) /\
               kinds post =
               (if OwnershipKind_eqb conv Guaranteed then [] else [KEndBorrow])
               ++ [KTuple; KReturn]).
  { rewrite !kinds_listing.
    destruct (OwnershipKind_eqb conv Guaranteed).
    - destruct H as (-> & _ & ->). split; reflexivity.
    - destruct H as (-> & _ & ->). split; reflexivity. }
  destruct Hk as [Hpre Hpost].
  rewrite !kinds_app, Hpre, Hpost.
  split; [|repeat constructor];
    destruct (OwnershipKind_eqb conv Guaranteed); calc_kinds; reflexivity.
Qed.

(* ================================================================== *)
(** * The destroying destructor, from the body to the return           *)
(* ================================================================== *)

(** Split the code after the member destruction at the return. *)
Ltac split_tail t :=
  lazymatch t with
  | [?r] => constr:((@nil Placed, r))
  | ?x :: ?rest =>
      let pr := split_tail rest in
      lazymatch pr with
      | (?tl, ?r) => constr:((x :: tl, r))
      end
  end.

Lemma emitDestroyingDestructor_result dd cd prof :
  getSelfNominalTypeDecl dd = NominalClass cd ->
  bodyFallsThrough dd = true ->
  exists head bv n tl ret v,
    emitFunction Guaranteed prof (emitDestroyingDestructor dd) =
    Some (head ++ classMemberCode 0 n 1 bv cd ++ tl ++ [ret]) /\
    kinds head = destroyingHeadKinds dd cd prof /\
    kinds (tl ++ [ret]) = destroyingTailKinds cd /\
    placedBB ret = memberExitBB cd 0 1 /\
    placedInst ret = ReturnInst v /\
    getType v = getNativeObjectType /\
    getOwnershipKind v = Owned /\
    (if callsSuperclassDestructor cd
     then exists call,
         definedBy v call /\ isSuperclassDestructorCall cd Guaranteed call
     else exists c,
         definedBy v (UncheckedOwnershipConversionInst c Owned) /\
         definedBy c (UncheckedRefCastInst (selfArgument cd Guaranteed))) /\
    Forall (fun p => placedBB p = 0) head /\
    Forall (fun p => placedBB p = memberExitBB cd 0 1) tl.
Proof.
  intros Hc Hf.
  unfold emitDestroyingDestructor, emitFunction, memberExitBB.
  unfold destroyingHeadKinds, destroyingPrologKinds, destroyingTailKinds,
    callsSuperclassDestructor, hasSuperclass, isSuperclassDestructorCall,
    selfArgument.
  rewrite Hc.
  destruct (requiresUnavailableDeclABICompatibilityStubs dd);
    destruct (ddIsolation dd); destruct prof;
    silgen; rewrite Hf; silgen;
    destruct (getSuperclass cd) as [superclass|] eqn:Hsuper;
    try destruct (isNativeNSObjectSubclass cd);
    destruct (isDistributedActor cd);
    silgen; rewrite ?String.eqb_refl; silgen;
    (rewrite_run emitClassMemberDestruction_run);
    silgen; norm_app;
    match goal with
    | |- exists h bv n tl r v, Some ?X = _ /\ _ =>
        let r := split_at_members X in
        lazymatch r with
        | (?h, (?n, ?bv), ?t) =>
            let pr := split_tail t in
            lazymatch pr with
            | (?tl, ?ret) => exists h, bv, n, tl, ret
            end
        end
    end;
    eexists;
    (split; [reflexivity|]);
    (split; [reflexivity|]);
    (split; [reflexivity|]);
    (split; [reflexivity|]);
    (split; [reflexivity|]);
    (split; [reflexivity|]);
    (split; [reflexivity|]).
  all: (split; [|split; repeat constructor]).
  all: try (eexists; split; [do 3 eexists; reflexivity|];
            do 4 eexists; split; [reflexivity | reflexivity]).
  all: eexists; split; do 3 eexists; reflexivity.
Qed.

Lemma destroyingHeadKinds_count dd cd prof k :
  ~ In k [KUnavailableCodeReached; KLoadActorExecutor;
          KPreconditionCheckExpectedExecutor; KIncrementProfilerCounter; KUserBody;
          KUpcast; KFunctionRef; KApply; KBeginBorrow; KUncheckedRefCast;
          KDistributedActorSystemResignIDCall] ->
  countKind k (destroyingHeadKinds dd cd prof) = 0.
Proof.
  intro Hk. apply countKind_not_In. intro H. apply Hk.
  now apply (destroyingHeadKinds_cases dd cd prof).
Qed.

Ltac not_head_kind :=
  cbn [In]; repeat (let H := fresh in intros [H | H]; [discriminate H | revert H]);
  exact (fun f => f).

(** X9.  When the body can fall through, the destroying destructor of a
    class with a guaranteed self has exactly one return, its last
    instruction, and what it returns is an owned native-object handle: the
    result of the superclass destructor when that is called, and otherwise
    self, cast to the native object type and converted to owned.  It never
    frees the object. *)
Theorem destroying_destructor_returns_owned_handle dd cd prof :
  getSelfNominalTypeDecl dd = NominalClass cd ->
  bodyFallsThrough dd = true ->
  exists l before ret v,
    emitFunction Guaranteed prof (emitDestroyingDestructor dd) = Some l /\
    l = before ++ [ret] /\
    placedInst ret = ReturnInst v /\
    countKind KReturn (kinds l) = 1 /\
    countKind KDeallocRef (kinds l) = 0 /\
    getType v = getNativeObjectType /\
    getOwnershipKind v = Owned /\
    (if callsSuperclassDestructor cd
     then exists call,
         definedBy v call /\ isSuperclassDestructorCall cd Guaranteed call
     else exists c,
         definedBy v (UncheckedOwnershipConversionInst c Owned) /\
         definedBy c (UncheckedRefCastInst (selfArgument cd Guaranteed))).
Proof.
  intros Hc Hf.
  destruct (emitDestroyingDestructor_result dd prof Hc Hf)
    as (head & bv & n & tl & ret & v & He & Hh & Ht & _ & Hr & Hty & Hown & Hv & _).
  exists (head ++ classMemberCode 0 n 1 bv cd ++ tl ++ [ret]),
         (head ++ classMemberCode 0 n 1 bv cd ++ tl), ret, v.
  split; [exact He|].
  split; [now rewrite <- !app_assoc|].
  split; [exact Hr|].
  rewrite !kinds_app, <- (kinds_app tl [ret]), Hh, Ht.
  rewrite !countKind_app.
  rewrite (@destroyingHeadKinds_count dd cd prof KReturn) by not_head_kind.
  rewrite (@destroyingHeadKinds_count dd cd prof KDeallocRef) by not_head_kind.
  unfold destroyingTailKinds.
  split; [|split; [|repeat split; assumption]];
    destruct (callsSuperclassDestructor cd); calc_kinds; reflexivity.
Qed.

Lemma destroying_destructor_returns_owned_handle_witness :
  exists l before ret v,
    emitFunction Guaranteed false
      (emitDestroyingDestructor (sampleDestructor SubActor Unspecified)) = Some l /\
    l = before ++ [ret] /\
    placedInst ret = ReturnInst v /\
    countKind KReturn (kinds l) = 1 /\
    countKind KDeallocRef (kinds l) = 0 /\
    getType v = getNativeObjectType /\
    getOwnershipKind v = Owned /\
    exists call,
      definedBy v call /\ isSuperclassDestructorCall SubActor Guaranteed call.
Proof.
  exact (@destroying_destructor_returns_owned_handle
           (sampleDestructor SubActor Unspecified) SubActor false
           eq_refl eq_refl).
Defined.

(* ================================================================== *)
(** * The paths through the deallocating and isolating destructors     *)
(* ================================================================== *)

Lemma countKind_listing k l : countKind k (map getKind (listing l)) = countKind k (kinds l).
Proof. now rewrite kinds_listing. Qed.

Lemma executedFrom_exit fuel facts l bb v :
  last (blockInsts bb l) (TupleInst []) = ReturnInst v ->
  executedFrom (S fuel) facts l bb = Some (blockInsts bb l).
Proof. intro H. cbn [executedFrom]. rewrite H. reflexivity. Qed.

(** The path of an instance that is not a remote proxy through the
    deallocating destructor of a distributed actor. *)
Lemma local_path dd cd conv prof l e :
  getSelfNominalTypeDecl dd = NominalClass cd ->
  isDistributedActor cd = true ->
  emitFunction conv prof (emitDeallocatingClassDestructor dd false) = Some l ->
  executedFrom 3 {| isRemoteProxy := false; enumCase := e |} l 0 =
  Some (blockInsts 0 l ++ blockInsts 3 l ++ blockInsts 2 l).
Proof.
  intros Hc Hd Hl.
  destruct (emitDeallocatingClassDestructor_remote dd conv prof Hc Hd)
    as (l' & n & nl & nt & Hl' & H0 & _ & H3 & H2 & _).
  rewrite Hl in Hl'. injection Hl' as <-. cbv zeta in H0, H3.
  assert (L0 : last (blockInsts 0 l) (TupleInst []) =
               DistributedIfRemoteBranch (selfArgument cd conv) 1 3)
    by (rewrite H0; now rewrite last_app_nonempty by discriminate).
  assert (L3 : last (blockInsts 3 l) (TupleInst []) = BranchInst 2)
    by (rewrite H3; now rewrite last_app_nonempty by discriminate).
  assert (L2 : last (blockInsts 2 l) (TupleInst []) = ReturnInst (emptyTupleAt nt))
    by now rewrite H2.
  cbn [executedFrom]. rewrite L0. cbn [transfer isRemoteProxy].
  rewrite L3. cbn [transfer]. rewrite L2. cbn [transfer].
  reflexivity.
Qed.

Lemma deallocatingLocalCode_kinds bb n selfValue cd :
  map getKind (listing (deallocatingLocalCode bb n selfValue cd)) =
  [KFunctionRef; KBeginBorrow; KApply; KEndBorrow; KEndLifetime;
   KUncheckedRefCast; KDeallocRef].
Proof. reflexivity. Qed.

Lemma remoteMembers_countKind n bv props k :
  ~ In k [KRefElementAddr; KBeginAccess; KDestroyAddr; KEndAccess] ->
  countKind k (map getKind (listing (membersCode remoteSkips 1 n bv props))) = 0.
Proof. intro H. rewrite countKind_listing. now apply membersCode_countKind. Qed.

Ltac not_member_kind :=
  cbn [In]; intros [H|[H|[H|[H|[]]]]]; discriminate H.

(** X10.  On every path through the deallocating destructor of a class
    the object is freed exactly once, and the path ends in the return of
    the empty tuple.  The destroying destructor is called once on the path
    of a local instance and never on the path of a remote proxy. *)
Theorem deallocating_destructor_frees_once dd cd conv prof isIsolated remote e :
  getSelfNominalTypeDecl dd = NominalClass cd ->
  exists l path t,
    emitFunction conv prof (emitDeallocatingClassDestructor dd isIsolated) = Some l /\
    executedFrom 3 {| isRemoteProxy := remote; enumCase := e |} l 0 = Some path /\
    countKind KDeallocRef (map getKind path) = 1 /\
    countKind KApply (map getKind path) =
      (if takesRemoteBranch cd isIsolated remote then 0 else 1) /\
    countKind KReturn (map getKind path) = 1 /\
    last path (TupleInst []) = ReturnInst t /\
    definedBy t (TupleInst []).
Proof.
  intro Hc. unfold takesRemoteBranch.
  destruct (isIsolated || negb (isDistributedActor cd)) eqn:Hl.
  - destruct (emitDeallocatingClassDestructor_local dd conv prof isIsolated Hc Hl)
      as (pre & n & He & Hpre).
    assert (Hr : remote && isDistributedActor cd && negb isIsolated = false).
    { destruct isIsolated, (isDistributedActor cd), remote;
        try reflexivity; discriminate Hl. }
    rewrite Hr.
    eexists. exists (listing (pre ++ deallocatingLocalCode 0 n (selfArgument cd conv) cd
                              ++ [place 0 (7 + n) (TupleInst []);
                                  place 0 (8 + n) (ReturnInst (emptyTupleAt (7 + n)))])),
                    (emptyTupleAt (7 + n)).
    split; [exact He|].
    assert (Hb : blockInsts 0
                   (pre ++ deallocatingLocalCode 0 n (selfArgument cd conv) cd
                    ++ [place 0 (7 + n) (TupleInst []);
                        place 0 (8 + n) (ReturnInst (emptyTupleAt (7 + n)))]) =
                 listing (pre ++ deallocatingLocalCode 0 n (selfArgument cd conv) cd
                          ++ [place 0 (7 + n) (TupleInst []);
                              place 0 (8 + n) (ReturnInst (emptyTupleAt (7 + n)))])).
    { subst pre.
      destruct (requiresUnavailableDeclABICompatibilityStubs dd); reflexivity. }
    split.
    { rewrite <- Hb. apply executedFrom_exit with (v := emptyTupleAt (7 + n)).
      rewrite Hb. subst pre.
      destruct (requiresUnavailableDeclABICompatibilityStubs dd); reflexivity. }
    subst pre.
    destruct (requiresUnavailableDeclABICompatibilityStubs dd);
      repeat split; try reflexivity; do 3 eexists; reflexivity.
  - assert (Hd : isDistributedActor cd = true /\ isIsolated = false).
    { destruct isIsolated, (isDistributedActor cd); try discriminate Hl; auto. }
    destruct Hd as [Hd ->].
    destruct (emitDeallocatingClassDestructor_remote dd conv prof Hc Hd)
      as (l & n & nl & nt & He & H0 & H1 & H3 & H2 & _).
    cbv zeta in H0, H1, H3.
    exists l.
    rewrite Hd. cbn [negb andb]. rewrite andb_true_r.
    destruct remote.
    + eexists. exists (emptyTupleAt nt).
      split; [exact He|].
      split; [apply (remote_path dd conv prof e Hc Hd He)|].
      rewrite H0, H1, H2.
      rewrite !map_app, !countKind_app.
      rewrite (@remoteMembers_countKind _ _ _ KDeallocRef) by not_member_kind.
      rewrite (@remoteMembers_countKind _ _ _ KApply) by not_member_kind.
      rewrite (@remoteMembers_countKind _ _ _ KReturn) by not_member_kind.
      rewrite !app_assoc, last_app_nonempty by discriminate.
      destruct (requiresUnavailableDeclABICompatibilityStubs dd);
        destruct (isRootDefaultActor cd);
        repeat split; try reflexivity; do 3 eexists; reflexivity.
    + eexists. exists (emptyTupleAt nt).
      split; [exact He|].
      split; [apply (local_path dd conv prof e Hc Hd He)|].
      rewrite H0, H3, H2.
      rewrite !app_assoc, last_app_nonempty by discriminate.
      destruct (requiresUnavailableDeclABICompatibilityStubs dd);
        repeat split; try reflexivity; do 3 eexists; reflexivity.
Qed.

Lemma deallocating_destructor_frees_once_witness :
  exists l path t,
    emitFunction Owned false
      (emitDeallocatingClassDestructor (sampleDestructor WorkerActor Unspecified) false)
    = Some l /\
    executedFrom 3 {| isRemoteProxy := true; enumCase := OptionalNoneDecl |} l 0
    = Some path /\
    countKind KDeallocRef (map getKind path) = 1 /\
    countKind KApply (map getKind path) = 0 /\
    countKind KReturn (map getKind path) = 1 /\
    last path (TupleInst []) = ReturnInst t /\
    definedBy t (TupleInst []).
Proof.
  exact (@deallocating_destructor_frees_once
           (sampleDestructor WorkerActor Unspecified) WorkerActor Owned false
           false true OptionalNoneDecl eq_refl).
Defined.

(** ** The kinds of the whole listings *)

Lemma emitDeallocatingClassDestructor_kinds dd cd conv prof isIsolated :
  getSelfNominalTypeDecl dd = NominalClass cd ->
  exists l n bv,
    emitFunction conv prof (emitDeallocatingClassDestructor dd isIsolated) = Some l /\
    kinds l =
      (if requiresUnavailableDeclABICompatibilityStubs dd
       then [KUnavailableCodeReached] else [])
      ++ remoteWrapperKinds cd isIsolated
           (membersCode remoteSkips 1 n bv (getStoredProperties cd))
           deallocatingLocalKinds.
Proof.
  intro Hc. unfold remoteWrapperKinds.
  destruct (isIsolated || negb (isDistributedActor cd)) eqn:Hl.
  - destruct (emitDeallocatingClassDestructor_local dd conv prof isIsolated Hc Hl)
      as (pre & n & He & ->).
    eexists. exists 0, (forBorrowedRValue (selfArgument cd conv)).
    split; [exact He|].
    destruct (requiresUnavailableDeclABICompatibilityStubs dd); reflexivity.
  - assert (Hd : isDistributedActor cd = true /\ isIsolated = false).
    { destruct isIsolated, (isDistributedActor cd); try discriminate Hl; auto. }
    destruct Hd as [Hd ->]. clear Hl.
    unfold emitDeallocatingClassDestructor, emitDistributedRemoteActorDeinit,
      emitFunction.
    rewrite Hc. silgen. rewrite Hd.
    destruct (requiresUnavailableDeclABICompatibilityStubs dd); silgen;
      rewrite_run remote_loop_eq;
      rewrite_run (membersLoop_run remoteSkips);
      silgen; destruct (isRootDefaultActor cd); silgen; norm_app;
      (eexists; eexists; eexists; split; [reflexivity|]);
      repeat first [rewrite kinds_cons; cbn [placedInst getKind]
                   | rewrite kinds_app ];
      cbn [app]; reflexivity.
Qed.

Lemma emitIsolatingDestructor_kinds dd cd conv prof :
  getSelfNominalTypeDecl dd = NominalClass cd ->
  hasExecutor (ddIsolation dd) = true ->
  exists l n bv,
    emitFunction conv prof (emitIsolatingDestructor dd) = Some l /\
    kinds l =
      remoteWrapperKinds cd false
        (membersCode remoteSkips 1 n bv (getStoredProperties cd))
        isolatingLocalKinds.
Proof.
  intros Hc He. unfold remoteWrapperKinds.
  unfold emitIsolatingDestructor, emitDistributedRemoteActorDeinit, emitFunction.
  rewrite Hc. silgen.
  destruct (ddIsolation dd); try discriminate He;
    destruct (isDistributedActor cd); silgen.
  1, 3: rewrite_run remote_loop_eq;
    rewrite_run (membersLoop_run remoteSkips);
    silgen; destruct (isRootDefaultActor cd); silgen; norm_app;
    (eexists; eexists; eexists; split; [reflexivity|]);
    repeat first [rewrite kinds_cons; cbn [placedInst getKind]
                 | rewrite kinds_app ];
    cbn [app]; reflexivity.
  all: norm_app; eexists; exists 0, (forBorrowedRValue (selfArgument cd conv));
    split; reflexivity.
Qed.

Lemma remoteWrapperKinds_count cd isIsolated n bv props localKinds k :
  ~ In k [KRefElementAddr; KBeginAccess; KDestroyAddr; KEndAccess] ->
  countKind k (remoteWrapperKinds cd isIsolated
                 (membersCode remoteSkips 1 n bv props) localKinds) =
  if isIsolated || negb (isDistributedActor cd)
  then countKind k (localKinds ++ [KTuple; KReturn])
  else countKind k
         ([KDistributedIfRemoteBranch; KBeginBorrow]
          ++ (if isRootDefaultActor cd then [KBuiltin] else [])
          ++ [KEndBorrow; KDeallocRef; KBranch]
          ++ localKinds ++ [KBranch; KTuple; KReturn]).
Proof.
  intro H. unfold remoteWrapperKinds.
  destruct (isIsolated || negb (isDistributedActor cd)); [reflexivity|].
  rewrite !countKind_app, membersCode_countKind by exact H. reflexivity.
Qed.

Lemma getKind_unavailable i :
  getKind i = KUnavailableCodeReached -> i = UnavailableCodeReached.
Proof. destruct i; try discriminate; reflexivity. Qed.

Lemma kinds_head_inst k ks l :
  kinds l = k :: ks ->
  exists p rest, l = p :: rest /\ getKind (placedInst p) = k.
Proof.
  destruct l as [|p rest]; [discriminate|].
  rewrite kinds_cons. intro H. injection H as H _. now exists p, rest.
Qed.

(** X11.  The destroying destructor and the deallocating destructor of a
    class start with the call of the unavailable-code diagnostic exactly
    when the destructor requires the ABI compatibility stub of an
    unavailable declaration, and hold no such call anywhere else; the
    isolating destructor never holds one. *)
Theorem unavailable_stub_comes_first dd cd conv prof isIsolated :
  getSelfNominalTypeDecl dd = NominalClass cd ->
  let stub := requiresUnavailableDeclABICompatibilityStubs dd in
  (exists l,
     emitFunction Guaranteed prof (emitDestroyingDestructor dd) = Some l /\
     countKind KUnavailableCodeReached (kinds l) = (if stub then 1 else 0) /\
     (stub = true ->
      exists p rest, l = p :: rest /\ placedInst p = UnavailableCodeReached)) /\
  (exists l,
     emitFunction conv prof (emitDeallocatingClassDestructor dd isIsolated) = Some l /\
     countKind KUnavailableCodeReached (kinds l) = (if stub then 1 else 0) /\
     (stub = true ->
      exists p rest, l = p :: rest /\ placedInst p = UnavailableCodeReached)) /\
  (hasExecutor (ddIsolation dd) = true ->
   exists l,
     emitFunction conv prof (emitIsolatingDestructor dd) = Some l /\
     countKind KUnavailableCodeReached (kinds l) = 0).
Proof.
  intros Hc stub. subst stub. split; [|split].
  - destruct (bodyFallsThrough dd) eqn:Hf.
    + destruct (emitDestroyingDestructor_result dd prof Hc Hf)
        as (head & bv & n & tl & ret & v & He & Hh & Ht & _).
      eexists. split; [exact He|].
      assert (Hk : kinds (head ++ classMemberCode 0 n 1 bv cd ++ tl ++ [ret]) =
                   destroyingHeadKinds dd cd prof
                   ++ kinds (classMemberCode 0 n 1 bv cd)
                   ++ destroyingTailKinds cd).
      { now rewrite !kinds_app, <- (kinds_app tl [ret]), Hh, Ht. }
      split.
      * rewrite Hk.
        unfold destroyingHeadKinds, destroyingPrologKinds, destroyingTailKinds.
        destruct (requiresUnavailableDeclABICompatibilityStubs dd);
          destruct (hasExecutor (ddIsolation dd)); destruct prof;
          destruct (callsSuperclassDestructor cd);
          destruct (isDistributedActor cd);
          cbn [app]; calc_kinds; reflexivity.
      * intro Hs.
        unfold destroyingHeadKinds, destroyingPrologKinds in Hk.
        rewrite Hs in Hk. cbn [app] in Hk.
        destruct (@kinds_head_inst _ _ _ Hk) as (p & rest & Hl & Hp).
        exists p, rest. split; [exact Hl | now apply getKind_unavailable].
    + destruct (emitDestroyingDestructor_no_epilog dd prof Hc Hf)
        as (l & He & Hk & _).
      exists l. split; [exact He|]. split.
      * rewrite Hk. unfold destroyingPrologKinds.
        destruct (requiresUnavailableDeclABICompatibilityStubs dd);
          destruct (hasExecutor (ddIsolation dd)); destruct prof;
          reflexivity.
      * intro Hs. unfold destroyingPrologKinds in Hk.
        rewrite Hs in Hk. cbn [app] in Hk.
        destruct (@kinds_head_inst _ _ _ Hk) as (p & rest & Hl & Hp).
        exists p, rest. split; [exact Hl | now apply getKind_unavailable].
  - destruct (emitDeallocatingClassDestructor_kinds dd conv prof isIsolated Hc)
      as (l & n & bv & He & Hk).
    exists l. split; [exact He|]. split.
    + rewrite Hk, countKind_app, remoteWrapperKinds_count by not_member_kind.
      destruct (requiresUnavailableDeclABICompatibilityStubs dd);
        destruct (isIsolated || negb (isDistributedActor cd));
        destruct (isRootDefaultActor cd); reflexivity.
    + intro Hs. rewrite Hs in Hk. cbn [app] in Hk.
      destruct (@kinds_head_inst _ _ _ Hk) as (p & rest & Hl & Hp).
      exists p, rest. split; [exact Hl | now apply getKind_unavailable].
  - intro Hx.
    destruct (emitIsolatingDestructor_kinds dd conv prof Hc Hx)
      as (l & n & bv & He & Hk).
    exists l. split; [exact He|].
    rewrite Hk, remoteWrapperKinds_count by not_member_kind.
    destruct (false || negb (isDistributedActor cd));
      destruct (isRootDefaultActor cd); reflexivity.
Qed.

Lemma unavailable_stub_comes_first_witness :
  let dd :=
    {| getSelfNominalTypeDecl := NominalClass WorkerActor; isImplicit := false;
       ddIsolation := ActorInstance;
       requiresUnavailableDeclABICompatibilityStubs := true;
       bodyFallsThrough := true |} in
  (exists l,
     emitFunction Guaranteed false (emitDestroyingDestructor dd) = Some l /\
     countKind KUnavailableCodeReached (kinds l) = 1 /\
     (true = true ->
      exists p rest, l = p :: rest /\ placedInst p = UnavailableCodeReached)) /\
  (exists l,
     emitFunction Owned false (emitDeallocatingClassDestructor dd false) = Some l /\
     countKind KUnavailableCodeReached (kinds l) = 1 /\
     (true = true ->
      exists p rest, l = p :: rest /\ placedInst p = UnavailableCodeReached)) /\
  (true = true ->
   exists l,
     emitFunction Owned false (emitIsolatingDestructor dd) = Some l /\
     countKind KUnavailableCodeReached (kinds l) = 0).
Proof.
  exact (@unavailable_stub_comes_first
           {| getSelfNominalTypeDecl := NominalClass WorkerActor; isImplicit := false;
              ddIsolation := ActorInstance;
              requiresUnavailableDeclABICompatibilityStubs := true;
              bodyFallsThrough := true |}
           WorkerActor Owned false false eq_refl).
Defined.

(** ** When the epilog cannot be reached *)

Lemma kinds_last_inst ks k l :
  kinds l = ks ++ [k] ->
  exists before p, l = before ++ [p] /\ kinds before = ks /\
                   getKind (placedInst p) = k.
Proof.
  intro H. destruct (exists_last (l := l)) as (before & p & ->).
  { intros ->. destruct ks; discriminate H. }
  rewrite kinds_app in H. apply app_inj_tail in H. destruct H as [H1 H2].
  exists before, p. split; [reflexivity|]. split; [exact H1|].
  cbn in H2. congruence.
Qed.

Lemma getKind_userBody i : getKind i = KUserBody -> i = UserBodyStmt.
Proof. destruct i; try discriminate; reflexivity. Qed.

(** X12.  When control cannot leave the body of the deinit normally, the
    destroying destructor ends with the body: after the prolog (the
    unavailable-code stub, the executor check, the profiler counter) and
    the body nothing is emitted, so the superclass destructor is not
    called, no member is destroyed and there is no return. *)
Theorem destroying_destructor_stops_at_unreachable_epilog dd cd prof :
  getSelfNominalTypeDecl dd = NominalClass cd ->
  bodyFallsThrough dd = false ->
  exists l before p,
    emitFunction Guaranteed prof (emitDestroyingDestructor dd) = Some l /\
    l = before ++ [p] /\
    placedInst p = UserBodyStmt /\
    kinds before = destroyingPrologKinds dd prof /\
    Forall (fun k => countKind k (kinds l) = 0)
           [KReturn; KApply; KFunctionRef; KUpcast;
            KDistributedActorSystemResignIDCall;
            KRefElementAddr; KDestroyAddr; KLoad; KStore; KBuiltin].
Proof.
  intros Hc Hf.
  destruct (emitDestroyingDestructor_no_epilog dd prof Hc Hf) as (l & He & Hk & _).
  destruct (@kinds_last_inst _ _ _ Hk) as (before & p & Hl & Hb & Hp).
  exists l, before, p.
  split; [exact He|]. split; [exact Hl|].
  split; [now apply getKind_userBody|]. split; [exact Hb|].
  rewrite Hk. unfold destroyingPrologKinds.
  destruct (requiresUnavailableDeclABICompatibilityStubs dd);
    destruct (hasExecutor (ddIsolation dd)); destruct prof;
    repeat constructor.
Qed.

Lemma destroying_destructor_stops_at_unreachable_epilog_witness :
  let dd :=
    {| getSelfNominalTypeDecl := NominalClass SubActor; isImplicit := false;
       ddIsolation := ActorInstance;
       requiresUnavailableDeclABICompatibilityStubs := false;
       bodyFallsThrough := false |} in
  exists l before p,
    emitFunction Guaranteed true (emitDestroyingDestructor dd) = Some l /\
    l = before ++ [p] /\
    placedInst p = UserBodyStmt /\
    kinds before =
      [KLoadActorExecutor; KPreconditionCheckExpectedExecutor;
       KIncrementProfilerCounter] /\
    Forall (fun k => countKind k (kinds l) = 0)
           [KReturn; KApply; KFunctionRef; KUpcast;
            KDistributedActorSystemResignIDCall;
            KRefElementAddr; KDestroyAddr; KLoad; KStore; KBuiltin].
Proof.
  exact (@destroying_destructor_stops_at_unreachable_epilog
           {| getSelfNominalTypeDecl := NominalClass SubActor; isImplicit := false;
              ddIsolation := ActorInstance;
              requiresUnavailableDeclABICompatibilityStubs := false;
              bodyFallsThrough := false |}
           SubActor true eq_refl eq_refl).
Defined.

(** ** The executor that the function expects *)

(** X13.  The destroying destructor records the executor it expects
    before it emits the body: the executor computed for the isolation of
    the destructor, the one its precondition check tests, when there is
    one, and [unnecessary] when there is none; the record is never left
    unset, whether the body can fall through or not, and every cleanup
    scope that was opened is closed again. *)
Theorem destroying_destructor_records_executor dd cd prof :
  getSelfNominalTypeDecl dd = NominalClass cd ->
  exists s' n,
    emitDestroyingDestructor dd (newFunction Guaranteed prof) = Some (tt, s') /\
    ExpectedExecutor s' =
      (if hasExecutor (ddIsolation dd)
       then ExecutorSet
              (SILInstResult n (ObjectTy ExecutorType) Guaranteed
                 (LoadActorExecutor (ddIsolation dd) (selfArgument cd Guaranteed)))
       else ExecutorUnnecessary) /\
    n = (if requiresUnavailableDeclABICompatibilityStubs dd then 1 else 0) /\
    Cleanups s' = [].
Proof.
  intro Hc.
  unfold emitDestroyingDestructor, selfArgument.
  rewrite Hc.
  destruct (bodyFallsThrough dd) eqn:Hf;
    destruct (requiresUnavailableDeclABICompatibilityStubs dd);
    destruct (ddIsolation dd); destruct prof;
    silgen; rewrite Hf; silgen.
  all: try (eexists; eexists; split; [reflexivity|];
            split; [reflexivity|]; split; reflexivity).
  all: destruct (getSuperclass cd) as [superclass|] eqn:Hsuper;
    try destruct (isNativeNSObjectSubclass cd);
    destruct (isDistributedActor cd);
    silgen; rewrite ?String.eqb_refl; silgen;
    (rewrite_run emitClassMemberDestruction_run);
    silgen;
    eexists; eexists; (split; [reflexivity|]);
    (split; [reflexivity|]); split; reflexivity.
Qed.

Lemma destroying_destructor_records_executor_witness :
  exists s' n,
    emitDestroyingDestructor (sampleDestructor WorkerActor ActorInstance)
                             (newFunction Guaranteed false) = Some (tt, s') /\
    ExpectedExecutor s' =
      ExecutorSet
        (SILInstResult n (ObjectTy ExecutorType) Guaranteed
           (LoadActorExecutor ActorInstance (selfArgument WorkerActor Guaranteed))) /\
    n = 0 /\
    Cleanups s' = [].
Proof.
  exact (@destroying_destructor_records_executor
           (sampleDestructor WorkerActor ActorInstance) WorkerActor false eq_refl).
Defined.

(* ================================================================== *)
(** * Scopes                                                           *)
(* ================================================================== *)

Lemma membersCode_access_kinds skip bb selfValue props :
  forall n,
    kinds (membersCode skip bb n selfValue props) =
    flat_map (fun _ => [KRefElementAddr; KBeginAccess; KDestroyAddr; KEndAccess])
             (filter (fun vd => negb (skip vd) && negb (isTrivial (getInterfaceType vd)))
                     props).
Proof.
  induction props as [|vd props IH]; intro n; cbn [membersCode filter].
  - reflexivity.
  - rewrite kinds_app, IH. unfold destroyClassMemberCode.
    destruct (skip vd); [reflexivity|].
    destruct (isTrivial (getInterfaceType vd)); reflexivity.
Qed.

Lemma countKind_flat_map_const {A} k (ks : list SILInstructionKind) (l : list A) :
  countKind k (flat_map (fun _ => ks) l) = List.length l * countKind k ks.
Proof.
  induction l as [|x l IH]; [reflexivity|].
  cbn [flat_map List.length Nat.mul]. rewrite countKind_app, IH. lia.
Qed.

Lemma membersCode_balanced skip bb n selfValue props :
  countKind KBeginAccess (kinds (membersCode skip bb n selfValue props)) =
  countKind KEndAccess (kinds (membersCode skip bb n selfValue props)).
Proof.
  rewrite membersCode_access_kinds, !countKind_flat_map_const. reflexivity.
Qed.

Lemma classMemberCode_balanced bb n nb selfValue cd :
  let ks := kinds (classMemberCode bb n nb selfValue cd) in
  countKind KBeginAccess ks = countKind KEndAccess ks /\
  countKind KAllocStack ks = countKind KDeallocStack ks /\
  countKind KBeginBorrow ks = 0 /\
  countKind KLoadBorrow ks = countKind KEndBorrow ks.
Proof.
  cbv zeta. unfold classMemberCode. cbv zeta.
  rewrite !kinds_app, !countKind_app.
  rewrite (membersCode_balanced _ bb n selfValue (getStoredProperties cd)).
  rewrite (@membersCode_countKind _ bb n selfValue _ KAllocStack) by not_member_kind.
  rewrite (@membersCode_countKind _ bb n selfValue _ KDeallocStack) by not_member_kind.
  rewrite (@membersCode_countKind _ bb n selfValue _ KBeginBorrow) by not_member_kind.
  rewrite (@membersCode_countKind _ bb n selfValue _ KLoadBorrow) by not_member_kind.
  rewrite (@membersCode_countKind _ bb n selfValue _ KEndBorrow) by not_member_kind.
  destruct (findRecursiveLinks cd []) as [|link0 links];
    [|rewrite chainCode_kinds];
    destruct (isRootDefaultActor cd); cbn; repeat split; lia.
Qed.

(** X14.  In the destroying destructor (when the body can fall through)
    and in the deallocating destructor of a class every scope that is
    opened is closed: there are as many [end_access] as [begin_access], as
    many [dealloc_stack] as [alloc_stack], and as many [end_borrow] as
    [begin_borrow] and [load_borrow] together. *)
Theorem destructor_scopes_balanced dd cd conv prof isIsolated :
  getSelfNominalTypeDecl dd = NominalClass cd ->
  let balanced (l : list Placed) :=
    countKind KBeginAccess (kinds l) = countKind KEndAccess (kinds l) /\
    countKind KAllocStack (kinds l) = countKind KDeallocStack (kinds l) /\
    countKind KBeginBorrow (kinds l) + countKind KLoadBorrow (kinds l)
    = countKind KEndBorrow (kinds l) in
  (bodyFallsThrough dd = true ->
   exists l,
     emitFunction Guaranteed prof (emitDestroyingDestructor dd) = Some l /\
     balanced l) /\
  (exists l,
     emitFunction conv prof (emitDeallocatingClassDestructor dd isIsolated) = Some l /\
     balanced l).
Proof.
  intros Hc balanced. subst balanced. cbv beta. split.
  - intro Hf.
    destruct (emitDestroyingDestructor_result dd prof Hc Hf)
      as (head & bv & n & tl & ret & v & He & Hh & Ht & _).
    eexists. split; [exact He|].
    destruct (classMemberCode_balanced 0 n 1 bv cd) as (Ha & Hs & Hb & Hl).
    rewrite !kinds_app, <- (kinds_app tl [ret]), Hh, Ht.
    rewrite !countKind_app, Ha, Hs, Hb, Hl.
    unfold destroyingHeadKinds, destroyingPrologKinds, destroyingTailKinds.
    destruct (requiresUnavailableDeclABICompatibilityStubs dd);
      destruct (hasExecutor (ddIsolation dd)); destruct prof;
      destruct (callsSuperclassDestructor cd);
      destruct (isDistributedActor cd);
      cbn; repeat split; lia.
  - destruct (emitDeallocatingClassDestructor_kinds dd conv prof isIsolated Hc)
      as (l & n & bv & He & Hk).
    exists l. split; [exact He|].
    rewrite Hk. unfold remoteWrapperKinds.
    destruct (isIsolated || negb (isDistributedActor cd)).
    + destruct (requiresUnavailableDeclABICompatibilityStubs dd);
        cbn; repeat split; lia.
    + rewrite !countKind_app.
      rewrite (membersCode_balanced remoteSkips 1 n bv (getStoredProperties cd)).
      rewrite (@membersCode_countKind _ 1 n bv _ KAllocStack) by not_member_kind.
      rewrite (@membersCode_countKind _ 1 n bv _ KDeallocStack) by not_member_kind.
      rewrite (@membersCode_countKind _ 1 n bv _ KBeginBorrow) by not_member_kind.
      rewrite (@membersCode_countKind _ 1 n bv _ KLoadBorrow) by not_member_kind.
      rewrite (@membersCode_countKind _ 1 n bv _ KEndBorrow) by not_member_kind.
      destruct (requiresUnavailableDeclABICompatibilityStubs dd);
        destruct (isRootDefaultActor cd);
        cbn; repeat split; lia.
Qed.

Lemma destructor_scopes_balanced_witness :
  let dd := sampleDestructor NodeClass Unspecified in
  let balanced (l : list Placed) :=
    countKind KBeginAccess (kinds l) = countKind KEndAccess (kinds l) /\
    countKind KAllocStack (kinds l) = countKind KDeallocStack (kinds l) /\
    countKind KBeginBorrow (kinds l) + countKind KLoadBorrow (kinds l)
    = countKind KEndBorrow (kinds l) in
  (true = true ->
   exists l,
     emitFunction Guaranteed false (emitDestroyingDestructor dd) = Some l /\
     balanced l) /\
  (exists l,
     emitFunction Owned false (emitDeallocatingClassDestructor dd false) = Some l /\
     balanced l).
Proof.
  exact (@destructor_scopes_balanced (sampleDestructor NodeClass Unspecified)
           NodeClass Owned false false eq_refl).
Defined.

(* ================================================================== *)
(** * The isolating destructor                                         *)
(* ================================================================== *)

Lemma emitIsolatingDestructor_local dd cd conv prof :
  getSelfNominalTypeDecl dd = NominalClass cd ->
  hasExecutor (ddIsolation dd) = true ->
  isDistributedActor cd = false ->
  emitFunction conv prof (emitIsolatingDestructor dd) =
  Some (isolatingLocalCode 0 0 (selfArgument cd conv) cd (ddIsolation dd)
        ++ [place 0 8 (TupleInst []); place 0 9 (ReturnInst (emptyTupleAt 8))]).
Proof.
  intros Hc He Hd.
  unfold emitIsolatingDestructor, emitDistributedRemoteActorDeinit, emitFunction.
  rewrite Hc. silgen. rewrite Hd.
  destruct (ddIsolation dd); try discriminate He; silgen; norm_app; reflexivity.
Qed.

Lemma emitIsolatingDestructor_remote dd cd conv prof :
  getSelfNominalTypeDecl dd = NominalClass cd ->
  hasExecutor (ddIsolation dd) = true ->
  isDistributedActor cd = true ->
  exists l n nl nt,
    emitFunction conv prof (emitIsolatingDestructor dd) = Some l /\
    let self := selfArgument cd conv in
    let borrowedSelf := {| getValue := borrowOf n self; hasCleanup := true |} in
    blockInsts 0 l = [DistributedIfRemoteBranch self 1 3] /\
    blockInsts 1 l =
      [BeginBorrowInst self false]
      ++ listing (membersCode remoteSkips 1 (S n) borrowedSelf (getStoredProperties cd))
      ++ (if isRootDefaultActor cd
          then [BuiltinInst "destroyDefaultActor" [borrowOf n self]] else [])
      ++ [EndBorrowInst (borrowOf n self); DeallocRefInst self; BranchInst 2] /\
    blockInsts 3 l =
      listing (isolatingLocalCode 3 nl self cd (ddIsolation dd)) ++ [BranchInst 2] /\
    blockInsts 2 l = [TupleInst []; ReturnInst (emptyTupleAt nt)].
Proof.
  intros Hc He Hd.
  unfold emitIsolatingDestructor, emitDistributedRemoteActorDeinit, emitFunction.
  rewrite Hc. silgen. rewrite Hd.
  destruct (ddIsolation dd); try discriminate He; silgen;
    rewrite_run remote_loop_eq;
    rewrite_run (membersLoop_run remoteSkips);
    silgen; destruct (isRootDefaultActor cd); silgen; norm_app;
    (eexists; eexists; eexists; eexists; split; [reflexivity|]);
    cbv zeta; calc_blocks;
    (split; [reflexivity|]); (split; [reflexivity|]); (split; reflexivity).
Qed.

Lemma isolatingLocalCode_shape bb n cd conv ai :
  exists f castedSelf castedDeallocator dtor executor actor flags,
    last (listing (isolatingLocalCode bb n (selfArgument cd conv) cd ai)) (TupleInst [])
    = ApplyInst f None [castedSelf; castedDeallocator; executor; flags] /\
    definedBy f
      (FunctionRefInst {| declRefName := "swift_task_deinitOnExecutor";
                          declRefKind := Func |}) /\
    definedBy castedSelf
      (InitExistentialRefInst (selfArgument cd conv) (ClassType (className cd))) /\
    getType castedSelf = ObjectTy AnyObjectType /\
    getOwnershipKind castedSelf = conv /\
    definedBy castedDeallocator (ConvertFunctionInst dtor) /\
    definedBy dtor
      (FunctionRefInst {| declRefName := className cd;
                          declRefKind := IsolatedDeallocator |}) /\
    definedBy executor (ExtractExecutorInst actor) /\
    definedBy actor (LoadActorExecutor ai (selfArgument cd conv)) /\
    definedBy flags (IntegerLiteralInst 0).
Proof.
  do 7 eexists. split; [reflexivity|].
  repeat split; try reflexivity; do 3 eexists; reflexivity.
Qed.

Lemma isolatingLocalCode_kinds bb n selfValue cd ai :
  map getKind (listing (isolatingLocalCode bb n selfValue cd ai)) =
  isolatingLocalKinds.
Proof. reflexivity. Qed.

Lemma In_last {A} (l : list A) d : l <> [] -> In (last l d) l.
Proof.
  induction l as [|x l IH]; intro H; [contradiction|].
  destruct l as [|y l]; [now left|].
  right. apply IH. discriminate.
Qed.

(** X15.  The isolating destructor never frees a local actor itself and
    never runs its deinit directly: on the path of a local instance its
    one call hands self, as an owned [AnyObject], the isolated
    deallocator of the class, converted to a function of [AnyObject], the
    executor of the isolation of the deinit and the flags [0] to
    [swift_task_deinitOnExecutor], and nothing is freed.  Only a remote
    proxy of a distributed actor is freed on the spot, without any call. *)
Theorem isolating_destructor_schedules_deallocator dd cd conv prof remote e :
  getSelfNominalTypeDecl dd = NominalClass cd ->
  hasExecutor (ddIsolation dd) = true ->
  exists l path,
    emitFunction conv prof (emitIsolatingDestructor dd) = Some l /\
    executedFrom 3 {| isRemoteProxy := remote; enumCase := e |} l 0 = Some path /\
    if takesRemoteBranch cd false remote then
      countKind KDeallocRef (map getKind path) = 1 /\
      countKind KApply (map getKind path) = 0
    else
      countKind KDeallocRef (map getKind path) = 0 /\
      countKind KApply (map getKind path) = 1 /\
      exists f castedSelf castedDeallocator dtor executor actor flags,
        In (ApplyInst f None [castedSelf; castedDeallocator; executor; flags]) path /\
        definedBy f
          (FunctionRefInst {| declRefName := "swift_task_deinitOnExecutor";
                              declRefKind := Func |}) /\
        definedBy castedSelf
          (InitExistentialRefInst (selfArgument cd conv) (ClassType (className cd))) /\
        getType castedSelf = ObjectTy AnyObjectType /\
        getOwnershipKind castedSelf = conv /\
        definedBy castedDeallocator (ConvertFunctionInst dtor) /\
        definedBy dtor
          (FunctionRefInst {| declRefName := className cd;
                              declRefKind := IsolatedDeallocator |}) /\
        definedBy executor (ExtractExecutorInst actor) /\
        definedBy actor (LoadActorExecutor (ddIsolation dd) (selfArgument cd conv)) /\
        definedBy flags (IntegerLiteralInst 0).
Proof.
  intros Hc He. unfold takesRemoteBranch. cbn [negb]. rewrite andb_true_r.
  destruct (isDistributedActor cd) eqn:Hd.
  - destruct (emitIsolatingDestructor_remote dd conv prof Hc He Hd)
      as (l & n & nl & nt & Hl & H0 & H1 & H3 & H2).
    cbv zeta in H0, H1, H3.
    assert (L0 : last (blockInsts 0 l) (TupleInst []) =
                 DistributedIfRemoteBranch (selfArgument cd conv) 1 3)
      by now rewrite H0.
    assert (L1 : last (blockInsts 1 l) (TupleInst []) = BranchInst 2)
      by (rewrite H1, !app_assoc; now rewrite last_app_nonempty by discriminate).
    assert (L3 : last (blockInsts 3 l) (TupleInst []) = BranchInst 2)
      by (rewrite H3; now rewrite last_app_nonempty by discriminate).
    assert (L2 : last (blockInsts 2 l) (TupleInst []) = ReturnInst (emptyTupleAt nt))
      by now rewrite H2.
    exists l. rewrite andb_true_r. destruct remote.
    + eexists. split; [exact Hl|]. split.
      { cbn [executedFrom]. rewrite L0. cbn [transfer isRemoteProxy].
        rewrite L1. cbn [transfer]. rewrite L2. cbn [transfer]. reflexivity. }
      rewrite H0, H1, H2. rewrite !map_app, !countKind_app.
      rewrite (@remoteMembers_countKind _ _ _ KDeallocRef) by not_member_kind.
      rewrite (@remoteMembers_countKind _ _ _ KApply) by not_member_kind.
      destruct (isRootDefaultActor cd); split; reflexivity.
    + eexists. split; [exact Hl|]. split.
      { cbn [executedFrom]. rewrite L0. cbn [transfer isRemoteProxy].
        rewrite L3. cbn [transfer]. rewrite L2. cbn [transfer]. reflexivity. }
      rewrite H0, H3, H2.
      split; [reflexivity|]. split; [reflexivity|].
      destruct (isolatingLocalCode_shape 3 nl cd conv (ddIsolation dd))
        as (f & cs & cdl & dtor & ex & actor & flags & Hlast & Hrest).
      exists f, cs, cdl, dtor, ex, actor, flags. split; [|exact Hrest].
      rewrite <- Hlast. cbn [app]. right. apply in_or_app. left.
      apply in_or_app. left. apply In_last. discriminate.
  - rewrite (emitIsolatingDestructor_local dd conv prof Hc He Hd).
    rewrite andb_false_r.
    eexists. eexists. split; [reflexivity|]. split.
    { apply executedFrom_exit with (v := emptyTupleAt 8). reflexivity. }
    split; [reflexivity|]. split; [reflexivity|].
    destruct (isolatingLocalCode_shape 0 0 cd conv (ddIsolation dd))
      as (f & cs & cdl & dtor & ex & actor & flags & Hlast & Hrest).
    exists f, cs, cdl, dtor, ex, actor, flags. split; [|exact Hrest].
    rewrite <- Hlast.
    change (blockInsts 0
              (isolatingLocalCode 0 0 (selfArgument cd conv) cd (ddIsolation dd) ++
               [place 0 8 (TupleInst []); place 0 9 (ReturnInst (emptyTupleAt 8))]))
      with (listing (isolatingLocalCode 0 0 (selfArgument cd conv) cd (ddIsolation dd))
            ++ [TupleInst []; ReturnInst (emptyTupleAt 8)]).
    apply in_or_app. left. apply In_last. discriminate.
Qed.

Lemma isolating_destructor_schedules_deallocator_witness :
  exists l path,
    emitFunction Owned false
      (emitIsolatingDestructor (sampleDestructor WorkerActor ActorInstance)) = Some l /\
    executedFrom 3 {| isRemoteProxy := false; enumCase := OptionalNoneDecl |} l 0
    = Some path /\
    countKind KDeallocRef (map getKind path) = 0 /\
    countKind KApply (map getKind path) = 1 /\
    exists f castedSelf castedDeallocator dtor executor actor flags,
      In (ApplyInst f None [castedSelf; castedDeallocator; executor; flags]) path /\
      definedBy f
        (FunctionRefInst {| declRefName := "swift_task_deinitOnExecutor";
                            declRefKind := Func |}) /\
      definedBy castedSelf
        (InitExistentialRefInst (selfArgument WorkerActor Owned) (ClassType "Worker")) /\
      getType castedSelf = ObjectTy AnyObjectType /\
      getOwnershipKind castedSelf = Owned /\
      definedBy castedDeallocator (ConvertFunctionInst dtor) /\
      definedBy dtor
        (FunctionRefInst {| declRefName := "Worker";
                            declRefKind := IsolatedDeallocator |}) /\
      definedBy executor (ExtractExecutorInst actor) /\
      definedBy actor (LoadActorExecutor ActorInstance (selfArgument WorkerActor Owned)) /\
      definedBy flags (IntegerLiteralInst 0).
Proof.
  exact (@isolating_destructor_schedules_deallocator
           (sampleDestructor WorkerActor ActorInstance) WorkerActor Owned false
           false OptionalNoneDecl eq_refl eq_refl).
Defined.

(* ================================================================== *)
(** * Well-formed control flow                                         *)
(* ================================================================== *)

Lemma noTerminators_app xs ys :
  noTerminators (xs ++ ys) = noTerminators xs && noTerminators ys.
Proof. apply forallb_app. Qed.

Lemma forallb_rev {A} (f : A -> bool) l : forallb f (rev l) = forallb f l.
Proof.
  induction l as [|x l IH]; [reflexivity|].
  cbn [rev forallb]. rewrite forallb_app, IH. cbn [forallb].
  rewrite andb_true_r. apply andb_comm.
Qed.

Lemma closedBlock_snoc xs t :
  noTerminators xs = true -> isTerminator t = true -> closedBlock (xs ++ [t]) = true.
Proof.
  intros Hx Ht. unfold closedBlock. rewrite rev_app_distr. cbn [rev app].
  rewrite Ht. cbn [andb]. fold (noTerminators (rev xs)).
  unfold noTerminators. now rewrite forallb_rev.
Qed.

Lemma closedBlock_inv l :
  closedBlock l = true ->
  exists before t, l = before ++ [t] /\ isTerminator t = true /\
                   noTerminators before = true.
Proof.
  unfold closedBlock. intro H.
  destruct (rev l) as [|t b] eqn:E; [discriminate|].
  apply andb_true_iff in H. destruct H as [Ht Hb].
  exists (rev b), t. split.
  - rewrite <- (rev_involutive l), E. reflexivity.
  - split; [exact Ht|]. unfold noTerminators. now rewrite forallb_rev.
Qed.

Lemma closedBlock_prefix xs ys :
  noTerminators xs = true -> closedBlock ys = true -> closedBlock (xs ++ ys) = true.
Proof.
  intros Hx Hy. apply closedBlock_inv in Hy.
  destruct Hy as (before & t & -> & Ht & Hb).
  rewrite app_assoc. apply closedBlock_snoc; [|exact Ht].
  now rewrite noTerminators_app, Hx, Hb.
Qed.

Lemma noTerminators_blockInsts bb l :
  noTerminators (listing l) = true -> noTerminators (blockInsts bb l) = true.
Proof.
  unfold noTerminators, listing, blockInsts. rewrite !forallb_forall.
  intros H i Hi. apply H. apply in_map_iff in Hi. destruct Hi as (p & <- & Hp).
  apply filter_In in Hp. apply in_map. apply Hp.
Qed.

Lemma isTerminator_kind i :
  isTerminator i = true ->
  In (getKind i) [KReturn; KBranch; KCondBranch; KSwitchEnumAddr;
                  KDistributedIfRemoteBranch].
Proof. destruct i; cbn; intro H; try discriminate H; tauto. Qed.

Lemma noTerminators_kinds l :
  (forall k, In k (kinds l) ->
             ~ In k [KReturn; KBranch; KCondBranch; KSwitchEnumAddr;
                     KDistributedIfRemoteBranch]) ->
  noTerminators (listing l) = true.
Proof.
  intro H. unfold noTerminators, listing. apply forallb_forall.
  intros i Hi. apply in_map_iff in Hi. destruct Hi as (p & <- & Hp).
  destruct (isTerminator (placedInst p)) eqn:E; [|reflexivity].
  exfalso. apply (H (getKind (placedInst p))).
  - now apply In_kinds.
  - now apply isTerminator_kind.
Qed.

Lemma successors_nonterminator i : isTerminator i = false -> successors i = [].
Proof. destruct i; cbn; intro H; try discriminate H; reflexivity. Qed.

Lemma withinBlocks_straight nblocks bb l :
  bb < nblocks ->
  Forall (fun p => placedBB p = bb) l ->
  noTerminators (listing l) = true ->
  forallb (withinBlocks nblocks) l = true.
Proof.
  intros Hlt Hb Hn. apply forallb_forall. intros p Hp.
  rewrite Forall_forall in Hb. unfold withinBlocks. rewrite (Hb p Hp).
  apply Nat.ltb_lt in Hlt. rewrite Hlt. cbn [andb].
  unfold noTerminators, listing in Hn. rewrite forallb_forall in Hn.
  rewrite successors_nonterminator; [reflexivity|].
  apply negb_true_iff. apply Hn. now apply in_map.
Qed.

Lemma membersCode_noTerminators skip bb n selfValue props :
  noTerminators (listing (membersCode skip bb n selfValue props)) = true.
Proof.
  apply noTerminators_kinds. intros k Hk Ht.
  apply membersCode_kinds in Hk. cbn [In] in Hk, Ht.
  repeat (destruct Hk as [<- | Hk];
          [repeat (destruct Ht as [Ht | Ht]; [discriminate Ht|]); exact Ht|]).
  exact Hk.
Qed.

(** Code that goes on in [exitBB], between a straight head in the entry
    block and a straight tail that returns. *)
Lemma wellFormedBlocks_compose head code tl ret exitBB nblocks :
  noTerminators (listing head) = true ->
  Forall (fun p => placedBB p = 0) head ->
  openAt exitBB nblocks code ->
  exitBB < nblocks ->
  noTerminators (listing tl) = true ->
  Forall (fun p => placedBB p = exitBB) tl ->
  placedBB ret = exitBB ->
  (exists v, placedInst ret = ReturnInst v) ->
  wellFormedBlocks nblocks (head ++ code ++ tl ++ [ret]).
Proof.
  intros Hh Hh0 (Hclosed & Hopen & Hin) Hlt Ht Ht0 Hr (v & Hv).
  assert (Hpos : 0 < nblocks) by lia.
  assert (Hret : forallb (withinBlocks nblocks) [ret] = true).
  { cbn [forallb]. unfold withinBlocks. rewrite Hr, Hv.
    apply Nat.ltb_lt in Hlt. rewrite Hlt. reflexivity. }
  split.
  - intros bb Hbb. rewrite !blockInsts_app.
    destruct (Nat.eq_dec bb exitBB) as [-> | Hne].
    + rewrite (blockInsts_same Ht0).
      replace (blockInsts exitBB [ret]) with [placedInst ret]
        by (unfold blockInsts; cbn [filter]; rewrite Hr, Nat.eqb_refl; reflexivity).
      rewrite !app_assoc. apply closedBlock_snoc; [|now rewrite Hv].
      rewrite !noTerminators_app, Hopen, Ht.
      now rewrite (noTerminators_blockInsts exitBB head Hh).
    + rewrite (@blockInsts_other bb exitBB tl Ht0) by congruence.
      replace (blockInsts bb [ret]) with (@nil SILInstruction).
      2:{ unfold blockInsts. cbn [filter]. rewrite Hr.
          destruct (Nat.eqb_spec exitBB bb); [congruence | reflexivity]. }
      rewrite !app_nil_r. apply closedBlock_prefix.
      * now apply noTerminators_blockInsts.
      * now apply Hclosed.
  - rewrite !forallb_app, Hin, Hret.
    rewrite (withinBlocks_straight Hpos Hh0 Hh).
    rewrite (withinBlocks_straight Hlt Ht0 Ht). reflexivity.
Qed.

(** ** The member destruction *)

Lemma chainCode_closed n selfValue cd link bb :
  bb < 7 -> bb <> 1 ->
  closedBlock (blockInsts bb (chainCode 0 n 1 selfValue cd link)) = true.
Proof.
  intros Hlt Hne.
  unfold chainCode, codeOf, standingAt, emitRecursiveChainDestruction.
  silgen.
  do 7 (destruct bb as [|bb]; [try contradiction; try reflexivity|]).
  lia.
Qed.

Lemma chainCode_open n selfValue cd link :
  noTerminators (blockInsts 1 (chainCode 0 n 1 selfValue cd link)) = true /\
  forallb (withinBlocks 7) (chainCode 0 n 1 selfValue cd link) = true.
Proof.
  unfold chainCode, codeOf, standingAt, emitRecursiveChainDestruction.
  silgen. split; reflexivity.
Qed.

Lemma classMemberCode_openAt n selfValue cd :
  openAt (memberExitBB cd 0 1) (memberBlocks cd) (classMemberCode 0 n 1 selfValue cd).
Proof.
  unfold openAt, memberExitBB, memberBlocks, classMemberCode. cbv zeta.
  pose proof (membersCode_noTerminators
                (setVectorContains (findRecursiveLinks cd [])) 0 n selfValue
                (getStoredProperties cd)) as Hm.
  pose proof (membersCode_block
                (setVectorContains (findRecursiveLinks cd [])) 0 selfValue
                (getStoredProperties cd) n) as Hb.
  destruct (findRecursiveLinks cd []) as [|link0 links] eqn:Hl.
  - split; [intros bb H1 H2; lia|]. split.
    + rewrite !blockInsts_app, (blockInsts_same Hb), !noTerminators_app, Hm.
      destruct (isRootDefaultActor cd); reflexivity.
    + rewrite !forallb_app.
      rewrite (@withinBlocks_straight 1 0 _ (Nat.lt_0_1) Hb Hm).
      destruct (isRootDefaultActor cd); reflexivity.
  - destruct (chainCode_open
                (n + List.length
                       (membersCode (setVectorContains (link0 :: links)) 0 n
                                    selfValue (getStoredProperties cd)))
                selfValue cd link0) as [Ho Hw].
    split; [|split].
    + intros bb H1 H2. rewrite !blockInsts_app.
      replace (blockInsts bb
                 (if isRootDefaultActor cd
                  then [place 1 _ (BuiltinInst "destroyDefaultActor" [getValue selfValue])]
                  else []))
        with (@nil SILInstruction).
      2:{ destruct (isRootDefaultActor cd); [|reflexivity].
          unfold blockInsts. cbn [filter place placedBB].
          destruct (Nat.eqb_spec 1 bb); [congruence | reflexivity]. }
      rewrite app_nil_r. apply closedBlock_prefix.
      * apply noTerminators_blockInsts. exact Hm.
      * apply chainCode_closed; assumption.
    + rewrite !blockInsts_app, (@blockInsts_other 1 0 _ Hb) by discriminate.
      rewrite app_nil_l, noTerminators_app, Ho.
      destruct (isRootDefaultActor cd); reflexivity.
    + rewrite !forallb_app, Hw.
      assert (H7 : 0 < 7) by lia.
      rewrite (@withinBlocks_straight 7 0 _ H7 Hb Hm).
      destruct (isRootDefaultActor cd); reflexivity.
Qed.

Lemma memberExitBB_lt cd : memberExitBB cd 0 1 < memberBlocks cd.
Proof.
  unfold memberExitBB, memberBlocks. destruct (findRecursiveLinks cd []); lia.
Qed.

Lemma destroyingHeadKinds_noTerminators dd cd prof head :
  kinds head = destroyingHeadKinds dd cd prof ->
  noTerminators (listing head) = true.
Proof.
  intro H. apply noTerminators_kinds. intros k Hk Ht. rewrite H in Hk.
  apply destroyingHeadKinds_cases in Hk. cbn [In] in Hk, Ht.
  repeat (destruct Hk as [<- | Hk];
          [repeat (destruct Ht as [Ht | Ht]; [discriminate Ht|]); exact Ht|]).
  exact Hk.
Qed.

Lemma noTerminators_listing_kinds l :
  noTerminators (listing l) =
  forallb (fun k => negb (existsb (SILInstructionKind_beq k)
                            [KReturn; KBranch; KCondBranch; KSwitchEnumAddr;
                             KDistributedIfRemoteBranch]))
          (kinds l).
Proof.
  unfold noTerminators, listing, kinds. induction l as [|p l IH]; [reflexivity|].
  cbn [map forallb]. rewrite IH. f_equal.
  destruct (placedInst p); reflexivity.
Qed.

(** X16.  The control flow of the destroying destructor (when the body
    can fall through) and of the ivar destroyer is well formed: the
    function has one block, or seven when the class has a recursive link;
    every block ends in its one terminator, and every instruction sits in
    one of these blocks and branches only to them. *)
Theorem member_destructors_well_formed dd cd conv prof :
  getSelfNominalTypeDecl dd = NominalClass cd ->
  (bodyFallsThrough dd = true ->
   exists l,
     emitFunction Guaranteed prof (emitDestroyingDestructor dd) = Some l /\
     wellFormedBlocks (memberBlocks cd) l) /\
  (exists l,
     emitFunction conv prof (emitIVarDestroyer cd) = Some l /\
     wellFormedBlocks (memberBlocks cd) l).
Proof.
  intro Hc. split.
  - intro Hf.
    destruct (emitDestroyingDestructor_result dd prof Hc Hf)
      as (head & bv & n & tl & ret & v & He & Hh & Ht & Hrb & Hr & _ & _ & _
          & Hh0 & Ht0).
    eexists. split; [exact He|].
    apply wellFormedBlocks_compose with (exitBB := memberExitBB cd 0 1).
    + now apply (destroyingHeadKinds_noTerminators dd cd prof).
    + exact Hh0.
    + apply classMemberCode_openAt.
    + apply memberExitBB_lt.
    + rewrite noTerminators_listing_kinds.
      rewrite kinds_app in Ht. unfold destroyingTailKinds in Ht.
      destruct (callsSuperclassDestructor cd).
      * assert (E : kinds tl = [KEndBorrow]).
        { apply app_inj_tail in Ht. apply Ht. }
        now rewrite E.
      * assert (E : kinds tl = [KUncheckedRefCast; KUncheckedOwnershipConversion]).
        { apply app_inj_tail in Ht. apply Ht. }
        now rewrite E.
    + exact Ht0.
    + exact Hrb.
    + now exists v.
  - destruct (emitIVarDestroyer_listing cd conv prof)
      as (pre & bv & n & post & nt & He & Hown & H & Hp0 & Hq0).
    assert (Hpost : exists tl ret,
               post = tl ++ [ret] /\ noTerminators (listing tl) = true /\
               (exists v, placedInst ret = ReturnInst v) /\
               noTerminators (listing pre) = true).
    { destruct (OwnershipKind_eqb conv Guaranteed).
      - destruct H as (-> & _ & Hl).
        destruct post as [|a [|b [|c post]]]; try discriminate Hl.
        injection Hl as Ha Hb. exists [a], b.
        split; [reflexivity|]. split; [cbn; now rewrite Ha|].
        split; [eexists; exact Hb | reflexivity].
      - destruct H as (Hpre & _ & Hl).
        destruct post as [|a [|b [|c [|d post]]]]; try discriminate Hl.
        injection Hl as Ha Hb Hc'. exists [a; b], c.
        split; [reflexivity|]. split; [cbn; now rewrite Ha, Hb|].
        split; [eexists; exact Hc'|]. now rewrite Hpre. }
    destruct Hpost as (tl & ret & -> & Htl & Hret & Hpre).
    apply Forall_app in Hq0. destruct Hq0 as [Hq0 Hq1].
    eexists. split; [exact He|].
    apply wellFormedBlocks_compose with (exitBB := memberExitBB cd 0 1);
      try assumption.
    + apply classMemberCode_openAt.
    + apply memberExitBB_lt.
    + now inversion Hq1.
Qed.

Lemma member_destructors_well_formed_witness :
  (true = true ->
   exists l,
     emitFunction Guaranteed false
       (emitDestroyingDestructor (sampleDestructor NodeClass Unspecified)) = Some l /\
     wellFormedBlocks 7 l) /\
  (exists l,
     emitFunction Unowned false (emitIVarDestroyer NodeClass) = Some l /\
     wellFormedBlocks 7 l).
Proof.
  exact (@member_destructors_well_formed (sampleDestructor NodeClass Unspecified)
           NodeClass Unowned false eq_refl).
Defined.

(** ** The wrapper around the local deinit *)

Lemma forallb_cons_true {A} (f : A -> bool) x l :
  f x = true -> forallb f (x :: l) = forallb f l.
Proof. intro H. cbn [forallb]. now rewrite H. Qed.

Lemma wrapper_blocks_closed l self borrowed members actor localInsts nt :
  blockInsts 0 l = [DistributedIfRemoteBranch self 1 3] \/
  blockInsts 0 l = [UnavailableCodeReached; DistributedIfRemoteBranch self 1 3] ->
  blockInsts 1 l =
    [BeginBorrowInst self false] ++ members ++ actor
    ++ [EndBorrowInst borrowed; DeallocRefInst self; BranchInst 2] ->
  blockInsts 3 l = localInsts ++ [BranchInst 2] ->
  blockInsts 2 l = [TupleInst []; ReturnInst (emptyTupleAt nt)] ->
  noTerminators members = true ->
  noTerminators actor = true ->
  noTerminators localInsts = true ->
  forall bb, bb < 4 -> closedBlock (blockInsts bb l) = true.
Proof.
  intros H0 H1 H3 H2 Hm Ha Hl bb Hbb.
  destruct bb as [|[|[|[|bb]]]]; [| | | |lia].
  - destruct H0 as [-> | ->]; reflexivity.
  - rewrite H1.
    change [EndBorrowInst borrowed; DeallocRefInst self; BranchInst 2]
      with ([EndBorrowInst borrowed; DeallocRefInst self] ++ [BranchInst 2]).
    rewrite !app_assoc. apply closedBlock_snoc; [|reflexivity].
    rewrite !noTerminators_app, Hm, Ha. reflexivity.
  - rewrite H2. reflexivity.
  - rewrite H3. apply closedBlock_snoc; [exact Hl | reflexivity].
Qed.

Ltac within_blocks :=
  repeat first
    [ rewrite forallb_cons_true by reflexivity
    | rewrite forallb_app
    | rewrite (@withinBlocks_straight 4 1 _ (ltac:(lia))
                 (membersCode_block _ _ _ _ _)
                 (membersCode_noTerminators _ _ _ _ _)) ];
  reflexivity.

Lemma emitDeallocatingClassDestructor_within dd cd conv prof :
  getSelfNominalTypeDecl dd = NominalClass cd ->
  isDistributedActor cd = true ->
  exists l,
    emitFunction conv prof (emitDeallocatingClassDestructor dd false) = Some l /\
    forallb (withinBlocks 4) l = true.
Proof.
  intros Hc Hd.
  unfold emitDeallocatingClassDestructor, emitDistributedRemoteActorDeinit, emitFunction.
  rewrite Hc. silgen. rewrite Hd.
  destruct (requiresUnavailableDeclABICompatibilityStubs dd); silgen;
    rewrite_run remote_loop_eq;
    rewrite_run (membersLoop_run remoteSkips);
    silgen; destruct (isRootDefaultActor cd); silgen; norm_app;
    (eexists; split; [reflexivity|]);
    within_blocks.
Qed.

Lemma emitIsolatingDestructor_within dd cd conv prof :
  getSelfNominalTypeDecl dd = NominalClass cd ->
  hasExecutor (ddIsolation dd) = true ->
  isDistributedActor cd = true ->
  exists l,
    emitFunction conv prof (emitIsolatingDestructor dd) = Some l /\
    forallb (withinBlocks 4) l = true.
Proof.
  intros Hc He Hd.
  unfold emitIsolatingDestructor, emitDistributedRemoteActorDeinit, emitFunction.
  rewrite Hc. silgen. rewrite Hd.
  destruct (ddIsolation dd); try discriminate He; silgen;
    rewrite_run remote_loop_eq;
    rewrite_run (membersLoop_run remoteSkips);
    silgen; destruct (isRootDefaultActor cd); silgen; norm_app;
    (eexists; split; [reflexivity|]);
    within_blocks.
Qed.

(** X17.  The control flow of the deallocating destructor of a class and
    of the isolating destructor is well formed: the function has one
    block, or four (the test, the remote branch, the local branch and the
    block where they join) when the wrapper tests for a remote proxy;
    every block ends in its one terminator, and every instruction sits in
    one of these blocks and branches only to them. *)
Theorem wrapper_destructors_well_formed dd cd conv prof isIsolated :
  getSelfNominalTypeDecl dd = NominalClass cd ->
  (exists l,
     emitFunction conv prof (emitDeallocatingClassDestructor dd isIsolated) = Some l /\
     wellFormedBlocks (wrapperBlocks cd isIsolated) l) /\
  (hasExecutor (ddIsolation dd) = true ->
   exists l,
     emitFunction conv prof (emitIsolatingDestructor dd) = Some l /\
     wellFormedBlocks (wrapperBlocks cd false) l).
Proof.
  intro Hc. unfold wrapperBlocks. split.
  - destruct (isIsolated || negb (isDistributedActor cd)) eqn:Hl.
    + destruct (emitDeallocatingClassDestructor_local dd conv prof isIsolated Hc Hl)
        as (pre & n & He & ->).
      eexists. split; [exact He|]. split.
      * intros bb Hbb. assert (bb = 0) by lia. subst bb.
        destruct (requiresUnavailableDeclABICompatibilityStubs dd); reflexivity.
      * destruct (requiresUnavailableDeclABICompatibilityStubs dd); reflexivity.
    + assert (Hd : isDistributedActor cd = true /\ isIsolated = false).
      { destruct isIsolated, (isDistributedActor cd); try discriminate Hl; auto. }
      destruct Hd as [Hd ->].
      destruct (emitDeallocatingClassDestructor_remote dd conv prof Hc Hd)
        as (l & n & nl & nt & He & H0 & H1 & H3 & H2 & _).
      destruct (emitDeallocatingClassDestructor_within dd conv prof Hc Hd)
        as (l' & He' & Hw).
      rewrite He in He'. injection He' as <-.
      cbv zeta in H0, H1, H3.
      exists l. split; [exact He|]. split; [|exact Hw].
      eapply wrapper_blocks_closed; try eassumption.
      * destruct (requiresUnavailableDeclABICompatibilityStubs dd);
          [right | left]; exact H0.
      * apply membersCode_noTerminators.
      * destruct (isRootDefaultActor cd); reflexivity.
      * reflexivity.
  - intro Hx. cbn [orb].
    destruct (isDistributedActor cd) eqn:Hd; cbn [negb].
    + destruct (emitIsolatingDestructor_remote dd conv prof Hc Hx Hd)
        as (l & n & nl & nt & He & H0 & H1 & H3 & H2).
      destruct (emitIsolatingDestructor_within dd conv prof Hc Hx Hd)
        as (l' & He' & Hw).
      rewrite He in He'. injection He' as <-.
      cbv zeta in H0, H1, H3.
      exists l. split; [exact He|]. split; [|exact Hw].
      eapply wrapper_blocks_closed; try eassumption.
      * left. exact H0.
      * apply membersCode_noTerminators.
      * destruct (isRootDefaultActor cd); reflexivity.
      * reflexivity.
    + rewrite (emitIsolatingDestructor_local dd conv prof Hc Hx Hd).
      eexists. split; [reflexivity|]. split.
      * intros bb Hbb. assert (bb = 0) by lia. subst bb. reflexivity.
      * reflexivity.
Qed.

Lemma wrapper_destructors_well_formed_witness :
  (exists l,
     emitFunction Owned false
       (emitDeallocatingClassDestructor
          (sampleDestructor WorkerActor ActorInstance) false) = Some l /\
     wellFormedBlocks 4 l) /\
  (true = true ->
   exists l,
     emitFunction Owned false
       (emitIsolatingDestructor (sampleDestructor WorkerActor ActorInstance)) = Some l /\
     wellFormedBlocks 4 l).
Proof.
  exact (@wrapper_destructors_well_formed
           (sampleDestructor WorkerActor ActorInstance) WorkerActor Owned false false
           eq_refl).
Defined.

(* ================================================================== *)
(** * The epilog of the destroying destructor                          *)
(* ================================================================== *)

Lemma emitDestroyingDestructor_epilog dd cd prof :
  getSelfNominalTypeDecl dd = NominalClass cd ->
  bodyFallsThrough dd = true ->
  exists head bv n tail,
    emitFunction Guaranteed prof (emitDestroyingDestructor dd) =
    Some (head ++ classMemberCode 0 n 1 bv cd ++ tail) /\
    kinds head = destroyingHeadKinds dd cd prof /\
    kinds tail = destroyingTailKinds cd /\
    getType (getValue bv) = ObjectTy (ClassType (className cd)) /\
    getOwnershipKind (getValue bv) = Guaranteed /\
    match getSuperclass cd with
    | Some superclass =>
        if isNativeNSObjectSubclass cd
        then getValue bv = selfArgument cd Guaranteed
        else
          exists f base call borrow,
            definedBy f
              (FunctionRefInst {| declRefName := superclassName superclass;
                                  declRefKind := Destroyer |}) /\
            definedBy base (UpcastInst (selfArgument cd Guaranteed)) /\
            getType base = ObjectTy (ClassType (superclassName superclass)) /\
            definedBy call
              (ApplyInst f (superclassCallSubstitutions superclass) [base]) /\
            In (ApplyInst f (superclassCallSubstitutions superclass) [base])
               (listing head) /\
            definedBy borrow (BeginBorrowInst call false) /\
            definedBy (getValue bv) (UncheckedRefCastInst borrow) /\
            isSuperclassDestructorCall cd Guaranteed
              (ApplyInst f (superclassCallSubstitutions superclass) [base]) /\
            getType call = getNativeObjectType /\
            getOwnershipKind call = Owned
    | None => getValue bv = selfArgument cd Guaranteed
    end.
Proof.
  intros Hc Hf.
  unfold emitDestroyingDestructor, emitFunction.
  unfold destroyingHeadKinds, destroyingPrologKinds, destroyingTailKinds,
    callsSuperclassDestructor, hasSuperclass, superclassCallSubstitutions,
    isSuperclassDestructorCall, selfArgument.
  rewrite Hc.
  destruct (requiresUnavailableDeclABICompatibilityStubs dd);
    destruct (ddIsolation dd); destruct prof;
    silgen; rewrite Hf; silgen;
    destruct (getSuperclass cd) as [superclass|] eqn:Hsuper;
    try destruct (isNativeNSObjectSubclass cd);
    destruct (isDistributedActor cd);
    silgen; rewrite ?String.eqb_refl; silgen;
    (rewrite_run emitClassMemberDestruction_run);
    silgen; norm_app;
    match goal with
    | |- exists h bv n t, Some ?X = _ /\ _ =>
        let r := split_at_members X in
        lazymatch r with
        | (?h, (?n, ?bv), ?t) => exists h, bv, n, t
        end
    end;
    (split; [reflexivity|]);
    (split; [reflexivity|]);
    (split; [reflexivity|]);
    (split; [reflexivity|]);
    (split; [reflexivity|]);
    try reflexivity.
  all: do 4 eexists;
    (split; [do 3 eexists; reflexivity|]);
    (split; [do 3 eexists; reflexivity|]);
    (split; [reflexivity|]);
    (split; [do 3 eexists; reflexivity|]);
    (split; [cbn [listing map placedInst In]; tauto|]);
    (split; [do 3 eexists; reflexivity|]);
    (split; [do 3 eexists; reflexivity|]);
    (split; [do 4 eexists; split; reflexivity|]);
    split; reflexivity.
Qed.

(** X18.  The call of the superclass destructor in the destroying
    destructor passes self upcast to the superclass and carries the
    substitutions of the superclass in the context of the class, except
    that it carries none at all when every generic parameter of that map
    is concrete. *)
Theorem superclass_call_drops_concrete_substitutions dd cd prof :
  getSelfNominalTypeDecl dd = NominalClass cd ->
  bodyFallsThrough dd = true ->
  callsSuperclassDestructor cd = true ->
  exists l superclass f base,
    emitFunction Guaranteed prof (emitDestroyingDestructor dd) = Some l /\
    getSuperclass cd = Some superclass /\
    In (ApplyInst f (superclassCallSubstitutions superclass) [base]) (listing l) /\
    definedBy f
      (FunctionRefInst {| declRefName := superclassName superclass;
                          declRefKind := Destroyer |}) /\
    definedBy base (UpcastInst (selfArgument cd Guaranteed)) /\
    getType base = ObjectTy (ClassType (superclassName superclass)) /\
    (superclassCallSubstitutions superclass = None <->
     forall m, getContextSubstitutionMap superclass = Some m ->
               areAllParamsConcrete m = true).
Proof.
  intros Hc Hf Hs.
  destruct (emitDestroyingDestructor_epilog dd prof Hc Hf)
    as (head & bv & n & tail & He & Hh & Ht & _ & _ & H).
  unfold callsSuperclassDestructor, hasSuperclass in Hs.
  destruct (getSuperclass cd) as [superclass|] eqn:Hsuper; [|discriminate Hs].
  destruct (isNativeNSObjectSubclass cd) eqn:Hns; [discriminate Hs|].
  destruct H as (f & base & call & borrow & Hf' & Hb & Hbt & _ & Hin & _).
  exists (head ++ classMemberCode 0 n 1 bv cd ++ tail), superclass, f, base.
  split; [exact He|]. split; [reflexivity|].
  split.
  { unfold listing. rewrite map_app. apply in_or_app. left. exact Hin. }
  repeat (split; [assumption|]).
  unfold superclassCallSubstitutions.
  destruct (getContextSubstitutionMap superclass) as [m|].
  - destruct (areAllParamsConcrete m) eqn:E; split.
    + intros _ m' Hm. injection Hm as <-. exact E.
    + reflexivity.
    + discriminate.
    + intro H. specialize (H m eq_refl). congruence.
  - split; [intros _ m Hm; discriminate Hm | reflexivity].
Qed.

Lemma superclass_call_drops_concrete_substitutions_witness :
  exists l superclass f base,
    emitFunction Guaranteed false
      (emitDestroyingDestructor (sampleDestructor SubActor Unspecified)) = Some l /\
    getSuperclass SubActor = Some superclass /\
    In (ApplyInst f (superclassCallSubstitutions superclass) [base]) (listing l) /\
    definedBy f
      (FunctionRefInst {| declRefName := superclassName superclass;
                          declRefKind := Destroyer |}) /\
    definedBy base (UpcastInst (selfArgument SubActor Guaranteed)) /\
    getType base = ObjectTy (ClassType (superclassName superclass)) /\
    (superclassCallSubstitutions superclass = None <->
     forall m, getContextSubstitutionMap superclass = Some m ->
               areAllParamsConcrete m = true).
Proof.
  exact (@superclass_call_drops_concrete_substitutions
           (sampleDestructor SubActor Unspecified) SubActor false
           eq_refl eq_refl eq_refl).
Defined.

(** X19.  The destroying destructor destroys the members through a
    guaranteed value of the type of the class itself, so that the
    assertion of the member destruction holds: self as it came in when the
    superclass destructor is not called, and otherwise the owned native
    object that this call returns, under a borrow and cast back to the
    class. *)
Theorem destroying_destructor_members_through_class_value dd cd prof :
  getSelfNominalTypeDecl dd = NominalClass cd ->
  bodyFallsThrough dd = true ->
  exists head bv n tail,
    emitFunction Guaranteed prof (emitDestroyingDestructor dd) =
    Some (head ++ classMemberCode 0 n 1 bv cd ++ tail) /\
    getType (getValue bv) = ObjectTy (ClassType (className cd)) /\
    getOwnershipKind (getValue bv) = Guaranteed /\
    if callsSuperclassDestructor cd then
      exists call callInst borrow,
        definedBy call callInst /\
        isSuperclassDestructorCall cd Guaranteed callInst /\
        getType call = getNativeObjectType /\
        getOwnershipKind call = Owned /\
        (exists lexical, definedBy borrow (BeginBorrowInst call lexical)) /\
        definedBy (getValue bv) (UncheckedRefCastInst borrow)
    else getValue bv = selfArgument cd Guaranteed.
Proof.
  intros Hc Hf.
  destruct (emitDestroyingDestructor_epilog dd prof Hc Hf)
    as (head & bv & n & tail & He & _ & _ & Hty & Hown & H).
  exists head, bv, n, tail.
  repeat (split; [assumption|]).
  unfold callsSuperclassDestructor, hasSuperclass.
  destruct (getSuperclass cd) as [superclass|]; [|exact H].
  destruct (isNativeNSObjectSubclass cd); [exact H|].
  destruct H as (f & base & call & borrow & _ & _ & _ & Hcall & _ & Hb & Hbv
                 & Hsup & Hcty & Hcown).
  exists call, (ApplyInst f (superclassCallSubstitutions superclass) [base]), borrow.
  repeat (split; [assumption|]). split; [now exists false | exact Hbv].
Qed.

Lemma destroying_destructor_members_through_class_value_witness :
  exists head bv n tail,
    emitFunction Guaranteed false
      (emitDestroyingDestructor (sampleDestructor SubActor Unspecified)) =
    Some (head ++ classMemberCode 0 n 1 bv SubActor ++ tail) /\
    getType (getValue bv) = ObjectTy (ClassType "Sub") /\
    getOwnershipKind (getValue bv) = Guaranteed /\
    exists call callInst borrow,
      definedBy call callInst /\
      isSuperclassDestructorCall SubActor Guaranteed callInst /\
      getType call = getNativeObjectType /\
      getOwnershipKind call = Owned /\
      (exists lexical, definedBy borrow (BeginBorrowInst call lexical)) /\
      definedBy (getValue bv) (UncheckedRefCastInst borrow).
Proof.
  exact (@destroying_destructor_members_through_class_value
           (sampleDestructor SubActor Unspecified) SubActor false
           eq_refl eq_refl).
Defined.

(* ================================================================== *)
(** * A remote proxy in the two wrappers                               *)
(* ================================================================== *)

Lemma membersCode_listing_kinds skip bb selfValue props n :
  map getKind (listing (membersCode skip bb n selfValue props)) =
  flat_map (fun _ => [KRefElementAddr; KBeginAccess; KDestroyAddr; KEndAccess])
           (destroyedByLoop skip props).
Proof. rewrite <- kinds_listing. apply membersCode_access_kinds. Qed.

(** X20.  Remote proxies need no isolation: a remote proxy of a
    distributed actor takes the same path through the isolating destructor
    as through the deallocating destructor, instruction kind by
    instruction kind and destroyed field by destroyed field (the
    deallocating destructor only has the unavailable-code stub before it,
    when that is required), and on it only fields that the remote loop
    does not skip are destroyed. *)
Theorem remote_proxy_path_same_in_both_wrappers dd cd conv prof e :
  getSelfNominalTypeDecl dd = NominalClass cd ->
  isDistributedActor cd = true ->
  hasExecutor (ddIsolation dd) = true ->
  exists deallocating isolating pathD pathI,
    emitFunction conv prof (emitDeallocatingClassDestructor dd false)
    = Some deallocating /\
    emitFunction conv prof (emitIsolatingDestructor dd) = Some isolating /\
    executedFrom 3 {| isRemoteProxy := true; enumCase := e |} deallocating 0
    = Some pathD /\
    executedFrom 3 {| isRemoteProxy := true; enumCase := e |} isolating 0
    = Some pathI /\
    map getKind pathD =
      (if requiresUnavailableDeclABICompatibilityStubs dd
       then [KUnavailableCodeReached] else [])
      ++ map getKind pathI /\
    map destroyedField pathD =
      (if requiresUnavailableDeclABICompatibilityStubs dd then [None] else [])
      ++ map destroyedField pathI /\
    forall vd, In (Some vd) (map destroyedField pathI) ->
               In vd (getStoredProperties cd) /\ remoteSkips vd = false.
Proof.
  intros Hc Hd Hx.
  destruct (emitDeallocatingClassDestructor_remote dd conv prof Hc Hd)
    as (lD & n & nl & nt & HeD & D0 & D1 & _ & D2 & _).
  destruct (emitIsolatingDestructor_remote dd conv prof Hc Hx Hd)
    as (lI & n' & nl' & nt' & HeI & I0 & I1 & _ & I2).
  cbv zeta in D0, D1, I0, I1.
  exists lD, lI.
  exists (blockInsts 0 lD ++ blockInsts 1 lD ++ blockInsts 2 lD),
         (blockInsts 0 lI ++ blockInsts 1 lI ++ blockInsts 2 lI).
  split; [exact HeD|]. split; [exact HeI|].
  split; [apply (remote_path dd conv prof e Hc Hd HeD)|].
  split.
  { assert (L0 : last (blockInsts 0 lI) (TupleInst []) =
                 DistributedIfRemoteBranch (selfArgument cd conv) 1 3)
      by now rewrite I0.
    assert (L1 : last (blockInsts 1 lI) (TupleInst []) = BranchInst 2)
      by (rewrite I1, !app_assoc; now rewrite last_app_nonempty by discriminate).
    assert (L2 : last (blockInsts 2 lI) (TupleInst []) = ReturnInst (emptyTupleAt nt'))
      by now rewrite I2.
    cbn [executedFrom]. rewrite L0. cbn [transfer isRemoteProxy].
    rewrite L1. cbn [transfer]. rewrite L2. cbn [transfer]. reflexivity. }
  rewrite D0, D1, D2, I0, I1, I2.
  rewrite !map_app, !membersCode_listing_kinds, !membersCode_destroyedField.
  split; [|split].
  - destruct (requiresUnavailableDeclABICompatibilityStubs dd);
      destruct (isRootDefaultActor cd); reflexivity.
  - destruct (requiresUnavailableDeclABICompatibilityStubs dd);
      destruct (isRootDefaultActor cd); reflexivity.
  - intros vd Hin.
    assert (H : In (Some vd)
                   (flat_map (fun vd => [None; None; Some vd; None])
                             (destroyedByLoop remoteSkips (getStoredProperties cd)))).
    { repeat (apply in_app_or in Hin; destruct Hin as [Hin | Hin]);
        try exact Hin; exfalso;
        try (destruct (isRootDefaultActor cd)); cbn in Hin;
        repeat (destruct Hin as [Hin | Hin]; [discriminate Hin|]); exact Hin. }
    apply in_flat_map in H. destruct H as (x & Hx' & Hin').
    cbn [In] in Hin'.
    destruct Hin' as [Hin' | [Hin' | [Hin' | [Hin' | []]]]]; try discriminate Hin'.
    injection Hin' as ->.
    unfold destroyedByLoop in Hx'. apply filter_In in Hx'.
    destruct Hx' as [Hp Hs]. apply andb_true_iff in Hs.
    split; [exact Hp|]. apply negb_true_iff. apply Hs.
Qed.

Lemma remote_proxy_path_same_in_both_wrappers_witness :
  exists deallocating isolating pathD pathI,
    emitFunction Owned false
      (emitDeallocatingClassDestructor (sampleDestructor WorkerActor ActorInstance) false)
    = Some deallocating /\
    emitFunction Owned false
      (emitIsolatingDestructor (sampleDestructor WorkerActor ActorInstance))
    = Some isolating /\
    executedFrom 3 {| isRemoteProxy := true; enumCase := OptionalNoneDecl |}
                 deallocating 0 = Some pathD /\
    executedFrom 3 {| isRemoteProxy := true; enumCase := OptionalNoneDecl |}
                 isolating 0 = Some pathI /\
    map getKind pathD = map getKind pathI /\
    map destroyedField pathD = map destroyedField pathI /\
    forall vd, In (Some vd) (map destroyedField pathI) ->
               In vd (getStoredProperties WorkerActor) /\ remoteSkips vd = false.
Proof.
  exact (@remote_proxy_path_same_in_both_wrappers
           (sampleDestructor WorkerActor ActorInstance) WorkerActor Owned false
           OptionalNoneDecl eq_refl eq_refl eq_refl).
Defined.
